(** * ZXing one-dimensional row reader kernel (src/core/src/oned/ODRowReader.h)

    A shallow embedding of the static helpers of [ZXing::OneD::RowReader]:
    run extraction ([RecordPattern], [RecordPatternInReverse]), the sliding
    window search ([FindPattern]), digit resolution ([DecodeDigit]) and the
    narrow/wide classification ([NarrowWideThreshold], [ToNarrowWidePattern]).

    Conventions.
    - A row of pixels is a [list bool] ([true] = black).  Iterators are
      positions in the row; the two iterator kinds the header instantiates
      its templates with (plain iterators and [std::reverse_iterator]) are
      the two instances of the class [Iterator].
    - Counter containers are [list Z], written by index with stdpp's
      [<[i:=x]>].  Their element type is a template parameter of the
      header: the class [CounterType] gives its width and signedness, and
      every width is stored through [static_cast<CounterValue>].
    - [float] scores are exact rationals ([Q]); no score is a NaN. *)

From Stdlib Require Import ZArith QArith Qabs Lia Lqa Bool.
From stdpp Require Import base list.

Local Open Scope Z_scope.

(* ===================================================================== *)
(** ** Rows, iterators and ranges                                          *)
(* ===================================================================== *)

Abbreviation Row := (list bool).
Abbreviation Counters := (list Z).

(** [Range<Iterator>], declared in BitArray.h (not part of the sources): the
    pair of iterators that the header builds with [{begin, end}] and reads
    through [.begin] and [.end]. *)
Record Range (It : Type) : Type := mkRange { r_begin : It; r_end : It }.
Arguments mkRange {It} _ _.
Arguments r_begin {It} _.
Arguments r_end {It} _.

(** What the templates of the header use of an iterator: [*i], [++i],
    [std::advance(i, n)], [a - b] and [a == b]. *)
Class Iterator (It : Type) : Type := {
  deref : Row -> It -> bool;
  incr : It -> It;
  advance : It -> Z -> It;
  diff : It -> It -> Z;
  it_eqb : It -> It -> bool
}.

(** The pixel at position [p]; positions outside the row are never read by
    the code on a valid range and read as white here. *)
Definition pixel (row : Row) (p : Z) : bool :=
  if p <? 0 then false else nth (Z.to_nat p) row false.

(** Plain (forward) iterators: a position. *)
#[export] Instance ForwardIterator : Iterator Z := {
  deref := pixel;
  incr := Z.succ;
  advance := fun p n => p + n;
  diff := fun a b => a - b;
  it_eqb := Z.eqb
}.

(** [std::reverse_iterator<Iterator>]: wraps a base position, reads the
    element before it and moves the other way. *)
Record reverse_iterator : Type := mkReverse { base : Z }.

#[export] Instance ReverseIterator : Iterator reverse_iterator := {
  deref := fun row r => pixel row (base r - 1);
  incr := fun r => mkReverse (base r - 1);
  advance := fun r n => mkReverse (base r - n);
  diff := fun a b => base b - base a;
  it_eqb := fun a b => base a =? base b
}.

(** The empty range [{end, end}]: the "not found" sentinel of the header. *)
Definition NotFound {It : Type} (end_ : It) : Range It := mkRange end_ end_.

Definition range_empty {It : Type} `{Iterator It} (r : Range It) : bool :=
  it_eqb (r_begin r) (r_end r).

Definition range_size {It : Type} `{Iterator It} (r : Range It) : Z :=
  diff (r_end r) (r_begin r).

Definition sumZ (l : list Z) : Z := foldr Z.add 0 l.

(* ===================================================================== *)
(** ** BitArray::getNextSetTo                                              *)
(* ===================================================================== *)

(** Modelled from the spec: [BitArray::getNextSetTo] (BitArray.h is not part
    of the sources).  It is the Row's query for the next position from
    [begin] holding the value [v], or [end] when there is none; FindPattern
    calls it with the negation of the current pixel, which makes it the
    spec's "next position whose value differs".  The loop
    [while (begin != end && *begin != v) ++begin] runs at most
    [end - begin] times, which is the recursion argument. *)
Fixpoint getNextSetTo_loop {It : Type} `{Iterator It}
    (n : nat) (row : Row) (begin : It) (v : bool) : It :=
  match n with
  | O => begin
  | S n' =>
      if eqb (deref row begin) v then begin
      else getNextSetTo_loop n' row (incr begin) v
  end.

Definition getNextSetTo {It : Type} `{Iterator It}
    (row : Row) (begin end_ : It) (v : bool) : It :=
  getNextSetTo_loop (Z.to_nat (diff end_ begin)) row begin v.

(* ===================================================================== *)
(** ** FindPattern                                                         *)
(* ===================================================================== *)

(** [counters[k]] for reading; every index the header reads is in range
    for a non-empty container (two elements where a window is rejected). *)
Definition at_ (counters : Counters) (k : nat) : Z := default 0 (counters !! k).

(** [std::copy(first, last, dest)] on one container, element by element:
    [n] elements from index [from] are written to index [to] onwards. *)
Fixpoint copy_loop (n from to : nat) (counters : Counters) : Counters :=
  match n with
  | O => counters
  | S n' => copy_loop n' (S from) (S to) (<[to := at_ counters from]> counters)
  end.

(** [std::copy(counters.begin() + 2, counters.end(), counters.begin())]. *)
Definition shift_left_2 (counters : Counters) : Counters :=
  copy_loop (length counters - 2) 2 0 counters.

(** [CounterValue] (line 107), the element type of the counters container:
    an integral type, given by its width in bits and its signedness.  The
    readers built on the header use [int] counters. *)
Class CounterType : Type := {
  counter_bits : Z;
  counter_signed : bool
}.

(** [static_cast<CounterValue>(z)]: the value is reduced modulo
    [2 ^ counter_bits] into the range of the type. *)
Definition static_cast_counter {CounterValue : CounterType} (z : Z) : Z :=
  if counter_signed
  then (z + 2 ^ (counter_bits - 1)) mod 2 ^ counter_bits - 2 ^ (counter_bits - 1)
  else z mod 2 ^ counter_bits.

(** [std::numeric_limits<CounterValue>::max()]. *)
Definition counter_max {CounterValue : CounterType} : Z :=
  if counter_signed then 2 ^ (counter_bits - 1) - 1 else 2 ^ counter_bits - 1.

#[export] Instance int_counter : CounterType := {
  counter_bits := 32;
  counter_signed := true
}.

Definition uint8_counter : CounterType := {|
  counter_bits := 8;
  counter_signed := false
|}.

Section FindPattern.
Context {It : Type} `{Iterator It} {CounterValue : CounterType}.

(** The state of the scan at the head of the [while] loop: the window
    start [begin], the last boundary [li], the cursor [i], the index of
    [currentCounter] and the counters. *)
Record ScanState : Type := mkScan {
  s_begin : It;
  s_li : It;
  s_i : It;
  s_cur : nat;
  s_counters : Counters
}.

(** One evaluation of the loop condition and, when it holds, of the loop
    body (lines 108-119).  The width [i - li] is stored through
    [static_cast<CounterValue>], in the loop (line 109) and when the cursor
    reaches [end] (line 121).  A rejection reads [counters[0]] and
    [counters[1]] and steps [currentCounter] back by two: the header needs
    at least two counters there.  Their sum is formed after integral
    promotion and passed to [std::advance] as a distance; it is the sum of
    the two stored values. *)
Inductive ScanStep : Type :=
| Exhausted (counters : Counters)          (* the cursor reached [end] *)
| Matched (r : Range It) (counters : Counters)
| Continue (s : ScanState).

Definition FindPattern_step (row : Row) (end_ : It)
    (match_ : It -> It -> Counters -> bool) (s : ScanState) : ScanStep :=
  let i := getNextSetTo row (s_i s) end_ (negb (deref row (s_i s))) in
  let counters := <[s_cur s := static_cast_counter (diff i (s_li s))]> (s_counters s) in
  if it_eqb i end_ then
    Exhausted counters
  else
    let cur := S (s_cur s) in
    if Nat.eqb cur (length counters) then
      if match_ (s_begin s) i counters then
        Matched (mkRange (s_begin s) i) counters
      else
        Continue (mkScan (advance (s_begin s) (at_ counters 0 + at_ counters 1))
                         i i (cur - 2) (shift_left_2 counters))
    else
      Continue (mkScan (s_begin s) i i cur counters).

(** The [while] loop.  Every iteration moves the cursor, so the distance
    to [end] bounds the number of iterations; [None] only when that
    bound is used up. *)
Fixpoint FindPattern_loop (fuel : nat) (row : Row) (end_ : It)
    (match_ : It -> It -> Counters -> bool) (s : ScanState)
    : option (Range It * Counters) :=
  match fuel with
  | O => None
  | S fuel' =>
      match FindPattern_step row end_ match_ s with
      | Exhausted counters => Some (NotFound end_, counters)
      | Matched r counters => Some (r, counters)
      | Continue s' => FindPattern_loop fuel' row end_ match_ s'
      end
  end.

Definition FindPattern (row : Row) (begin end_ : It) (counters : Counters)
    (match_ : It -> It -> Counters -> bool) : option (Range It * Counters) :=
  if it_eqb begin end_ then Some (NotFound end_, counters)
  else FindPattern_loop (Z.to_nat (diff end_ begin)) row end_ match_
         (mkScan begin begin begin 0 counters).

(** [counters.back() = 0]. *)
Definition set_back (counters : Counters) (v : Z) : Counters :=
  <[pred (length counters) := v]> counters.

Definition back (counters : Counters) : Z :=
  at_ counters (pred (length counters)).

Definition RecordPattern (row : Row) (begin end_ : It) (counters : Counters)
    : option (Range It * Counters) :=
  let counters0 := set_back counters 0 in
  match FindPattern row begin end_ counters0 (fun _ _ _ => true) with
  | None => None
  | Some (range, counters1) =>
      if it_eqb (r_end range) end_ && negb (back counters1 =? 0)
      then Some (mkRange begin end_, counters1)
      else Some (range, counters1)
  end.
End FindPattern.

Arguments ScanState It : clear implicits.
Arguments ScanStep It : clear implicits.

(** [RecordPatternInReverse]: [RecordPattern] on reverse iterators, then the
    counters are reversed and the range is turned back into plain
    iterators. *)
Definition RecordPatternInReverse {CounterValue : CounterType}
    (row : Row) (begin end_ : Z) (counters : Counters)
    : option (Range Z * Counters) :=
  let rbegin := mkReverse end_ in
  let rend := mkReverse begin in
  match RecordPattern row rbegin rend counters with
  | None => None
  | Some (range, counters1) =>
      Some (mkRange (base (r_end range)) (base (r_begin range)), reverse counters1)
  end.

(* ===================================================================== *)
(** ** Fit scoring                                                         *)
(* ===================================================================== *)

(** [a < b] and [a == b] on scores. *)
Definition Qltb (a b : Q) : bool :=
  match (a ?= b)%Q with Lt => true | _ => false end.

Module FitScoring.

(** Modelled from the spec: the value returned for a rejected pattern, the
    "sentinel value larger than any acceptable score" of section 4.3, taken
    to be the largest finite single-precision number, 2^128 - 2^104. *)
Definition sentinel : Q := inject_Z (2 ^ 128 - 2 ^ 104).

(** Modelled from the spec: the "individual variance ratio
    [deviation / expected] (guarded against division by values near
    zero)" of section 4.3.  With no positive expected width there is
    nothing to divide by and the deviation itself is judged; the guard is
    never taken for a pattern of positive entries and counters of positive
    sum, which is where the theorems below speak. *)
Definition individualRatio (deviation expected : Q) : Q :=
  if Qle_bool expected 0 then deviation else (deviation / expected)%Q.

Definition expectedWidth (unitWidth : Q) (p : Z) : Q :=
  (inject_Z p * unitWidth)%Q.

Definition deviationOf (unitWidth : Q) (c p : Z) : Q :=
  Qabs (inject_Z c - expectedWidth unitWidth p).

(** Modelled from the spec: the loop over the positions of section 4.3,
    [None] when a position is rejected, the accumulated deviation
    otherwise. *)
Fixpoint totalDeviation (unitWidth maxIndividualVariance : Q)
    (counters pattern : list Z) (acc : Q) : option Q :=
  match counters, pattern with
  | c :: counters', p :: pattern' =>
      let deviation := deviationOf unitWidth c p in
      if Qltb maxIndividualVariance
           (individualRatio deviation (expectedWidth unitWidth p))
      then None
      else totalDeviation unitWidth maxIndividualVariance counters' pattern'
             (acc + deviation)%Q
  | _, _ => Some acc
  end.

(** Modelled from the spec: the overload
    [PatternMatchVariance(const int* counters, const int* pattern,
    size_t length, float maxIndividualVariance)], which the header only
    declares (line 207; its definition is not part of the sources).  It
    follows section 4.3 of the specification: [unitWidth] is
    [total / patternTotal], a position whose individual ratio exceeds
    [maxIndividualVariance] rejects the pattern, and the score is
    [totalDeviation / total]. *)
Definition PatternMatchVariance_ptr (counters pattern : list Z) (length : nat)
    (maxIndividualVariance : Q) : Q :=
  let counters := take length counters in
  let pattern := take length pattern in
  let total := inject_Z (sumZ counters) in
  let patternTotal := inject_Z (sumZ pattern) in
  let unitWidth := (total / patternTotal)%Q in
  match totalDeviation unitWidth maxIndividualVariance counters pattern 0 with
  | None => sentinel
  | Some deviation => (deviation / total)%Q
  end.

(** The template wrapper of lines 171-175; its assertion
    [counters.size() <= pattern.size()] is a precondition. *)
Definition PatternMatchVariance (counters pattern : list Z)
    (maxIndividualVariance : Q) : Q :=
  PatternMatchVariance_ptr counters pattern (length counters) maxIndividualVariance.

End FitScoring.

(* ===================================================================== *)
(** ** DecodeDigit                                                         *)
(* ===================================================================== *)

(** [static_cast<int>] of a [size_t]. *)
Definition static_cast_int (z : Z) : Z := (z + 2 ^ 31) mod 2 ^ 32 - 2 ^ 31.

Definition INVALID_MATCH : Z := -1.

Record DigitState : Type := mkDigit { bestVariance : Q; bestMatch : Z }.

Section DecodeDigit.
(** The scoring function is a parameter: DecodeDigit only compares the
    scores it is given. *)
Variable PatternMatchVariance : Counters -> list Z -> Q -> Q.

(** The body of the [for] loop (lines 194-201). *)
Definition DecodeDigit_step (counters : Counters) (maxIndividualVariance : Q)
    (requireUnambiguousMatch : bool) (st : DigitState) (i : nat) (pattern : list Z)
    : DigitState :=
  let variance := PatternMatchVariance counters pattern maxIndividualVariance in
  if Qltb variance (bestVariance st) then
    mkDigit variance (static_cast_int (Z.of_nat i))
  else if requireUnambiguousMatch && Qeq_bool variance (bestVariance st) then
    mkDigit (bestVariance st) INVALID_MATCH
  else st.

(** [for (size_t i = 0; i < patterns.size(); i++)], from index [i] on. *)
Fixpoint DecodeDigit_loop (counters : Counters) (maxIndividualVariance : Q)
    (requireUnambiguousMatch : bool) (i : nat) (patterns : list (list Z))
    (st : DigitState) : DigitState :=
  match patterns with
  | [] => st
  | pattern :: patterns' =>
      DecodeDigit_loop counters maxIndividualVariance requireUnambiguousMatch
        (S i) patterns'
        (DecodeDigit_step counters maxIndividualVariance requireUnambiguousMatch
           st i pattern)
  end.

Definition DecodeDigit (counters : Counters) (patterns : list (list Z))
    (maxAvgVariance maxIndividualVariance : Q) (requireUnambiguousMatch : bool) : Z :=
  bestMatch
    (DecodeDigit_loop counters maxIndividualVariance requireUnambiguousMatch
       0 patterns (mkDigit maxAvgVariance INVALID_MATCH)).
End DecodeDigit.

(* ===================================================================== *)
(** ** Narrow/wide classification                                          *)
(* ===================================================================== *)

(** Modelled from the spec: [BarAndSpace<T>], declared in Pattern.h (not
    part of the sources), the "two-element value distinguishing bar and
    space measurements".  The loops of NarrowWideThreshold index it with
    the index of a view element and with [i + 1], so indexing goes by
    parity: even indices for bars, odd ones for spaces.  The value-
    initialised pair [{}] that the header returns as the invalid threshold
    is the all-zero pair, which [isValid] recognises. *)
Record BarAndSpaceI : Type := mkBarAndSpace { bar : Z; space : Z }.

Definition bs_get (x : BarAndSpaceI) (i : nat) : Z :=
  if Nat.even i then bar x else space x.

Definition bs_set (x : BarAndSpaceI) (i : nat) (v : Z) : BarAndSpaceI :=
  if Nat.even i then mkBarAndSpace v (space x) else mkBarAndSpace (bar x) v.

Definition isValid (x : BarAndSpaceI) : bool :=
  negb (bar x =? 0) && negb (space x =? 0).

Section NarrowWide.
(** [std::numeric_limits<BarAndSpaceI::value_type>::max()].  The value
    type is declared in Pattern.h, which is not part of the sources: it is
    an unsigned type narrower than [int], so the arithmetic of the checks
    is exact and a store into a [BarAndSpaceI] wraps at [value_max + 1]. *)
Variable value_max : Z.

Definition to_value (z : Z) : Z := z mod (value_max + 1).

(** A [PatternView] is read through [view[i]] and [view.size()] only:
    the list of its run widths, bars at the even indices. *)

(** First loop (lines 223-226): minimum and maximum per bar/space. *)
Fixpoint minmax_loop (i : nat) (view : list Z) (m M : BarAndSpaceI)
    : BarAndSpaceI * BarAndSpaceI :=
  match view with
  | [] => (m, M)
  | w :: view' =>
      minmax_loop (S i) view'
        (bs_set m i (Z.min (bs_get m i) w))
        (bs_set M i (Z.max (bs_get M i) w))
  end.

(** The sanity check of line 233. *)
Definition rejects (m M : BarAndSpaceI) (i : nat) : bool :=
  (bs_get M i >? 4 * (bs_get m i + 1))
  || (bs_get M i >? 3 * bs_get M (i + 1))
  || (bs_get m i >? 2 * (bs_get m (i + 1) + 1)).

(** Second loop (lines 229-237), [n] iterations from index [i]. *)
Fixpoint threshold_loop (n i : nat) (m M res : BarAndSpaceI) : BarAndSpaceI :=
  match n with
  | O => res
  | S n' =>
      if rejects m M i then mkBarAndSpace 0 0
      else
        threshold_loop n' (S i) m M
          (bs_set res i
             (to_value (Z.max ((bs_get m i + bs_get M i) ÷ 2) (bs_get m i * 3 ÷ 2))))
  end.

Definition NarrowWideThreshold (view : list Z) : BarAndSpaceI :=
  let '(m, M) := minmax_loop 0 view (mkBarAndSpace value_max value_max)
                   (mkBarAndSpace 0 0) in
  threshold_loop 2 0 m M (mkBarAndSpace 0 0).

(** The loop of lines 253-257 with its early [return -1].  The pattern is
    an [int]: the shift wraps at 32 bits. *)
Fixpoint pattern_loop (i : nat) (view : list Z) (threshold : BarAndSpaceI)
    (pattern : Z) : Z :=
  match view with
  | [] => pattern
  | w :: view' =>
      if w >? bs_get threshold i * 2 then -1
      else
        pattern_loop (S i) view' threshold
          (static_cast_int
             (Z.lor (Z.shiftl pattern 1) (if w >? bs_get threshold i then 1 else 0)))
  end.

Definition ToNarrowWidePattern (view : list Z) : Z :=
  let threshold := NarrowWideThreshold view in
  if negb (isValid threshold) then -1
  else pattern_loop 0 view threshold 0.
End NarrowWide.

(* ===================================================================== *)
(** ** Reference notions for the statements                                *)
(* ===================================================================== *)

(** The run widths of a pixel sequence: the lengths of its maximal blocks
    of equal pixels, in order.  [runs_from cur w l] continues a run of
    colour [cur] that is already [w] wide. *)
Fixpoint runs_from (cur : bool) (w : Z) (l : list bool) : list Z :=
  match l with
  | [] => [w]
  | b :: l' => if eqb b cur then runs_from cur (w + 1) l' else w :: runs_from b 1 l'
  end.

Definition runs (l : list bool) : list Z :=
  match l with
  | [] => []
  | b :: l' => runs_from b 1 l'
  end.

(** The pixels of the position range [[begin, end)]. *)
Definition slice (row : Row) (begin end_ : Z) : list bool :=
  take (Z.to_nat (end_ - begin)) (drop (Z.to_nat begin) row).

(** Counter slots overwritten from the left by the widths [rs], as far as
    there are slots and widths. *)
Definition fill (slots : Counters) (rs : list Z) : Counters :=
  take (length slots) rs ++ drop (length rs) slots.

(** The position range [r] of a row of length [len], seen from the other
    end of the row. *)
Definition mirror (len : Z) (r : Range Z) : Range Z :=
  mkRange (len - r_end r) (len - r_begin r).

(** A reverse iterator of a row of length [len], as the plain iterator of
    the reversed row that points to the same pixel; likewise for ranges and
    for the states of a scan. *)
Definition fwd_pos (len : Z) (r : reverse_iterator) : Z := len - base r.

Definition fwd_range (len : Z) (r : Range reverse_iterator) : Range Z :=
  mkRange (fwd_pos len (r_begin r)) (fwd_pos len (r_end r)).

Definition fwd_state (len : Z) (s : ScanState reverse_iterator) : ScanState Z :=
  mkScan (fwd_pos len (s_begin s)) (fwd_pos len (s_li s)) (fwd_pos len (s_i s))
    (s_cur s) (s_counters s).

Definition fwd_step (len : Z) (st : ScanStep reverse_iterator) : ScanStep Z :=
  match st with
  | Exhausted counters => Exhausted counters
  | Matched r counters => Matched (fwd_range len r) counters
  | Continue s => Continue (fwd_state len s)
  end.

Definition fwd_result (len : Z) (res : option (Range reverse_iterator * Counters))
    : option (Range Z * Counters) :=
  match res with
  | Some (r, counters) => Some (fwd_range len r, counters)
  | None => None
  end.

(** The total deviation in integers: with [P] the sum of the pattern and
    [T] the sum of the counters, [|c - p * (T / P)|] is
    [|c * P - p * T| / P]. *)
Fixpoint scaledDeviation (P T : Z) (counters pattern : list Z) : Z :=
  match counters, pattern with
  | c :: counters', p :: pattern' =>
      Z.abs (c * P - p * T) + scaledDeviation P T counters' pattern'
  | _, _ => 0
  end.

(** What a scan of FindPattern looks for, on the list [rs] of the run
    widths that lie ahead of the window start [pos]: the first window of
    [N] runs, among those starting every two runs, that is followed by at
    least one more run and that the predicate accepts. *)
Fixpoint windows_search (N : nat) (match_ : Z -> Z -> Counters -> bool)
    (pos : Z) (rs : list Z) : option (Range Z * Counters) :=
  match rs with
  | [] => None
  | r0 :: rs1 =>
      if (N <? length rs)%nat then
        let w := take N rs in
        if match_ pos (pos + sumZ w) w then Some (mkRange pos (pos + sumZ w), w)
        else
          match rs1 with
          | [] => None
          | r1 :: rs2 => windows_search N match_ (pos + r0 + r1) rs2
          end
      else None
  end.

(** The candidate windows of a scan over the run widths [rs] from position
    [pos]: window [j] starts [2 * j] runs in and has [N] runs. *)
Definition window_start (pos : Z) (rs : list Z) (j : nat) : Z :=
  pos + sumZ (take (2 * j) rs).

Definition window (N : nat) (rs : list Z) (j : nat) : list Z :=
  take N (drop (2 * j) rs).

(** The predicate's verdict on candidate window [j]. *)
Definition accepts (N : nat) (match_ : Z -> Z -> Counters -> bool)
    (pos : Z) (rs : list Z) (j : nat) : bool :=
  match_ (window_start pos rs j)
         (window_start pos rs j + sumZ (window N rs j))
         (window N rs j).

(** Widening the first, or the last, run of a list of run widths. *)
Definition add_head (d : Z) (rs : list Z) : list Z :=
  match rs with
  | [] => []
  | r :: rs' => (r + d) :: rs'
  end.

Fixpoint add_last (d : Z) (rs : list Z) : list Z :=
  match rs with
  | [] => []
  | [r] => [r + d]
  | r :: rs' => r :: add_last d rs'
  end.

(** What the loop of DecodeDigit keeps true of its state after the patterns
    [seen]: the best variance bounds the scores seen and the initial bound
    from below, and a valid best match is the index of a pattern seen whose
    score is the best variance, below the initial bound and, when
    [requireUnambiguousMatch] is set, strictly below every other score
    seen. *)
Definition digit_inv (PatternMatchVariance : Counters -> list Z -> Q -> Q)
    (counters : Counters) (maxAvgVariance maxIndividualVariance : Q)
    (requireUnambiguousMatch : bool) (seen : list (list Z)) (st : DigitState) : Prop :=
  let score p := PatternMatchVariance counters p maxIndividualVariance in
  (forall p, p ∈ seen -> (bestVariance st <= score p)%Q)
  /\ (bestVariance st <= maxAvgVariance)%Q
  /\ (bestMatch st = INVALID_MATCH
      \/ exists (a : nat) (pa : list Z),
           bestMatch st = Z.of_nat a
           /\ seen !! a = Some pa
           /\ (score pa == bestVariance st)%Q
           /\ (bestVariance st < maxAvgVariance)%Q
           /\ (requireUnambiguousMatch = true ->
               forall (j : nat) (pj : list Z),
                 j <> a -> seen !! j = Some pj -> (bestVariance st < score pj)%Q)).

(** The entry of a pair for one kind of element, [true] for bars and
    [false] for spaces: [bs_get x i] is [side x (Nat.even i)]. *)
Definition side (x : BarAndSpaceI) (b : bool) : Z :=
  if b then bar x else space x.

(** A view that NarrowWideThreshold can treat without overflow: at least
    one bar and one space, widths positive, and one and a half times a
    width still a value of the value type. *)
Definition view_fits (value_max : Z) (view : list Z) : Prop :=
  (2 <= length view)%nat
  /\ forall w, w ∈ view -> 0 < w /\ 3 * w <= 2 * value_max.

(** The threshold that line 236 computes for one kind of element from the
    minimum [m] and the maximum [M] of its widths. *)
Definition threshold_of (m M : Z) : Z := Z.max ((m + M) ÷ 2) (m * 3 ÷ 2).

(* ===================================================================== *)
(** * Sanity checks on concrete rows                                       *)
(* ===================================================================== *)

Example RecordPattern_ex1 :
  RecordPattern [true; true; false; true; true; true; false] 0 7 [9; 9; 9]
  = Some (mkRange 0 6, [2; 1; 3]).
Proof. reflexivity. Qed.

Example RecordPattern_ex2 :
  RecordPattern [true; true; false; true; true; true] 0 6 [9; 9; 9]
  = Some (mkRange 0 6, [2; 1; 3]).
Proof. reflexivity. Qed.

Example RecordPattern_ex3 :
  RecordPattern [true; true; false; false] 0 4 [9; 9; 9]
  = Some (mkRange 4 4, [2; 2; 0]).
Proof. reflexivity. Qed.

Example RecordPatternInReverse_ex1 :
  RecordPatternInReverse [false; true; true; false; true; true; true] 0 7 [9; 9; 9]
  = Some (mkRange 1 7, [2; 1; 3]).
Proof. reflexivity. Qed.

(* ===================================================================== *)
(** * Narrow/wide classification                                           *)
(* ===================================================================== *)

Example NarrowWideThreshold_ex_2_6 :
  NarrowWideThreshold 65535 [2; 2; 6; 6] = mkBarAndSpace 4 4.
Proof. reflexivity. Qed.

Example ToNarrowWidePattern_ex_2_2_6_6 :
  ToNarrowWidePattern 65535 [2; 2; 6; 6] = 3.
Proof. reflexivity. Qed.

(** The first loop leaves the parity structure alone: what is checked
    afterwards only depends on the two pairs it returns. *)
Lemma threshold_loop_rejects_bar value_max m M res :
  bar M > 4 * (bar m + 1) ->
  threshold_loop value_max 2 0 m M res = mkBarAndSpace 0 0.
Proof.
  intros Hr. cbn [threshold_loop]. unfold rejects. cbn [bs_get Nat.even].
  replace (bar M >? 4 * (bar m + 1)) with true by (symmetry; apply Z.gtb_lt; lia).
  reflexivity.
Qed.

Lemma threshold_loop_rejects_space value_max m M res :
  space M > 4 * (space m + 1) ->
  threshold_loop value_max 2 0 m M res = mkBarAndSpace 0 0.
Proof.
  intros Hr. cbn [threshold_loop]. destruct (rejects m M 0); [reflexivity|].
  unfold rejects. cbn [bs_get Nat.even].
  replace (space M >? 4 * (space m + 1)) with true by (symmetry; apply Z.gtb_lt; lia).
  reflexivity.
Qed.

(** The 1:3 window with bar widths {2, 6} and space widths {2, 6}. *)
Lemma NarrowWideThreshold_2_2_6_6 value_max :
  6 <= value_max ->
  NarrowWideThreshold value_max [2; 2; 6; 6] = mkBarAndSpace 4 4.
Proof.
  intros Hmax. unfold NarrowWideThreshold.
  assert (Hm : minmax_loop 0 [2; 2; 6; 6] (mkBarAndSpace value_max value_max)
                 (mkBarAndSpace 0 0) = (mkBarAndSpace 2 2, mkBarAndSpace 6 6)).
  { cbn [minmax_loop bs_get bs_set Nat.even bar space].
    f_equal; f_equal; lia. }
  rewrite Hm. cbn [threshold_loop].
  change (rejects (mkBarAndSpace 2 2) (mkBarAndSpace 6 6) 0) with false.
  change (rejects (mkBarAndSpace 2 2) (mkBarAndSpace 6 6) 1) with false.
  cbn [bs_get bs_set Nat.even bar space].
  change (Z.max ((2 + 6) ÷ 2) (2 * 3 ÷ 2)) with 4.
  unfold to_value. rewrite Z.mod_small by lia. reflexivity.
Qed.

(** C7, as the claim states it, fails: in the window [2; 2; 9; 6] the bars
    are 2 and 9 wide, a ratio above 4:1, and the threshold is valid. *)
Lemma NarrowWideThreshold_ratio_counterexample :
  ~ (forall (value_max : Z) (view : list Z) (m M : BarAndSpaceI),
        minmax_loop 0 view (mkBarAndSpace value_max value_max) (mkBarAndSpace 0 0)
          = (m, M) ->
        bar M > 4 * bar m \/ space M > 4 * space m ->
        isValid (NarrowWideThreshold value_max view) = false).
Proof.
  intros Hclaim.
  specialize (Hclaim 65535 [2; 2; 9; 6] _ _ eq_refl).
  cbn in Hclaim.
  assert (Hvalid : true = false) by (apply Hclaim; left; lia).
  discriminate Hvalid.
Qed.

(** C7 (amended).  NarrowWideThreshold returns the invalid threshold for
    every window in which, for the bars or for the spaces, the maximum width
    exceeds four times the minimum width plus one ([max > 4 * (min + 1)]),
    and a valid one, [{4, 4}], for the 1:3 window with bar widths {2, 6}
    and space widths {2, 6}. *)
Theorem NarrowWideThreshold_ratio (value_max : Z) (view : list Z) (m M : BarAndSpaceI) :
  6 <= value_max ->
  minmax_loop 0 view (mkBarAndSpace value_max value_max) (mkBarAndSpace 0 0) = (m, M) ->
  bar M > 4 * (bar m + 1) \/ space M > 4 * (space m + 1) ->
  NarrowWideThreshold value_max view = mkBarAndSpace 0 0
  /\ isValid (NarrowWideThreshold value_max view) = false
  /\ NarrowWideThreshold value_max [2; 2; 6; 6] = mkBarAndSpace 4 4
  /\ isValid (NarrowWideThreshold value_max [2; 2; 6; 6]) = true.
Proof.
  intros Hmax Hmm Hratio.
  assert (Hinv : NarrowWideThreshold value_max view = mkBarAndSpace 0 0).
  { unfold NarrowWideThreshold. rewrite Hmm.
    destruct Hratio as [Hb | Hs].
    - now apply threshold_loop_rejects_bar.
    - now apply threshold_loop_rejects_space. }
  assert (Hok : NarrowWideThreshold value_max [2; 2; 6; 6] = mkBarAndSpace 4 4)
    by now apply NarrowWideThreshold_2_2_6_6.
  rewrite Hinv, Hok. repeat split; reflexivity.
Qed.

Lemma NarrowWideThreshold_ratio_witness :
  NarrowWideThreshold 65535 [1; 1; 9; 1] = mkBarAndSpace 0 0
  /\ isValid (NarrowWideThreshold 65535 [1; 1; 9; 1]) = false
  /\ NarrowWideThreshold 65535 [2; 2; 6; 6] = mkBarAndSpace 4 4
  /\ isValid (NarrowWideThreshold 65535 [2; 2; 6; 6]) = true.
Proof.
  apply (NarrowWideThreshold_ratio 65535 [1; 1; 9; 1]
           (mkBarAndSpace 1 1) (mkBarAndSpace 9 1)).
  - lia.
  - reflexivity.
  - left. simpl. lia.
Defined.

(** In [2; 6; 2; 6] both bars are 2 wide and both spaces 6 wide. *)
Lemma minmax_2_6_2_6 value_max :
  9 <= value_max ->
  minmax_loop 0 [2; 6; 2; 6] (mkBarAndSpace value_max value_max) (mkBarAndSpace 0 0)
  = (mkBarAndSpace 2 6, mkBarAndSpace 2 6).
Proof.
  intros Hmax. cbn [minmax_loop bs_get bs_set Nat.even bar space].
  f_equal; f_equal; lia.
Qed.

Lemma NarrowWideThreshold_2_6_2_6 value_max :
  9 <= value_max ->
  NarrowWideThreshold value_max [2; 6; 2; 6] = mkBarAndSpace 3 9.
Proof.
  intros Hmax. unfold NarrowWideThreshold. rewrite minmax_2_6_2_6 by assumption.
  cbn [threshold_loop].
  change (rejects (mkBarAndSpace 2 6) (mkBarAndSpace 2 6) 0) with false.
  change (rejects (mkBarAndSpace 2 6) (mkBarAndSpace 2 6) 1) with false.
  cbn [bs_get bs_set Nat.even bar space].
  change (Z.max ((2 + 2) ÷ 2) (2 * 3 ÷ 2)) with 3.
  change (Z.max ((6 + 6) ÷ 2) (6 * 3 ÷ 2)) with 9.
  unfold to_value. rewrite !Z.mod_small by lia. reflexivity.
Qed.

(** C8, as the claim states it, fails: the result on [2; 6; 2; 6] is not
    0b0101. *)
Lemma ToNarrowWidePattern_2_6_2_6_counterexample :
  ToNarrowWidePattern 65535 [2; 6; 2; 6] <> 5.
Proof. vm_compute. discriminate. Qed.

(** C8 (amended).  On the run widths [2; 6; 2; 6] the threshold computed
    from the same data is 3 for the bars (both 2 wide) and 9 for the spaces
    (both 6 wide), and ToNarrowWidePattern yields 0b0000: every element is
    narrow for its kind.  The widths [2; 2; 6; 6] (bars {2, 6}, spaces
    {2, 6}) yield 0b0011, narrow, narrow, wide, wide with the most
    significant bit first. *)
Theorem ToNarrowWidePattern_2_6_2_6 (value_max : Z) :
  9 <= value_max ->
  NarrowWideThreshold value_max [2; 6; 2; 6] = mkBarAndSpace 3 9
  /\ ToNarrowWidePattern value_max [2; 6; 2; 6] = 0
  /\ ToNarrowWidePattern value_max [2; 2; 6; 6] = 3.
Proof.
  intros Hmax. split; [now apply NarrowWideThreshold_2_6_2_6|]. split.
  - unfold ToNarrowWidePattern. rewrite NarrowWideThreshold_2_6_2_6 by assumption.
    reflexivity.
  - unfold ToNarrowWidePattern. rewrite NarrowWideThreshold_2_2_6_6 by lia.
    reflexivity.
Qed.

Lemma ToNarrowWidePattern_2_6_2_6_witness :
  NarrowWideThreshold 65535 [2; 6; 2; 6] = mkBarAndSpace 3 9
  /\ ToNarrowWidePattern 65535 [2; 6; 2; 6] = 0
  /\ ToNarrowWidePattern 65535 [2; 2; 6; 6] = 3.
Proof. apply (ToNarrowWidePattern_2_6_2_6 65535). lia. Defined.

(* ===================================================================== *)
(** * The sliding window of FindPattern                                    *)
(* ===================================================================== *)

Lemma at_lookup (counters : Counters) (k : nat) (x : Z) :
  counters !! k = Some x -> at_ counters k = x.
Proof. unfold at_. now intros ->. Qed.

(** Copying from two slots ahead never reads a slot already written. *)
Lemma copy_loop_length (n from to : nat) (l : Counters) :
  length (copy_loop n from to l) = length l.
Proof.
  revert from to l. induction n as [|n IH]; intros from to l; simpl.
  - reflexivity.
  - rewrite IH. apply length_insert.
Qed.

Lemma copy_loop_lookup (n to : nat) (l : Counters) (k : nat) :
  (to + 2 + n <= length l)%nat ->
  copy_loop n (S (S to)) to l !! k
  = if decide (to <= k < to + n)%nat then l !! (k + 2)%nat else l !! k.
Proof.
  revert to l. induction n as [|n IH]; intros to l Hlen; simpl.
  - case_decide; [lia | reflexivity].
  - rewrite IH by (rewrite length_insert; lia).
    destruct (l !! S (S to)) as [x|] eqn:Hx.
    2:{ apply lookup_ge_None in Hx. lia. }
    rewrite (at_lookup _ _ _ Hx).
    repeat case_decide; try lia.
    + rewrite list_lookup_insert_ne by lia. reflexivity.
    + assert (k = to) by lia. subst k.
      rewrite list_lookup_insert_eq by lia.
      replace (to + 2)%nat with (S (S to)) by lia. now rewrite Hx.
    + rewrite list_lookup_insert_ne by lia. reflexivity.
Qed.

Lemma shift_left_2_lookup (l : Counters) (k : nat) :
  (2 <= length l)%nat ->
  shift_left_2 l !! k
  = if decide (k < length l - 2)%nat then l !! (k + 2)%nat else l !! k.
Proof.
  intros Hlen. unfold shift_left_2.
  rewrite (copy_loop_lookup (length l - 2) 0 l k) by lia.
  repeat case_decide; try lia; reflexivity.
Qed.

Lemma shift_left_2_spec (l : Counters) :
  (2 <= length l)%nat ->
  shift_left_2 l = drop 2 l ++ drop (length l - 2) l.
Proof.
  intros Hlen. apply list_eq. intros k.
  rewrite shift_left_2_lookup by assumption.
  case_decide.
  - rewrite lookup_app_l by (rewrite length_drop; lia).
    rewrite lookup_drop. f_equal. lia.
  - rewrite lookup_app_r by (rewrite length_drop; lia).
    rewrite length_drop, lookup_drop.
    destruct (decide (k < length l)%nat).
    + f_equal. lia.
    + rewrite !lookup_ge_None_2 by lia. reflexivity.
Qed.

Example shift_left_2_ex : shift_left_2 [1; 2; 3; 4; 5] = [3; 4; 5; 4; 5].
Proof. reflexivity. Qed.

(** C4.  Whenever the match predicate rejects a full window of N counters,
    the next state of the scan has its window start advanced by
    [counters[0] + counters[1]], the entries [counters[2..N-1]] moved to
    [counters[0..N-3]], and [currentCounter] on slot N-2, so that the scan
    goes on by refilling the last two slots.  This holds for every state of
    the scan, hence for every rejection. *)
Theorem FindPattern_rejection_slides {It : Type} `{Iterator It}
    {CounterValue : CounterType}
    (row : Row) (end_ : It) (match_ : It -> It -> Counters -> bool)
    (s : ScanState It) :
  let i := getNextSetTo row (s_i s) end_ (negb (deref row (s_i s))) in
  let counters := <[s_cur s := static_cast_counter (diff i (s_li s))]> (s_counters s) in
  let N := length (s_counters s) in
  (2 <= N)%nat ->
  it_eqb i end_ = false ->
  S (s_cur s) = N ->
  match_ (s_begin s) i counters = false ->
  exists s' : ScanState It,
    FindPattern_step row end_ match_ s = Continue s'
    /\ s_begin s' = advance (s_begin s) (at_ counters 0 + at_ counters 1)
    /\ s_counters s' = drop 2 counters ++ drop (N - 2) counters
    /\ (forall k : nat, (k < N - 2)%nat -> s_counters s' !! k = counters !! (k + 2)%nat)
    /\ s_cur s' = (N - 2)%nat
    /\ s_li s' = i /\ s_i s' = i
    /\ (forall fuel : nat,
          FindPattern_loop (S fuel) row end_ match_ s
          = FindPattern_loop fuel row end_ match_ s').
Proof.
  intros i counters N HN Hend Hfull Hrej.
  assert (Hlen : length counters = N) by (unfold counters; apply length_insert).
  assert (Hstep : FindPattern_step row end_ match_ s
                  = Continue (mkScan (advance (s_begin s) (at_ counters 0 + at_ counters 1))
                                i i (N - 2) (shift_left_2 counters))).
  { unfold FindPattern_step. fold i. fold counters. rewrite Hend.
    rewrite Hlen, Hfull, Nat.eqb_refl, Hrej.
    reflexivity. }
  eexists. split; [exact Hstep|]. cbn [s_begin s_counters s_cur s_li s_i].
  repeat split.
  - rewrite <- Hlen. apply shift_left_2_spec. lia.
  - intros k Hk. rewrite shift_left_2_lookup by lia.
    case_decide; [reflexivity | lia].
  - intros fuel. cbn [FindPattern_loop]. now rewrite Hstep.
Qed.

Lemma FindPattern_rejection_slides_witness :
  exists s' : ScanState Z,
    FindPattern_step [true; false; false; true; true; true; false] 7
      (fun _ _ _ => false) (mkScan 0 3 3 2 [1; 2; 0]) = Continue s'
    /\ s_begin s' = 3
    /\ s_counters s' = [3; 2; 3]
    /\ s_cur s' = 1%nat.
Proof.
  destruct (FindPattern_rejection_slides
              [true; false; false; true; true; true; false] 7
              (fun _ _ _ => false) (mkScan 0 3 3 2 [1; 2; 0]))
    as (s' & Hstep & Hb & Hc & _ & Hcur & _); try reflexivity.
  - simpl. lia.
  - exists s'. repeat split; assumption.
Defined.

(* ===================================================================== *)
(** * Digit resolution                                                     *)
(* ===================================================================== *)

Lemma Qltb_lt (a b : Q) : Qltb a b = true <-> (a < b)%Q.
Proof.
  unfold Qltb. rewrite Qlt_alt. destruct (a ?= b)%Q; split; congruence.
Qed.

Lemma Qltb_ge (a b : Q) : Qltb a b = false <-> (b <= a)%Q.
Proof.
  destruct (Qltb a b) eqn:E.
  - apply Qltb_lt in E. split; [discriminate | lra].
  - split; [|reflexivity]. intros _.
    destruct (Qlt_le_dec a b) as [Hlt|Hle]; [|exact Hle].
    apply Qltb_lt in Hlt. congruence.
Qed.

Lemma Qeq_bool_false (a b : Q) : Qeq_bool a b = false <-> ~ (a == b)%Q.
Proof.
  rewrite <- Qeq_bool_iff. destruct (Qeq_bool a b); split; congruence.
Qed.

Lemma static_cast_int_small (z : Z) :
  0 <= z < 2 ^ 31 -> static_cast_int z = z.
Proof.
  intros Hz. unfold static_cast_int. rewrite Z.mod_small; lia.
Qed.

Section DecodeDigitFacts.
Variable PatternMatchVariance : Counters -> list Z -> Q -> Q.
Variable counters : Counters.
Variable maxIndividualVariance : Q.

Let score (pattern : list Z) : Q :=
  PatternMatchVariance counters pattern maxIndividualVariance.
Let step := DecodeDigit_step PatternMatchVariance counters maxIndividualVariance.
Let loop := DecodeDigit_loop PatternMatchVariance counters maxIndividualVariance.

Lemma loop_app req i ps qs st :
  loop req i (ps ++ qs) st = loop req (i + length ps) qs (loop req i ps st).
Proof.
  revert i st. induction ps as [|p ps IH]; intros i st; simpl.
  - now rewrite Nat.add_0_r.
  - unfold loop in *. simpl. rewrite IH. f_equal. lia.
Qed.

(** The three outcomes of one iteration. *)
Lemma step_cases req st i p :
  ((score p < bestVariance st)%Q
   /\ step req st i p = mkDigit (score p) (static_cast_int (Z.of_nat i)))
  \/ (req = true /\ (score p == bestVariance st)%Q
      /\ step req st i p = mkDigit (bestVariance st) INVALID_MATCH)
  \/ ((bestVariance st <= score p)%Q
      /\ (req = true -> ~ (score p == bestVariance st)%Q)
      /\ step req st i p = st).
Proof.
  unfold step, DecodeDigit_step. fold (score p).
  destruct (Qltb (score p) (bestVariance st)) eqn:Elt.
  - left. apply Qltb_lt in Elt. auto.
  - apply Qltb_ge in Elt. right.
    destruct req; simpl.
    + destruct (Qeq_bool (score p) (bestVariance st)) eqn:Eeq.
      * left. apply Qeq_bool_iff in Eeq. auto.
      * right. apply Qeq_bool_false in Eeq. auto.
    + right. repeat split; [assumption | discriminate].
Qed.

(** The best score never drops below a lower bound of the scores seen. *)
Lemma loop_best_gt req v i ps st :
  (forall p, p ∈ ps -> (v < score p)%Q) ->
  (v < bestVariance st)%Q ->
  (v < bestVariance (loop req i ps st))%Q.
Proof.
  revert i st. induction ps as [|p ps IH]; intros i st Hall Hst; [exact Hst|].
  unfold loop in *. simpl. apply IH.
  - intros q Hq. apply Hall. now apply elem_of_cons; right.
  - fold (step req st i p).
    destruct (step_cases req st i p) as [[_ ->] | [(_ & _ & ->) | (_ & _ & ->)]];
      simpl; try assumption.
    apply Hall. now apply elem_of_cons; left.
Qed.

Lemma loop_best_ge req v i ps st :
  (forall p, p ∈ ps -> (v <= score p)%Q) ->
  (v <= bestVariance st)%Q ->
  (v <= bestVariance (loop req i ps st))%Q.
Proof.
  revert i st. induction ps as [|p ps IH]; intros i st Hall Hst; [exact Hst|].
  unfold loop in *. simpl. apply IH.
  - intros q Hq. apply Hall. now apply elem_of_cons; right.
  - fold (step req st i p).
    destruct (step_cases req st i p) as [[_ ->] | [(_ & _ & ->) | (_ & _ & ->)]];
      simpl; try assumption.
    apply Hall. now apply elem_of_cons; left.
Qed.

(** Scores strictly above the best one change nothing. *)
Lemma loop_stable_gt req i ps st :
  (forall p, p ∈ ps -> (bestVariance st < score p)%Q) ->
  loop req i ps st = st.
Proof.
  revert i st. induction ps as [|p ps IH]; intros i st Hall; [reflexivity|].
  assert (Hp : (bestVariance st < score p)%Q) by (apply Hall; now apply elem_of_cons; left).
  unfold loop in *. simpl. fold (step req st i p).
  destruct (step_cases req st i p) as [[Hlt _] | [(_ & Heq & _) | (_ & _ & Hs)]];
    [lra | lra |].
  rewrite Hs. apply IH. intros q Hq. apply Hall. now apply elem_of_cons; right.
Qed.

(** Without the ambiguity check, scores not below the best one change
    nothing. *)
Lemma loop_stable_ge i ps st :
  (forall p, p ∈ ps -> (bestVariance st <= score p)%Q) ->
  loop false i ps st = st.
Proof.
  revert i st. induction ps as [|p ps IH]; intros i st Hall; [reflexivity|].
  assert (Hp : (bestVariance st <= score p)%Q) by (apply Hall; now apply elem_of_cons; left).
  unfold loop in *. simpl. fold (step false st i p).
  destruct (step_cases false st i p) as [[Hlt _] | [(Hr & _) | (_ & _ & Hs)]];
    [lra | discriminate |].
  rewrite Hs. apply IH. intros q Hq. apply Hall. now apply elem_of_cons; right.
Qed.

(** Once the match is invalid, scores not below the best one keep it so. *)
Lemma loop_invalid_stays i ps st :
  bestMatch st = INVALID_MATCH ->
  (forall p, p ∈ ps -> (bestVariance st <= score p)%Q) ->
  loop true i ps st = st.
Proof.
  revert i st. induction ps as [|p ps IH]; intros i st Hinv Hall; [reflexivity|].
  assert (Hp : (bestVariance st <= score p)%Q) by (apply Hall; now apply elem_of_cons; left).
  assert (Hstep : step true st i p = st).
  { destruct (step_cases true st i p) as [[Hlt _] | [(_ & _ & Hs) | (_ & _ & Hs)]];
      [lra | | exact Hs].
    rewrite Hs. destruct st as [b m]. simpl in *. now subst m. }
  unfold loop in *. simpl. fold (step true st i p). rewrite Hstep.
  apply IH; [assumption|]. intros q Hq. apply Hall. now apply elem_of_cons; right.
Qed.

(** A later candidate that ties the best score invalidates the match. *)
Lemma loop_tie_invalidates i ps st q :
  q ∈ ps ->
  (score q == bestVariance st)%Q ->
  (forall p, p ∈ ps -> (bestVariance st <= score p)%Q) ->
  bestMatch (loop true i ps st) = INVALID_MATCH.
Proof.
  revert i st. induction ps as [|p ps IH]; intros i st Hq Htie Hall.
  - now apply elem_of_nil in Hq.
  - assert (Hp : (bestVariance st <= score p)%Q) by (apply Hall; now apply elem_of_cons; left).
    assert (Hrest : forall p', p' ∈ ps -> (bestVariance st <= score p')%Q)
      by (intros p' Hp'; apply Hall; now apply elem_of_cons; right).
    unfold loop in *. simpl. fold (step true st i p).
    destruct (step_cases true st i p) as [[Hlt _] | [(_ & Heq & Hs) | (_ & Hne & Hs)]];
      [lra | |].
    + rewrite Hs.
      change (bestMatch (loop true (S i) ps (mkDigit (bestVariance st) INVALID_MATCH))
              = INVALID_MATCH).
      rewrite loop_invalid_stays; [reflexivity | reflexivity | exact Hrest].
    + rewrite Hs. apply elem_of_cons in Hq as [-> | Hq].
      * exfalso. now apply Hne.
      * now apply IH.
Qed.

(** With the ambiguity check off, an invalid result means that the initial
    match was invalid and that no score was below the initial bound. *)
Lemma loop_invalid_inv i ps st :
  (Z.of_nat (i + length ps) <= 2 ^ 31) ->
  bestMatch (loop false i ps st) = INVALID_MATCH ->
  bestMatch st = INVALID_MATCH
  /\ forall p, p ∈ ps -> (bestVariance st <= score p)%Q.
Proof.
  revert i st. induction ps as [|p ps IH]; intros i st Hlen Hres.
  - split; [exact Hres|]. intros p Hp. now apply elem_of_nil in Hp.
  - unfold loop in *. simpl in *. fold (step false st i p) in Hres.
    apply IH in Hres; [|lia]. destruct Hres as [Hm Hall].
    destruct (step_cases false st i p) as [[Hlt Hs] | [(Hr & _) | (Hge & _ & Hs)]];
      [| discriminate |].
    + rewrite Hs in Hm. simpl in Hm.
      rewrite static_cast_int_small in Hm by lia. unfold INVALID_MATCH in Hm. lia.
    + rewrite Hs in Hm, Hall. split; [exact Hm|].
      intros q Hq. apply elem_of_cons in Hq as [-> | Hq]; auto.
Qed.

End DecodeDigitFacts.

Lemma DecodeDigit_tie_ordered (pmv : Counters -> list Z -> Q -> Q)
    (counters : Counters) (patterns : list (list Z)) (maxAvg maxInd : Q)
    (a b : nat) (pa pb : list Z) :
  (a < b)%nat ->
  patterns !! a = Some pa ->
  patterns !! b = Some pb ->
  (pmv counters pa maxInd == pmv counters pb maxInd)%Q ->
  (pmv counters pa maxInd < maxAvg)%Q ->
  (forall p, p ∈ patterns -> (pmv counters pa maxInd <= pmv counters p maxInd)%Q) ->
  DecodeDigit pmv counters patterns maxAvg maxInd true = INVALID_MATCH.
Proof.
  intros Hab Ha Hb Htie Hlt Hmin.
  unfold DecodeDigit.
  rewrite <- (take_drop_middle patterns a pa Ha).
  rewrite loop_app. cbn [DecodeDigit_loop].
  set (st0 := mkDigit maxAvg INVALID_MATCH).
  set (st1 := DecodeDigit_loop pmv counters maxInd true 0 (take a patterns) st0).
  assert (Hpre : forall p, p ∈ take a patterns -> p ∈ patterns).
  { intros p Hp. rewrite <- (take_drop a patterns). apply elem_of_app. now left. }
  assert (Hpost : forall p, p ∈ drop (S a) patterns -> p ∈ patterns).
  { intros p Hp. rewrite <- (take_drop (S a) patterns). apply elem_of_app. now right. }
  assert (H1 : (pmv counters pa maxInd <= bestVariance st1)%Q).
  { apply loop_best_ge; [|simpl; lra]. intros p Hp. apply Hmin, Hpre, Hp. }
  set (i := (0 + length (take a patterns))%nat).
  set (st2 := DecodeDigit_step pmv counters maxInd true st1 i pa).
  assert (H2 : (bestVariance st2 == pmv counters pa maxInd)%Q).
  { destruct (step_cases pmv counters maxInd true st1 i pa)
      as [[_ Hs] | [(_ & Heq & Hs) | (Hge & Hne & _)]].
    - fold st2 in Hs. rewrite Hs. reflexivity.
    - fold st2 in Hs. rewrite Hs. simpl. symmetry. exact Heq.
    - exfalso. apply (Hne eq_refl). lra. }
  apply (loop_tie_invalidates pmv counters maxInd (S i) _ st2 pb).
  - apply (list_elem_of_lookup_2 _ (b - S a)).
    rewrite lookup_drop. rewrite <- Hb. f_equal. lia.
  - lra.
  - intros p Hp. rewrite H2. apply Hmin, Hpost, Hp.
Qed.

(** C1.  With [requireUnambiguousMatch = true], DecodeDigit returns "no
    match" (-1) whenever two patterns produce the same minimal score below
    [maxAvgVariance]; it returns the index of the pattern with the unique
    minimal score when that score is strictly below [maxAvgVariance]; and
    in every iteration a strictly better score replaces the best match,
    whatever it was (an invalidated one included). *)
Theorem DecodeDigit_unambiguous (pmv : Counters -> list Z -> Q -> Q)
    (counters : Counters) (patterns : list (list Z)) (maxAvg maxInd : Q) :
  Z.of_nat (length patterns) <= 2 ^ 31 ->
  (forall (a b : nat) (pa pb : list Z),
      a <> b ->
      patterns !! a = Some pa ->
      patterns !! b = Some pb ->
      (pmv counters pa maxInd == pmv counters pb maxInd)%Q ->
      (pmv counters pa maxInd < maxAvg)%Q ->
      (forall p, p ∈ patterns -> (pmv counters pa maxInd <= pmv counters p maxInd)%Q) ->
      DecodeDigit pmv counters patterns maxAvg maxInd true = -1)
  /\ (forall (a : nat) (pa : list Z),
        patterns !! a = Some pa ->
        (pmv counters pa maxInd < maxAvg)%Q ->
        (forall (j : nat) (pj : list Z),
            j <> a -> patterns !! j = Some pj ->
            (pmv counters pa maxInd < pmv counters pj maxInd)%Q) ->
        DecodeDigit pmv counters patterns maxAvg maxInd true = Z.of_nat a)
  /\ (forall (st : DigitState) (i : nat) (p : list Z),
        (pmv counters p maxInd < bestVariance st)%Q ->
        DecodeDigit_step pmv counters maxInd true st i p
        = mkDigit (pmv counters p maxInd) (static_cast_int (Z.of_nat i))).
Proof.
  intros Hlen. split; [|split].
  - intros a b pa pb Hab Ha Hb Htie Hlt Hmin.
    destruct (Nat.lt_total a b) as [Hlt' | [Heq | Hgt]]; [| contradiction |].
    + now apply (DecodeDigit_tie_ordered pmv counters patterns maxAvg maxInd a b pa pb).
    + apply (DecodeDigit_tie_ordered pmv counters patterns maxAvg maxInd b a pb pa);
        try assumption.
      * symmetry. exact Htie.
      * lra.
      * intros p Hp. rewrite <- Htie. now apply Hmin.
  - intros a pa Ha Hlt Huniq.
    unfold DecodeDigit.
    rewrite <- (take_drop_middle patterns a pa Ha).
    rewrite loop_app. cbn [DecodeDigit_loop].
    set (st0 := mkDigit maxAvg INVALID_MATCH).
    set (st1 := DecodeDigit_loop pmv counters maxInd true 0 (take a patterns) st0).
    assert (Hla : (a < length patterns)%nat) by (eapply lookup_lt_Some; exact Ha).
    assert (H1 : (pmv counters pa maxInd < bestVariance st1)%Q).
    { apply loop_best_gt; [|simpl; lra].
      intros p Hp. apply list_elem_of_lookup_1 in Hp as [j Hj].
      assert (Hja : (j < a)%nat).
      { apply lookup_lt_Some in Hj. rewrite length_take in Hj. lia. }
      rewrite lookup_take_lt in Hj by lia.
      apply (Huniq j p); [lia | exact Hj]. }
    rewrite length_take_le by lia. cbn [Nat.add].
    destruct (step_cases pmv counters maxInd true st1 a pa)
      as [[_ Hs] | [(_ & Heq & _) | (Hge & _ & _)]]; [| lra | lra].
    rewrite Hs. rewrite loop_stable_gt.
    + simpl. apply static_cast_int_small. lia.
    + intros p Hp. simpl. apply list_elem_of_lookup_1 in Hp as [j Hj].
      rewrite lookup_drop in Hj. apply (Huniq (S a + j)%nat p); [lia | exact Hj].
  - intros st i p Hlt.
    destruct (step_cases pmv counters maxInd true st i p)
      as [[_ Hs] | [(_ & Heq & _) | (Hge & _ & _)]]; [exact Hs | lra | lra].
Qed.

Example DecodeDigit_ex_patterns :
  DecodeDigit FitScoring.PatternMatchVariance [2; 2; 4]
    [[1; 1; 1]; [1; 1; 2]; [2; 1; 1]] (1 # 2) (7 # 10) true = 1.
Proof. vm_compute. reflexivity. Qed.

Lemma DecodeDigit_unambiguous_witness :
  DecodeDigit FitScoring.PatternMatchVariance [2; 2; 4]
    [[1; 1; 2]; [2; 1; 1]; [1; 1; 2]] (1 # 2) (7 # 10) true = -1
  /\ DecodeDigit FitScoring.PatternMatchVariance [2; 2; 4]
       [[1; 1; 1]; [1; 1; 2]; [2; 1; 1]] (1 # 2) (7 # 10) true = 1
  /\ DecodeDigit_step FitScoring.PatternMatchVariance [2; 2; 4] (7 # 10) true
       (mkDigit (1 # 3) INVALID_MATCH) 1 [1; 1; 2]
     = mkDigit (FitScoring.PatternMatchVariance [2; 2; 4] [1; 1; 2] (7 # 10)) 1.
Proof.
  split; [|split].
  - apply (proj1 (DecodeDigit_unambiguous FitScoring.PatternMatchVariance [2; 2; 4]
                    [[1; 1; 2]; [2; 1; 1]; [1; 1; 2]] (1 # 2) (7 # 10) ltac:(simpl; lia))
             0%nat 2%nat [1; 1; 2] [1; 1; 2]).
    + lia.
    + reflexivity.
    + reflexivity.
    + reflexivity.
    + vm_compute. reflexivity.
    + intros p Hp.
      repeat (apply elem_of_cons in Hp as [-> | Hp]); try (vm_compute; discriminate).
      now apply elem_of_nil in Hp.
  - apply (proj1 (proj2 (DecodeDigit_unambiguous FitScoring.PatternMatchVariance [2; 2; 4]
                    [[1; 1; 1]; [1; 1; 2]; [2; 1; 1]] (1 # 2) (7 # 10) ltac:(simpl; lia)))
             1%nat [1; 1; 2]).
    + reflexivity.
    + vm_compute. reflexivity.
    + intros j pj Hj Hpj.
      destruct j as [|[|[|j]]]; simpl in Hpj; try congruence.
      * injection Hpj as <-. vm_compute. reflexivity.
      * injection Hpj as <-. vm_compute. reflexivity.
      * rewrite lookup_nil in Hpj. discriminate Hpj.
  - apply (proj2 (proj2 (DecodeDigit_unambiguous FitScoring.PatternMatchVariance [2; 2; 4]
                    [[1; 1; 1]; [1; 1; 2]; [2; 1; 1]] (1 # 2) (7 # 10) ltac:(simpl; lia)))).
    vm_compute. reflexivity.
Defined.

(** C10.  With [requireUnambiguousMatch = false], DecodeDigit returns the
    smallest index among the patterns attaining the minimal score, when that
    score is strictly below [maxAvgVariance] (later ties change nothing),
    and it returns -1 exactly when no pattern scores strictly below
    [maxAvgVariance]. *)
Theorem DecodeDigit_first_best (pmv : Counters -> list Z -> Q -> Q)
    (counters : Counters) (patterns : list (list Z)) (maxAvg maxInd : Q) :
  Z.of_nat (length patterns) <= 2 ^ 31 ->
  (forall (a : nat) (pa : list Z),
      patterns !! a = Some pa ->
      (pmv counters pa maxInd < maxAvg)%Q ->
      (forall p, p ∈ patterns -> (pmv counters pa maxInd <= pmv counters p maxInd)%Q) ->
      (forall (j : nat) (pj : list Z),
          (j < a)%nat -> patterns !! j = Some pj ->
          ~ (pmv counters pj maxInd == pmv counters pa maxInd)%Q) ->
      DecodeDigit pmv counters patterns maxAvg maxInd false = Z.of_nat a)
  /\ (DecodeDigit pmv counters patterns maxAvg maxInd false = -1
      <-> forall p, p ∈ patterns -> ~ (pmv counters p maxInd < maxAvg)%Q).
Proof.
  intros Hlen. split.
  - intros a pa Ha Hlt Hmin Hfirst.
    unfold DecodeDigit.
    assert (Hla : (a < length patterns)%nat) by (eapply lookup_lt_Some; exact Ha).
    assert (Hpost : forall p, p ∈ drop (S a) patterns -> p ∈ patterns).
    { intros p Hp. rewrite <- (take_drop (S a) patterns). apply elem_of_app. now right. }
    rewrite <- (take_drop_middle patterns a pa Ha) at 1.
    rewrite loop_app. cbn [DecodeDigit_loop].
    set (st0 := mkDigit maxAvg INVALID_MATCH).
    set (st1 := DecodeDigit_loop pmv counters maxInd false 0 (take a patterns) st0).
    assert (H1 : (pmv counters pa maxInd < bestVariance st1)%Q).
    { apply loop_best_gt; [|simpl; lra].
      intros p Hp. apply list_elem_of_lookup_1 in Hp as [j Hj].
      assert (Hja : (j < a)%nat).
      { apply lookup_lt_Some in Hj. rewrite length_take in Hj. lia. }
      rewrite lookup_take_lt in Hj by lia.
      assert (Hge : (pmv counters pa maxInd <= pmv counters p maxInd)%Q)
        by (apply Hmin; eapply list_elem_of_lookup_2; exact Hj).
      assert (Hne := Hfirst j p Hja Hj).
      destruct (Qlt_le_dec (pmv counters pa maxInd) (pmv counters p maxInd))
        as [Hlt' | Hle]; [exact Hlt'|].
      exfalso. apply Hne. lra. }
    rewrite length_take_le by lia. cbn [Nat.add].
    destruct (step_cases pmv counters maxInd false st1 a pa)
      as [[_ Hs] | [(Hr & _) | (Hge & _ & _)]]; [| discriminate | lra].
    rewrite Hs. rewrite loop_stable_ge.
    + simpl. apply static_cast_int_small. lia.
    + intros p Hp. simpl. apply Hmin, Hpost, Hp.
  - unfold DecodeDigit. split.
    + intros Hres p Hp.
      apply loop_invalid_inv in Hres; [|simpl; lia].
      destruct Hres as [_ Hall]. specialize (Hall p Hp). simpl in Hall. lra.
    + intros Hall. rewrite loop_stable_ge; [reflexivity|].
      intros p Hp. simpl. specialize (Hall p Hp).
      destruct (Qlt_le_dec (pmv counters p maxInd) maxAvg); [contradiction | assumption].
Qed.

Lemma DecodeDigit_first_best_witness :
  DecodeDigit FitScoring.PatternMatchVariance [2; 2; 4]
    [[2; 1; 1]; [1; 1; 2]; [1; 1; 1]; [1; 1; 2]] (1 # 2) (7 # 10) false = 1
  /\ (DecodeDigit FitScoring.PatternMatchVariance [2; 2; 4]
        [[2; 1; 1]; [1; 1; 2]; [1; 1; 1]; [1; 1; 2]] (1 # 2) (7 # 10) false = -1
      <-> forall p, p ∈ [[2; 1; 1]; [1; 1; 2]; [1; 1; 1]; [1; 1; 2]] ->
            ~ Qlt (FitScoring.PatternMatchVariance [2; 2; 4] p (7 # 10)) (1 # 2)).
Proof.
  destruct (DecodeDigit_first_best FitScoring.PatternMatchVariance [2; 2; 4]
              [[2; 1; 1]; [1; 1; 2]; [1; 1; 1]; [1; 1; 2]] (1 # 2) (7 # 10)
              ltac:(simpl; lia)) as [Hfirst Hnone].
  split; [|exact Hnone].
  apply (Hfirst 1%nat [1; 1; 2]).
  - reflexivity.
  - vm_compute. reflexivity.
  - intros p Hp.
    repeat (apply elem_of_cons in Hp as [-> | Hp]); try (vm_compute; discriminate).
    now apply elem_of_nil in Hp.
  - intros j pj Hj Hpj.
    destruct j as [|j]; [|lia].
    simpl in Hpj. injection Hpj as <-. vm_compute. discriminate.
Defined.

(* ===================================================================== *)
(** * Run extraction                                                       *)
(* ===================================================================== *)

Lemma sumZ_app (l1 l2 : list Z) : sumZ (l1 ++ l2) = sumZ l1 + sumZ l2.
Proof. unfold sumZ. induction l1 as [|x l1 IH]; simpl; lia. Qed.

Lemma fill_nil_r (slots : Counters) : fill slots [] = slots.
Proof. unfold fill. now rewrite take_nil. Qed.

Lemma fill_cons (r0 x : Z) (slots rs : list Z) :
  fill (r0 :: slots) (x :: rs) = x :: fill slots rs.
Proof. reflexivity. Qed.

Lemma fill_length (slots rs : list Z) : length (fill slots rs) = length slots.
Proof.
  unfold fill. rewrite length_app, length_take, length_drop. lia.
Qed.

(** *** Run widths *)

Lemma runs_from_pos (cur : bool) (w : Z) (l : list bool) :
  0 < w -> Forall (fun x => 0 < x) (runs_from cur w l).
Proof.
  revert cur w. induction l as [|b l IH]; intros cur w Hw; simpl.
  - constructor; [exact Hw | constructor].
  - destruct (eqb b cur).
    + apply IH. lia.
    + constructor; [exact Hw | apply IH; lia].
Qed.

Lemma runs_pos (l : list bool) : Forall (fun x => 0 < x) (runs l).
Proof. destruct l; simpl; [constructor | apply runs_from_pos; lia]. Qed.

Lemma runs_from_sum (cur : bool) (w : Z) (l : list bool) :
  sumZ (runs_from cur w l) = w + Z.of_nat (length l).
Proof.
  revert cur w. induction l as [|b l IH]; intros cur w; simpl.
  - unfold sumZ. simpl. lia.
  - destruct (eqb b cur).
    + rewrite IH. lia.
    + change (sumZ (w :: runs_from b 1 l)) with (w + sumZ (runs_from b 1 l)).
      rewrite IH. lia.
Qed.

(** The widths of the runs add up to the number of pixels. *)
Lemma runs_sum (l : list bool) : sumZ (runs l) = Z.of_nat (length l).
Proof. destruct l; simpl; [reflexivity | rewrite runs_from_sum; lia]. Qed.

Lemma runs_from_nonempty (cur : bool) (w : Z) (l : list bool) :
  (0 < length (runs_from cur w l))%nat.
Proof.
  revert cur w. induction l as [|b l IH]; intros cur w; simpl; [lia|].
  destruct (eqb b cur); [apply IH | simpl; lia].
Qed.

Lemma runs_nonempty (l : list bool) : l <> [] -> (0 < length (runs l))%nat.
Proof. destruct l; [congruence | intros _; apply runs_from_nonempty]. Qed.

Lemma sumZ_pos (l : list Z) :
  Forall (fun x => 0 < x) l -> 0 <= sumZ l /\ (l <> [] -> 0 < sumZ l).
Proof.
  induction 1 as [|y d Hy Hd [IH _]].
  - split; [reflexivity | congruence].
  - change (sumZ (y :: d)) with (y + sumZ d). split; intros; lia.
Qed.

Lemma sumZ_nonneg (l : list Z) : Forall (fun x => 0 <= x) l -> 0 <= sumZ l.
Proof.
  induction 1 as [|y d Hy Hd IH]; [reflexivity|].
  change (sumZ (y :: d)) with (y + sumZ d). lia.
Qed.

(** A proper prefix of positive widths sums to less than the whole. *)
Lemma sumZ_take_lt (n : nat) (rs : list Z) :
  Forall (fun x => 0 < x) rs -> (n < length rs)%nat ->
  sumZ (take n rs) < sumZ rs.
Proof.
  intros Hpos Hn. rewrite <- (take_drop n rs) at 2. rewrite sumZ_app.
  assert (Hd : 0 < sumZ (drop n rs)).
  { apply sumZ_pos; [now apply Forall_drop|].
    intros Hnil. apply (f_equal length) in Hnil.
    rewrite length_drop in Hnil. simpl in Hnil. lia. }
  lia.
Qed.

(** *** Position ranges of a row *)

Lemma pixel_lookup (row : Row) (p : Z) (b : bool) :
  0 <= p -> row !! Z.to_nat p = Some b -> pixel row p = b.
Proof.
  intros Hp Hb. unfold pixel.
  destruct (p <? 0) eqn:E; [apply Z.ltb_lt in E; lia|].
  rewrite nth_lookup, Hb. reflexivity.
Qed.

Lemma slice_length (row : Row) (i e : Z) :
  0 <= i <= e -> e <= Z.of_nat (length row) ->
  Z.of_nat (length (slice row i e)) = e - i.
Proof.
  intros Hi He. unfold slice. rewrite length_take, length_drop. lia.
Qed.

Lemma slice_empty (row : Row) (e : Z) : slice row e e = [].
Proof. unfold slice. now rewrite Z.sub_diag. Qed.

Lemma slice_cons (row : Row) (i e : Z) :
  0 <= i < e -> e <= Z.of_nat (length row) ->
  slice row i e = pixel row i :: slice row (i + 1) e.
Proof.
  intros Hi He. unfold slice.
  destruct (row !! Z.to_nat i) as [b|] eqn:Hb.
  2:{ apply lookup_ge_None in Hb. lia. }
  rewrite (pixel_lookup row i b) by (assumption || lia).
  rewrite (drop_S row b (Z.to_nat i) Hb).
  replace (Z.to_nat (e - i)) with (S (Z.to_nat (e - (i + 1)))) by lia.
  replace (Z.to_nat (i + 1)) with (S (Z.to_nat i)) by lia.
  reflexivity.
Qed.

(** [getNextSetTo] ends the run it starts in: scanning on from [i] inside a
    run of colour [cur] that is already [w] wide. *)
Lemma runs_from_scan (row : Row) (e : Z) (cur : bool) (n : nat) (i w : Z) :
  0 <= i -> i + Z.of_nat n = e -> e <= Z.of_nat (length row) ->
  let j := getNextSetTo_loop n row i (negb cur) in
  i <= j <= e
  /\ runs_from cur w (slice row i e)
     = (w + (j - i)) :: (if j =? e then [] else runs (slice row j e)).
Proof.
  revert i w. induction n as [|n IH]; intros i w Hi Hn He; cbn zeta.
  - assert (i = e) by lia. subst i. cbn [getNextSetTo_loop].
    rewrite slice_empty, Z.eqb_refl. cbn [runs_from].
    split; [lia | f_equal; lia].
  - cbn [getNextSetTo_loop deref ForwardIterator incr].
    rewrite (slice_cons row i e) by lia. cbn [runs_from].
    destruct (pixel row i) eqn:Hb, cur; cbn [eqb negb] in *.
    + destruct (IH (Z.succ i) (w + 1)) as [Hj Hr]; [lia | lia | lia |].
      replace (i + 1) with (Z.succ i) by lia.
      split; [lia|]. rewrite Hr. f_equal. lia.
    + replace (i =? e) with false by (symmetry; apply Z.eqb_neq; lia).
      rewrite (slice_cons row i e) by lia. rewrite Hb. cbn [runs].
      split; [lia | f_equal; lia].
    + replace (i =? e) with false by (symmetry; apply Z.eqb_neq; lia).
      rewrite (slice_cons row i e) by lia. rewrite Hb. cbn [runs].
      split; [lia | f_equal; lia].
    + destruct (IH (Z.succ i) (w + 1)) as [Hj Hr]; [lia | lia | lia |].
      replace (i + 1) with (Z.succ i) by lia.
      split; [lia|]. rewrite Hr. f_equal. lia.
Qed.

(** One call of [getNextSetTo] from the head of a non-empty range returns
    the end of its first run. *)
Lemma runs_step (row : Row) (i e : Z) :
  0 <= i < e -> e <= Z.of_nat (length row) ->
  let i' := getNextSetTo row i e (negb (deref row i)) in
  i < i' <= e
  /\ runs (slice row i e)
     = (i' - i) :: (if i' =? e then [] else runs (slice row i' e)).
Proof.
  intros Hi He. cbn zeta. unfold getNextSetTo.
  cbn [deref diff ForwardIterator].
  replace (Z.to_nat (e - i)) with (S (Z.to_nat (e - (i + 1)))) by lia.
  cbn [getNextSetTo_loop deref incr ForwardIterator].
  rewrite eqb_negb2.
  rewrite (slice_cons row i e) by lia. cbn [runs].
  replace (i + 1) with (Z.succ i) by lia.
  destruct (runs_from_scan row e (pixel row i) (Z.to_nat (e - Z.succ i)) (Z.succ i) 1)
    as [Hj Hr]; [lia | lia | lia |].
  split; [lia|]. rewrite Hr. f_equal. lia.
Qed.

(** *** The scan of RecordPattern on plain iterators *)

Lemma insert_middle (done rest : Counters) (r0 x : Z) :
  <[length done := x]> (done ++ r0 :: rest) = done ++ x :: rest.
Proof. induction done as [|d done IH]; simpl; [reflexivity | now rewrite IH]. Qed.

(** *** The counter type *)

(** A width the counter type can hold is stored unchanged. *)
Lemma static_cast_counter_exact {CounterValue : CounterType} (z : Z) :
  0 <= z <= counter_max -> static_cast_counter z = z.
Proof.
  unfold counter_max, static_cast_counter. destruct counter_signed; intros Hz.
  - destruct (Z.le_gt_cases counter_bits 0) as [Hb | Hb].
    + rewrite (Z.pow_neg_r 2 (counter_bits - 1)) in Hz by lia. lia.
    + assert (Hpow : 2 ^ counter_bits = 2 * 2 ^ (counter_bits - 1)).
      { replace counter_bits with (Z.succ (counter_bits - 1)) at 1 by lia.
        apply Z.pow_succ_r. lia. }
      rewrite Z.mod_small; lia.
  - apply Z.mod_small. lia.
Qed.

(** Positive widths whose sum the counter type can hold are all stored
    unchanged. *)
Lemma map_static_cast_exact {CounterValue : CounterType} (rs : list Z) :
  Forall (fun x => 0 < x) rs -> sumZ rs <= counter_max ->
  map static_cast_counter rs = rs.
Proof.
  induction rs as [|x rs IH]; intros Hpos Hsum; [reflexivity|].
  apply Forall_cons in Hpos as [Hx Hpos].
  change (sumZ (x :: rs)) with (x + sumZ rs) in Hsum.
  assert (H0 : 0 <= sumZ rs).
  { apply sumZ_nonneg. eapply Forall_impl; [exact Hpos|]. intros y Hy. simpl in Hy. lia. }
  cbn [map]. rewrite static_cast_counter_exact by lia.
  f_equal. apply IH; [assumption | lia].
Qed.

(** As long as the predicate accepts the first full window (if the scan
    gets that far), the scan stores the run widths of the rest of the range
    into the free slots [rest], each through the cast, and stops at the
    first boundary after the last slot is written.  With no more runs than
    free slots the predicate is never evaluated. *)
Lemma FindPattern_loop_runs {CounterValue : CounterType} (row : Row) (e : Z)
    (match_ : Z -> Z -> Counters -> bool) (fuel : nat) :
  forall (begin i : Z) (done rest : Counters),
    0 <= i < e -> e <= Z.of_nat (length row) -> rest <> [] ->
    (Z.to_nat (e - i) <= fuel)%nat ->
    ((length rest < length (runs (slice row i e)))%nat ->
     forall a b c, match_ a b c = true) ->
    FindPattern_loop fuel row e match_
      (mkScan begin i i (length done) (done ++ rest))
    = Some (if (length rest <? length (runs (slice row i e)))%nat
            then mkRange begin (i + sumZ (take (length rest) (runs (slice row i e))))
            else NotFound e,
            done ++ fill rest (map static_cast_counter (runs (slice row i e)))).
Proof.
  induction fuel as [|fuel IH]; intros begin i done rest Hi He Hrest Hfuel Hm; [lia|].
  destruct rest as [|r0 rest]; [congruence|]. clear Hrest.
  destruct (runs_step row i e Hi He) as [Hi' Hruns]. cbn zeta in Hi', Hruns.
  cbn [FindPattern_loop]. unfold FindPattern_step.
  cbn [s_begin s_li s_i s_cur s_counters].
  set (i' := getNextSetTo row i e (negb (deref row i))) in *.
  cbn [diff it_eqb ForwardIterator].
  rewrite insert_middle. rewrite Hruns in Hm |- *. cbn [map]. rewrite fill_cons.
  destruct (i' =? e) eqn:Hend.
  - cbn [map]. rewrite fill_nil_r. reflexivity.
  - apply Z.eqb_neq in Hend.
    assert (Hne : (0 < length (runs (slice row i' e)))%nat).
    { apply runs_nonempty. intros Hnil. apply (f_equal length) in Hnil.
      assert (Hl := slice_length row i' e ltac:(lia) He).
      rewrite Hnil in Hl. simpl in Hl. lia. }
    destruct rest as [|r1 rest].
    + rewrite length_app. cbn [length].
      replace (S (length done) =? length done + 1)%nat with true
        by (symmetry; apply Nat.eqb_eq; lia).
      rewrite Hm by (cbn [length]; lia).
      replace (1 <? S (length (runs (slice row i' e))))%nat with true
        by (symmetry; apply Nat.ltb_lt; lia).
      f_equal. f_equal.
      * f_equal. cbn [take]. unfold sumZ. simpl. lia.
      * unfold fill. cbn [length take]. now rewrite drop_nil.
    + rewrite length_app. cbn [length].
      replace (S (length done) =? length done + S (S (length rest)))%nat with false
        by (symmetry; apply Nat.eqb_neq; lia).
      replace (done ++ static_cast_counter (i' - i) :: r1 :: rest)
        with ((done ++ [static_cast_counter (i' - i)]) ++ r1 :: rest)
        by (now rewrite <- app_assoc).
      replace (S (length done)) with (length (done ++ [static_cast_counter (i' - i)]))
        by (rewrite length_app; simpl; lia).
      rewrite IH; [| lia | assumption | congruence | lia |].
      * cbn [length]. rewrite <- app_assoc. cbn [app].
        f_equal. f_equal.
        destruct (runs (slice row i' e)) as [|y rs'] eqn:Hrs'; [simpl in Hne; lia|].
        change (S (S (length rest)) <? S (length (y :: rs')))%nat
          with (S (length rest) <? length (y :: rs'))%nat.
        destruct (S (length rest) <? length (y :: rs'))%nat; [|reflexivity].
        f_equal. change (take (S (S (length rest))) ((i' - i) :: y :: rs'))
          with ((i' - i) :: take (S (length rest)) (y :: rs')).
        change (sumZ ((i' - i) :: take (S (length rest)) (y :: rs')))
          with ((i' - i) + sumZ (take (S (length rest)) (y :: rs'))).
        lia.
      * intros Hlt. apply Hm. cbn [length] in Hlt |- *. lia.
Qed.

Lemma set_back_length (counters : Counters) (v : Z) :
  length (set_back counters v) = length counters.
Proof. apply length_insert. Qed.

Lemma back_set_back (counters : Counters) (v : Z) :
  counters <> [] -> back (set_back counters v) = v.
Proof.
  intros Hne. unfold back. rewrite set_back_length. unfold set_back, at_.
  rewrite list_lookup_insert_eq; [reflexivity|].
  destruct counters; [congruence | simpl; lia].
Qed.

(** With fewer widths than slots, the last slot is not written. *)
Lemma back_fill_short (slots rs : list Z) :
  (length rs < length slots)%nat -> back (fill slots rs) = back slots.
Proof.
  intros Hlt. unfold back. rewrite fill_length. unfold fill, at_.
  rewrite lookup_app_r by (rewrite length_take; lia).
  rewrite length_take, lookup_drop. do 2 f_equal. lia.
Qed.

(** With at least as many widths as slots, the last slot holds a width. *)
Lemma back_fill_full (slots rs : list Z) :
  slots <> [] -> (length slots <= length rs)%nat ->
  Forall (fun x => 0 < x) rs ->
  0 < back (fill slots rs).
Proof.
  intros Hne Hle Hpos. unfold back. rewrite fill_length. unfold fill, at_.
  assert (0 < length slots)%nat by (destruct slots; [congruence | simpl; lia]).
  rewrite lookup_app_l by (rewrite length_take; lia).
  rewrite lookup_take_lt by lia.
  destruct (rs !! pred (length slots)) as [x|] eqn:Hx.
  - simpl. rewrite Forall_lookup in Hpos. exact (Hpos _ _ Hx).
  - apply lookup_ge_None in Hx. lia.
Qed.

Lemma fill_full_sum (slots rs : list Z) :
  (length slots <= length rs)%nat ->
  sumZ (fill slots rs) = sumZ (take (length slots) rs).
Proof.
  intros Hle. unfold fill. rewrite drop_ge by lia. now rewrite app_nil_r.
Qed.

Lemma back_fill_map_short {CounterValue : CounterType} (slots rs : list Z) :
  (length rs < length slots)%nat ->
  back (fill slots (map static_cast_counter rs)) = back slots.
Proof. intros Hlt. apply back_fill_short. now rewrite length_map. Qed.

(** What RecordPattern returns on a valid position range, for every
    counter type, in terms of the run widths [rs] of the range and the
    number N of counters.  The counters are overwritten by the stored
    widths.  With more than N runs the range of the first N runs is
    returned; otherwise the last slot decides: [[begin, end)] when it is not
    0, "not found" when it is. *)
Lemma RecordPattern_stored {CounterValue : CounterType}
    (row : Row) (begin e : Z) (counters : Counters) :
  0 <= begin <= e -> e <= Z.of_nat (length row) -> counters <> [] ->
  RecordPattern row begin e counters
  = Some (if (length counters <? length (runs (slice row begin e)))%nat
          then mkRange begin
                 (begin + sumZ (take (length counters) (runs (slice row begin e))))
          else if back (fill (set_back counters 0)
                          (map static_cast_counter (runs (slice row begin e)))) =? 0
               then NotFound e
               else mkRange begin e,
          fill (set_back counters 0)
            (map static_cast_counter (runs (slice row begin e)))).
Proof.
  intros Hb He Hne.
  assert (HN : (0 < length counters)%nat) by (destruct counters; [congruence | simpl; lia]).
  assert (Hne0 : set_back counters 0 <> []).
  { intros Hnil. apply (f_equal length) in Hnil.
    rewrite set_back_length in Hnil. simpl in Hnil. lia. }
  unfold RecordPattern, FindPattern. cbn [it_eqb diff ForwardIterator].
  destruct (begin =? e) eqn:Hbe.
  - apply Z.eqb_eq in Hbe. subst e. rewrite slice_empty. cbn [runs length map].
    replace (length counters <? 0)%nat with false by (symmetry; apply Nat.ltb_ge; lia).
    rewrite fill_nil_r. cbn [NotFound r_end]. rewrite Z.eqb_refl.
    rewrite back_set_back by assumption. reflexivity.
  - apply Z.eqb_neq in Hbe.
    rewrite (FindPattern_loop_runs row e _ _ begin begin [] (set_back counters 0))
      by (assumption || lia || reflexivity).
    cbn [app length]. rewrite set_back_length.
    set (rs := runs (slice row begin e)).
    assert (Hpos : Forall (fun x => 0 < x) rs) by apply runs_pos.
    assert (Hsum : sumZ rs = e - begin).
    { unfold rs. rewrite runs_sum. apply slice_length; lia. }
    destruct (length counters <? length rs)%nat eqn:Hlt.
    + apply Nat.ltb_lt in Hlt. cbn [r_end].
      assert (Hs := sumZ_take_lt (length counters) rs Hpos Hlt).
      replace (begin + sumZ (take (length counters) rs) =? e) with false
        by (symmetry; apply Z.eqb_neq; lia).
      reflexivity.
    + cbn [NotFound r_end]. rewrite Z.eqb_refl. cbn [andb].
      destruct (back (fill (set_back counters 0) (map static_cast_counter rs)) =? 0);
        reflexivity.
Qed.

(** When the counter type can hold the length of the range, the stored
    widths are the run widths: with more than N runs, the first N runs;
    with exactly N runs, the whole range; with fewer, "not found". *)
Lemma RecordPattern_runs {CounterValue : CounterType}
    (row : Row) (begin e : Z) (counters : Counters) :
  0 <= begin <= e -> e <= Z.of_nat (length row) -> counters <> [] ->
  e - begin <= counter_max ->
  RecordPattern row begin e counters
  = Some (if (length counters <? length (runs (slice row begin e)))%nat
          then mkRange begin
                 (begin + sumZ (take (length counters) (runs (slice row begin e))))
          else if (length counters =? length (runs (slice row begin e)))%nat
               then mkRange begin e
               else NotFound e,
          fill (set_back counters 0) (runs (slice row begin e))).
Proof.
  intros Hb He Hne Hmax.
  assert (HN : (0 < length counters)%nat) by (destruct counters; [congruence | simpl; lia]).
  assert (Hne0 : set_back counters 0 <> []).
  { intros Hnil. apply (f_equal length) in Hnil.
    rewrite set_back_length in Hnil. simpl in Hnil. lia. }
  rewrite RecordPattern_stored by assumption.
  set (rs := runs (slice row begin e)).
  assert (Hpos : Forall (fun x => 0 < x) rs) by apply runs_pos.
  assert (Hsum : sumZ rs = e - begin).
  { unfold rs. rewrite runs_sum. apply slice_length; lia. }
  rewrite map_static_cast_exact by (assumption || lia).
  destruct (length counters <? length rs)%nat eqn:Hlt; [reflexivity|].
  apply Nat.ltb_ge in Hlt.
  destruct (length counters =? length rs)%nat eqn:Heq.
  - apply Nat.eqb_eq in Heq.
    assert (Hback := back_fill_full (set_back counters 0) rs Hne0
                       ltac:(rewrite set_back_length; lia) Hpos).
    replace (back (fill (set_back counters 0) rs) =? 0) with false
      by (symmetry; apply Z.eqb_neq; lia).
    reflexivity.
  - apply Nat.eqb_neq in Heq.
    rewrite back_fill_short by (rewrite set_back_length; lia).
    rewrite back_set_back by assumption. reflexivity.
Qed.

(** C2.  On every row, every valid position range [[begin, end)] and every
    array of N >= 1 counters whose element type can hold the length of the
    range, RecordPattern returns; it either returns the "not found" range
    or a non-empty range whose length is exactly the sum of the N recorded
    counters. *)
Theorem RecordPattern_sum {CounterValue : CounterType}
    (row : Row) (begin e : Z) (counters : Counters) :
  0 <= begin <= e -> e <= Z.of_nat (length row) -> counters <> [] ->
  e - begin <= counter_max ->
  exists (range : Range Z) (counters' : Counters),
    RecordPattern row begin e counters = Some (range, counters')
    /\ length counters' = length counters
    /\ (range = NotFound e
        \/ (range_empty range = false /\ sumZ counters' = range_size range)).
Proof.
  intros Hb He Hne Hmax. eexists _, _. split; [now apply RecordPattern_runs|].
  split; [now rewrite fill_length, set_back_length|].
  set (rs := runs (slice row begin e)).
  assert (Hpos : Forall (fun x => 0 < x) rs) by apply runs_pos.
  assert (Hsum : sumZ rs = e - begin).
  { unfold rs. rewrite runs_sum. apply slice_length; lia. }
  assert (HN : (0 < length counters)%nat) by (destruct counters; [congruence | simpl; lia]).
  unfold range_empty, range_size. cbn [it_eqb diff ForwardIterator].
  destruct (length counters <? length rs)%nat eqn:Hlt.
  - apply Nat.ltb_lt in Hlt. right. cbn [r_begin r_end].
    rewrite fill_full_sum by (rewrite set_back_length; lia).
    rewrite set_back_length.
    assert (H0 : 0 < sumZ (take (length counters) rs)).
    { apply sumZ_pos; [now apply Forall_take|].
      intros Hnil. apply (f_equal length) in Hnil.
      rewrite length_take in Hnil. simpl in Hnil. lia. }
    split; [apply Z.eqb_neq; lia | lia].
  - destruct (length counters =? length rs)%nat eqn:Heq; [|now left].
    apply Nat.eqb_eq in Heq. right. cbn [r_begin r_end].
    rewrite fill_full_sum by (rewrite set_back_length; lia).
    rewrite set_back_length, Heq, firstn_all.
    assert (0 < sumZ rs).
    { apply sumZ_pos; [assumption|]. intros Hnil. rewrite Hnil in Heq.
      simpl in Heq. lia. }
    split; [apply Z.eqb_neq; lia | lia].
Qed.

Lemma RecordPattern_sum_witness :
  exists (range : Range Z) (counters' : Counters),
    RecordPattern [false; true; true; false; true; true; true; false] 1 8 [0; 0; 0]
    = Some (range, counters')
    /\ length counters' = 3%nat
    /\ (range = NotFound 8
        \/ (range_empty range = false /\ sumZ counters' = range_size range)).
Proof.
  apply (RecordPattern_sum [false; true; true; false; true; true; true; false] 1 8
           [0; 0; 0]).
  - lia.
  - simpl. lia.
  - discriminate.
  - vm_compute. discriminate.
Defined.

(** C3.  Writing k for the number of runs of the range [[begin, end)], of
    which all but the last are completed by a colour boundary inside the
    range: RecordPattern signals "not found" exactly when the row is
    exhausted before N runs are completed (k - 1 < N), except when the scan
    reaches [end] while the Nth run is being recorded (k = N); in that case
    the returned range is [[begin, end)], and the Nth counter holds the
    width of the unfinished run.  The element type of the counters is one
    that can hold the length of the range. *)
Theorem RecordPattern_not_found_iff {CounterValue : CounterType}
    (row : Row) (begin e : Z) (counters : Counters) :
  0 <= begin <= e -> e <= Z.of_nat (length row) -> counters <> [] ->
  e - begin <= counter_max ->
  let k := length (runs (slice row begin e)) in
  let N := length counters in
  exists (range : Range Z) (counters' : Counters),
    RecordPattern row begin e counters = Some (range, counters')
    /\ (range = NotFound e <-> (pred k < N)%nat /\ k <> N)
    /\ (k = N -> range = mkRange begin e /\ counters' = runs (slice row begin e))
    /\ ((N < k)%nat -> counters' = take N (runs (slice row begin e))).
Proof.
  intros Hb He Hne Hmax k N. eexists _, _. split; [now apply RecordPattern_runs|].
  fold k. fold N.
  assert (HN : (0 < N)%nat) by (unfold N; destruct counters; [congruence | simpl; lia]).
  assert (Hpos : Forall (fun x => 0 < x) (runs (slice row begin e))) by apply runs_pos.
  assert (Hsum : sumZ (runs (slice row begin e)) = e - begin).
  { rewrite runs_sum. apply slice_length; lia. }
  assert (Hfull : forall n, (n <= k)%nat -> length (set_back counters 0) = n ->
                    fill (set_back counters 0) (runs (slice row begin e))
                    = take n (runs (slice row begin e))).
  { intros n Hn Hl. unfold fill. rewrite Hl. fold k.
    rewrite drop_ge by lia. apply app_nil_r. }
  split; [split|split].
  - intros Hr.
    destruct (N <? k)%nat eqn:Hlt.
    + apply Nat.ltb_lt in Hlt. injection Hr as Hr1 Hr2.
      assert (Hs := sumZ_take_lt N _ Hpos Hlt). lia.
    + apply Nat.ltb_ge in Hlt.
      destruct (N =? k)%nat eqn:Heq; [|apply Nat.eqb_neq in Heq; lia].
      apply Nat.eqb_eq in Heq. injection Hr as Hr1.
      destruct (decide (k = 0%nat)) as [Hk | Hk]; [lia|].
      exfalso. apply sumZ_pos in Hpos as [_ Hp].
      assert (0 < sumZ (runs (slice row begin e))); [|lia].
      apply Hp. intros Hnil. unfold k in Hk. rewrite Hnil in Hk. now apply Hk.
  - intros [Hlt Hne'].
    replace (N <? k)%nat with false by (symmetry; apply Nat.ltb_ge; lia).
    replace (N =? k)%nat with false by (symmetry; apply Nat.eqb_neq; lia).
    reflexivity.
  - intros Hk.
    replace (N <? k)%nat with false by (symmetry; apply Nat.ltb_ge; lia).
    replace (N =? k)%nat with true by (symmetry; apply Nat.eqb_eq; lia).
    split; [reflexivity|].
    rewrite (Hfull k) by (rewrite ?set_back_length; fold N; lia).
    unfold k. apply firstn_all.
  - intros Hk. apply Hfull; [lia | now rewrite set_back_length].
Qed.

Lemma RecordPattern_not_found_iff_witness :
  exists (range : Range Z) (counters' : Counters),
    RecordPattern [true; true; false; true] 0 4 [0; 0; 0] = Some (range, counters')
    /\ (range = NotFound 4 <-> (pred 3 < 3)%nat /\ 3%nat <> 3%nat)
    /\ (3%nat = 3%nat -> range = mkRange 0 4 /\ counters' = [2; 1; 1])
    /\ ((3 < 3)%nat -> counters' = take 3 [2; 1; 1]).
Proof.
  apply (RecordPattern_not_found_iff [true; true; false; true] 0 4 [0; 0; 0]).
  - lia.
  - simpl. lia.
  - discriminate.
  - vm_compute. discriminate.
Defined.

Example RecordPattern_partial_failure :
  RecordPattern [true; false; false] 0 3 [7; 7; 7] = Some (NotFound 3, [1; 2; 0]).
Proof. reflexivity. Qed.

(** C9.  On every non-empty valid range whose length the element type of
    the counters can hold, RecordPattern returns the "not found" (empty)
    range if and only if the last counter slot is 0 at return.  A failure
    does not leave the counters unchanged: on the row black, white, white
    with three [int] counters [7; 7; 7] it returns "not found" with the
    counters [1; 2; 0], the widths recorded so far. *)
Theorem RecordPattern_back_zero {CounterValue : CounterType}
    (row : Row) (begin e : Z) (counters : Counters) :
  0 <= begin < e -> e <= Z.of_nat (length row) -> counters <> [] ->
  e - begin <= counter_max ->
  (exists (range : Range Z) (counters' : Counters),
      RecordPattern row begin e counters = Some (range, counters')
      /\ (range = NotFound e <-> back counters' = 0)
      /\ (range_empty range = true <-> back counters' = 0))
  /\ RecordPattern (CounterValue := int_counter) [true; false; false] 0 3 [7; 7; 7]
     = Some (NotFound 3, [1; 2; 0]).
Proof.
  intros Hb He Hne Hmax. split; [|reflexivity].
  eexists _, _. split; [apply RecordPattern_runs; (assumption || lia)|].
  set (rs := runs (slice row begin e)).
  assert (HN : (0 < length counters)%nat) by (destruct counters; [congruence | simpl; lia]).
  assert (Hne0 : set_back counters 0 <> []).
  { intros Hnil. apply (f_equal length) in Hnil.
    rewrite set_back_length in Hnil. simpl in Hnil. lia. }
  assert (Hpos : Forall (fun x => 0 < x) rs) by apply runs_pos.
  assert (Hsum : sumZ rs = e - begin).
  { unfold rs. rewrite runs_sum. apply slice_length; lia. }
  unfold range_empty. cbn [it_eqb ForwardIterator].
  destruct (length counters <? length rs)%nat eqn:Hlt.
  - apply Nat.ltb_lt in Hlt.
    assert (Hback := back_fill_full (set_back counters 0) rs Hne0
                       ltac:(rewrite set_back_length; lia) Hpos).
    assert (Hs := sumZ_take_lt (length counters) rs Hpos Hlt).
    assert (H0 : 0 < sumZ (take (length counters) rs)).
    { apply sumZ_pos; [now apply Forall_take|].
      intros Hnil. apply (f_equal length) in Hnil.
      rewrite length_take in Hnil. simpl in Hnil. lia. }
    cbn [r_begin r_end]. split; split; intros Hx;
      try (injection Hx as Hx1 Hx2); lia.
  - apply Nat.ltb_ge in Hlt.
    destruct (length counters =? length rs)%nat eqn:Heq.
    + apply Nat.eqb_eq in Heq.
      assert (Hback := back_fill_full (set_back counters 0) rs Hne0
                         ltac:(rewrite set_back_length; lia) Hpos).
      cbn [r_begin r_end]. split; split; intros Hx;
        try (injection Hx as Hx1); lia.
    + apply Nat.eqb_neq in Heq.
      rewrite back_fill_short by (rewrite set_back_length; lia).
      rewrite back_set_back by assumption.
      cbn [NotFound r_begin r_end]. rewrite Z.eqb_refl.
      split; split; intros _; reflexivity.
Qed.

Lemma RecordPattern_back_zero_witness :
  (exists (range : Range Z) (counters' : Counters),
      RecordPattern [true; false; false; true; false] 1 5 [7; 7; 7; 7]
      = Some (range, counters')
      /\ (range = NotFound 5 <-> back counters' = 0)
      /\ (range_empty range = true <-> back counters' = 0))
  /\ RecordPattern [true; false; false] 0 3 [7; 7; 7] = Some (NotFound 3, [1; 2; 0]).
Proof.
  apply (RecordPattern_back_zero [true; false; false; true; false] 1 5 [7; 7; 7; 7]).
  - lia.
  - simpl. lia.
  - discriminate.
  - vm_compute. discriminate.
Defined.

(* ===================================================================== *)
(** * Run extraction in reverse                                            *)
(* ===================================================================== *)

Lemma pixel_reverse (row : Row) (p : Z) :
  pixel (reverse row) p = pixel row (Z.of_nat (length row) - 1 - p).
Proof.
  unfold pixel.
  destruct (p <? 0) eqn:Hp; destruct (Z.of_nat (length row) - 1 - p <? 0) eqn:Hq;
    try apply Z.ltb_lt in Hp; try apply Z.ltb_lt in Hq;
    try apply Z.ltb_ge in Hp; try apply Z.ltb_ge in Hq.
  - reflexivity.
  - symmetry. apply nth_overflow. lia.
  - apply nth_overflow. rewrite length_reverse. lia.
  - rewrite !nth_lookup. rewrite reverse_lookup by lia.
    do 2 f_equal. lia.
Qed.

Section Reverse.
Context {CounterValue : CounterType}.
Variable row : Row.
Let len : Z := Z.of_nat (length row).

Lemma deref_reverse (r : reverse_iterator) :
  deref (reverse row) (fwd_pos len r) = deref row r.
Proof.
  cbn [deref ForwardIterator ReverseIterator]. rewrite pixel_reverse.
  unfold fwd_pos. fold len. f_equal. lia.
Qed.

Lemma getNextSetTo_loop_reverse (n : nat) (r : reverse_iterator) (v : bool) :
  getNextSetTo_loop n (reverse row) (fwd_pos len r) v
  = fwd_pos len (getNextSetTo_loop n row r v).
Proof.
  revert r. induction n as [|n IH]; intros r; cbn [getNextSetTo_loop]; [reflexivity|].
  rewrite deref_reverse.
  destruct (eqb (deref row r) v); [reflexivity|].
  rewrite <- IH. f_equal.
  cbn [incr ForwardIterator ReverseIterator]. unfold fwd_pos. cbn [base]. lia.
Qed.

Lemma diff_reverse (a b : reverse_iterator) :
  diff (fwd_pos len a) (fwd_pos len b) = diff a b.
Proof. cbn [diff ForwardIterator ReverseIterator]. unfold fwd_pos. lia. Qed.

Lemma it_eqb_reverse (a b : reverse_iterator) :
  it_eqb (fwd_pos len a) (fwd_pos len b) = it_eqb a b.
Proof.
  cbn [it_eqb ForwardIterator ReverseIterator]. unfold fwd_pos.
  destruct (Z.eqb_spec (base a) (base b)) as [Heq | Hne].
  - apply Z.eqb_eq. lia.
  - apply Z.eqb_neq. lia.
Qed.

Lemma advance_reverse (a : reverse_iterator) (n : Z) :
  advance (fwd_pos len a) n = fwd_pos len (advance a n).
Proof. cbn [advance ForwardIterator ReverseIterator]. unfold fwd_pos. cbn [base]. lia. Qed.

Lemma getNextSetTo_reverse (r rend : reverse_iterator) (v : bool) :
  getNextSetTo (reverse row) (fwd_pos len r) (fwd_pos len rend) v
  = fwd_pos len (getNextSetTo row r rend v).
Proof.
  unfold getNextSetTo. rewrite diff_reverse. apply getNextSetTo_loop_reverse.
Qed.

Variable match_r : reverse_iterator -> reverse_iterator -> Counters -> bool.
Variable match_f : Z -> Z -> Counters -> bool.
Hypothesis match_related :
  forall a b counters, match_f (fwd_pos len a) (fwd_pos len b) counters = match_r a b counters.

(** One step of the scan on reverse iterators is one step of the scan of
    the reversed row on plain iterators. *)
Lemma FindPattern_step_reverse (rend : reverse_iterator) (s : ScanState reverse_iterator) :
  FindPattern_step (reverse row) (fwd_pos len rend) match_f (fwd_state len s)
  = fwd_step len (FindPattern_step row rend match_r s).
Proof.
  unfold FindPattern_step, fwd_state. cbn [s_begin s_li s_i s_cur s_counters].
  rewrite deref_reverse, getNextSetTo_reverse, diff_reverse, it_eqb_reverse.
  destruct (it_eqb _ rend); [reflexivity|].
  destruct (Nat.eqb _ _); [|reflexivity].
  rewrite match_related.
  destruct (match_r _ _ _); [reflexivity|].
  cbn [fwd_step]. unfold fwd_state. cbn [s_begin s_li s_i s_cur s_counters].
  now rewrite advance_reverse.
Qed.

Lemma FindPattern_loop_reverse (fuel : nat) (rend : reverse_iterator)
    (s : ScanState reverse_iterator) :
  FindPattern_loop fuel (reverse row) (fwd_pos len rend) match_f (fwd_state len s)
  = fwd_result len (FindPattern_loop fuel row rend match_r s).
Proof.
  revert s. induction fuel as [|fuel IH]; intros s; cbn [FindPattern_loop]; [reflexivity|].
  rewrite FindPattern_step_reverse.
  destruct (FindPattern_step row rend match_r s) as [c | r c | s']; cbn [fwd_step].
  - reflexivity.
  - reflexivity.
  - apply IH.
Qed.

Lemma FindPattern_reverse (rbegin rend : reverse_iterator) (counters : Counters) :
  FindPattern (reverse row) (fwd_pos len rbegin) (fwd_pos len rend) counters match_f
  = fwd_result len (FindPattern row rbegin rend counters match_r).
Proof.
  unfold FindPattern. rewrite it_eqb_reverse, diff_reverse.
  destruct (it_eqb rbegin rend); [reflexivity|].
  apply (FindPattern_loop_reverse _ rend (mkScan rbegin rbegin rbegin 0 counters)).
Qed.

End Reverse.

Lemma RecordPattern_reverse {CounterValue : CounterType}
    (row : Row) (rbegin rend : reverse_iterator) (counters : Counters) :
  RecordPattern (reverse row) (fwd_pos (Z.of_nat (length row)) rbegin)
    (fwd_pos (Z.of_nat (length row)) rend) counters
  = fwd_result (Z.of_nat (length row)) (RecordPattern row rbegin rend counters).
Proof.
  unfold RecordPattern.
  rewrite (FindPattern_reverse row (fun _ _ _ => true) (fun _ _ _ => true))
    by reflexivity.
  destruct (FindPattern row rbegin rend (set_back counters 0) (fun _ _ _ => true))
    as [[range c]|]; cbn [fwd_result]; [|reflexivity].
  change (r_end (fwd_range (Z.of_nat (length row)) range))
    with (fwd_pos (Z.of_nat (length row)) (r_end range)).
  rewrite it_eqb_reverse.
  destruct (it_eqb (r_end range) rend && negb (back c =? 0)); reflexivity.
Qed.

(** RecordPatternInReverse is RecordPattern on the reversed row over the
    mirrored range, mirrored back; no assumption on the range is needed. *)
Lemma RecordPatternInReverse_spec {CounterValue : CounterType}
    (row : Row) (begin e : Z) (counters : Counters) :
  RecordPatternInReverse row begin e counters
  = match RecordPattern (reverse row) (Z.of_nat (length row) - e)
            (Z.of_nat (length row) - begin) counters with
    | Some (range, c) => Some (mirror (Z.of_nat (length row)) range, reverse c)
    | None => None
    end.
Proof.
  unfold RecordPatternInReverse.
  change (Z.of_nat (length row) - e)
    with (fwd_pos (Z.of_nat (length row)) (mkReverse e)).
  change (Z.of_nat (length row) - begin)
    with (fwd_pos (Z.of_nat (length row)) (mkReverse begin)).
  rewrite RecordPattern_reverse.
  destruct (RecordPattern row (mkReverse e) (mkReverse begin) counters)
    as [[range c]|]; cbn [fwd_result]; [|reflexivity].
  do 2 f_equal. unfold mirror, fwd_range, fwd_pos. cbn [r_begin r_end].
  f_equal; lia.
Qed.

Lemma mirror_involutive (len : Z) (r : Range Z) : mirror len (mirror len r) = r.
Proof.
  destruct r as [a b]. unfold mirror. cbn [r_begin r_end]. f_equal; lia.
Qed.

(** C6.  On every row and every valid range [[begin, end)],
    RecordPatternInReverse produces the mirror of what RecordPattern
    produces on the reversed row over the mirrored range
    [[len - end, len - begin)]: the counters are the reversal of those
    counters and the range is the mirror of that range.  Mirroring and
    reversing are self-inverse. *)
Theorem RecordPatternInReverse_mirror {CounterValue : CounterType}
    (row : Row) (begin e : Z) (counters : Counters) :
  0 <= begin <= e -> e <= Z.of_nat (length row) -> counters <> [] ->
  let len := Z.of_nat (length row) in
  exists (range : Range Z) (forward : Counters),
    RecordPattern (reverse row) (len - e) (len - begin) counters
    = Some (range, forward)
    /\ RecordPatternInReverse row begin e counters
       = Some (mirror len range, reverse forward)
    /\ mirror len (mirror len range) = range
    /\ reverse (reverse forward) = forward.
Proof.
  intros Hb He Hne len.
  assert (Hrec := RecordPattern_stored (reverse row) (len - e) (len - begin) counters
                    ltac:(lia) ltac:(rewrite length_reverse; lia) Hne).
  eexists _, _. split; [exact Hrec|]. split; [|split].
  - rewrite RecordPatternInReverse_spec. fold len. now rewrite Hrec.
  - apply mirror_involutive.
  - apply reverse_involutive.
Qed.

Lemma RecordPatternInReverse_mirror_witness :
  exists (range : Range Z) (forward : Counters),
    RecordPattern (reverse [false; true; true; false; true; true; true]) (7 - 7) (7 - 0)
      [9; 9; 9]
    = Some (range, forward)
    /\ RecordPatternInReverse [false; true; true; false; true; true; true] 0 7 [9; 9; 9]
       = Some (mirror 7 range, reverse forward)
    /\ mirror 7 (mirror 7 range) = range
    /\ reverse (reverse forward) = forward.
Proof.
  apply (RecordPatternInReverse_mirror [false; true; true; false; true; true; true] 0 7
           [9; 9; 9]).
  - lia.
  - simpl. lia.
  - discriminate.
Defined.

(* ===================================================================== *)
(** * Fit scoring                                                          *)
(* ===================================================================== *)

(** *** The deviation in integers *)

Lemma scaledDeviation_app (P T : Z) (l1 l2 q1 q2 : list Z) :
  length l1 = length q1 ->
  scaledDeviation P T (l1 ++ l2) (q1 ++ q2)
  = scaledDeviation P T l1 q1 + scaledDeviation P T l2 q2.
Proof.
  revert q1. induction l1 as [|c l1 IH]; intros [|p q1] Hlen; simpl in *;
    try discriminate; [reflexivity|].
  rewrite IH by lia. lia.
Qed.

Lemma scaledDeviation_nonneg (P T : Z) (cs ps : list Z) :
  0 <= scaledDeviation P T cs ps.
Proof.
  revert ps. induction cs as [|c cs IH]; intros [|p ps]; simpl; try lia.
  specialize (IH ps). lia.
Qed.

(** No deviation exceeds the two totals together. *)
Lemma scaledDeviation_bound (P T : Z) (cs ps : list Z) :
  0 <= P -> 0 <= T ->
  Forall (fun c => 0 <= c) cs -> Forall (fun p => 0 <= p) ps ->
  length cs = length ps ->
  scaledDeviation P T cs ps <= P * sumZ cs + T * sumZ ps.
Proof.
  intros HP HT Hcs. revert ps.
  induction Hcs as [|c cs Hc Hcs IH]; intros [|p ps] Hps Hlen; simpl in *;
    try discriminate; [unfold sumZ; simpl; lia|].
  inversion Hps as [|? ? Hp Hps']; subst.
  specialize (IH ps Hps' ltac:(lia)).
  change (sumZ (c :: cs)) with (c + sumZ cs).
  change (sumZ (p :: ps)) with (p + sumZ ps).
  assert (Z.abs (c * P - p * T) <= c * P + p * T) by nia.
  nia.
Qed.

(** Changing the total from [T] to [T'] moves the positions whose counter
    is unchanged by at most their share of the change. *)
Lemma scaledDeviation_others (P T T' : Z) (cs ps : list Z) :
  0 <= P -> 0 < T -> 0 < T' ->
  Forall (fun c => 0 <= c) cs ->
  length cs = length ps ->
  scaledDeviation P T cs ps * T' - P * Z.abs (T' - T) * sumZ cs
  <= scaledDeviation P T' cs ps * T.
Proof.
  intros HP HT HT' Hcs. revert ps.
  induction Hcs as [|c cs Hc Hcs IH]; intros [|p ps] Hlen; simpl in *;
    try discriminate; [unfold sumZ; simpl; lia|].
  specialize (IH ps ltac:(lia)).
  change (sumZ (c :: cs)) with (c + sumZ cs).
  assert (Hone : Z.abs (c * P - p * T) * T' - P * Z.abs (T' - T) * c
                 <= Z.abs (c * P - p * T') * T).
  { assert (Hid : (c * P - p * T') * T = (c * P - p * T) * T' - c * P * (T' - T)) by ring.
    assert (H1 : Z.abs (c * P - p * T') * T = Z.abs ((c * P - p * T') * T))
      by (rewrite Z.abs_mul, (Z.abs_eq T); lia).
    assert (H2 : Z.abs (c * P - p * T) * T' = Z.abs ((c * P - p * T) * T'))
      by (rewrite Z.abs_mul, (Z.abs_eq T'); lia).
    assert (H3 : P * Z.abs (T' - T) * c = Z.abs (c * P * (T' - T))).
    { rewrite !Z.abs_mul, (Z.abs_eq c), (Z.abs_eq P) by lia. ring. }
    rewrite H1, H2, H3, Hid. lia. }
  nia.
Qed.

(** The position whose counter moves away from its expected width gains
    exactly the share of the change of all the other positions. *)
Lemma scaledDeviation_moved (P T x x' pj : Z) :
  0 <= P -> 0 < T -> 0 < T + (x' - x) -> x <= T ->
  (pj * T <= x * P /\ x <= x') \/ (x * P <= pj * T /\ x' <= x) ->
  Z.abs (x' * P - pj * (T + (x' - x))) * T
  = Z.abs (x * P - pj * T) * (T + (x' - x)) + P * Z.abs (x' - x) * (T - x).
Proof.
  intros HP HT HT' Hx Haway.
  assert (Hid : (x' * P - pj * (T + (x' - x))) * T
                = (x * P - pj * T) * (T + (x' - x)) + P * (x' - x) * (T - x)) by ring.
  set (A' := x' * P - pj * (T + (x' - x))) in *.
  set (A := x * P - pj * T) in *.
  destruct Haway as [[Hge Hup] | [Hle Hdown]].
  - assert (H1 : 0 <= P * (x' - x) * (T - x))
      by (apply Z.mul_nonneg_nonneg; [apply Z.mul_nonneg_nonneg|]; lia).
    assert (H2 : 0 <= A * (T + (x' - x)))
      by (apply Z.mul_nonneg_nonneg; unfold A; lia).
    assert (H3 : 0 <= A').
    { destruct (Z_lt_le_dec A' 0) as [Hneg|]; [|assumption].
      assert (A' * T < 0) by (apply Z.mul_neg_pos; lia). lia. }
    rewrite (Z.abs_eq A') by lia.
    rewrite (Z.abs_eq A) by (unfold A; lia).
    rewrite (Z.abs_eq (x' - x)) by lia. exact Hid.
  - assert (H1 : P * (x' - x) * (T - x) <= 0).
    { apply Z.mul_nonpos_nonneg; [|lia]. apply Z.mul_nonneg_nonpos; lia. }
    assert (H2 : A * (T + (x' - x)) <= 0)
      by (apply Z.mul_nonpos_nonneg; unfold A; lia).
    assert (H3 : A' <= 0).
    { destruct (Z_lt_le_dec 0 A') as [Hpos|]; [|assumption].
      assert (0 < A' * T) by (apply Z.mul_pos_pos; lia). lia. }
    rewrite (Z.abs_neq A') by lia.
    rewrite (Z.abs_neq A) by (unfold A; lia).
    rewrite (Z.abs_neq (x' - x)) by lia.
    rewrite Z.mul_opp_l, Hid. ring.
Qed.

(** The integer form of the monotonicity of the score: moving one counter
    away from its expected width does not decrease
    total deviation / total. *)
Lemma scaledDeviation_monotone (P : Z) (l1 l2 q1 q2 : list Z) (x x' pj : Z) :
  let T := sumZ (l1 ++ x :: l2) in
  let T' := sumZ (l1 ++ x' :: l2) in
  0 <= P -> 0 < T -> 0 < T' ->
  Forall (fun c => 0 <= c) l1 -> Forall (fun c => 0 <= c) l2 ->
  length l1 = length q1 -> length l2 = length q2 ->
  (pj * T <= x * P /\ x <= x') \/ (x * P <= pj * T /\ x' <= x) ->
  scaledDeviation P T (l1 ++ x :: l2) (q1 ++ pj :: q2) * T'
  <= scaledDeviation P T' (l1 ++ x' :: l2) (q1 ++ pj :: q2) * T.
Proof.
  intros T T' HP HT HT' H1 H2 Hl1 Hl2 Haway.
  assert (HT'eq : T' = T + (x' - x)).
  { unfold T, T'. rewrite !sumZ_app.
    change (sumZ (x' :: l2)) with (x' + sumZ l2).
    change (sumZ (x :: l2)) with (x + sumZ l2). lia. }
  assert (HTx : T - x = sumZ l1 + sumZ l2).
  { unfold T. rewrite sumZ_app. change (sumZ (x :: l2)) with (x + sumZ l2). lia. }
  assert (Hs1 : 0 <= sumZ l1) by (apply sumZ_nonneg; assumption).
  assert (Hs2 : 0 <= sumZ l2) by (apply sumZ_nonneg; assumption).
  rewrite !scaledDeviation_app by assumption. cbn [scaledDeviation].
  assert (Ho1 := scaledDeviation_others P T T' l1 q1 HP HT HT' H1 Hl1).
  assert (Ho2 := scaledDeviation_others P T T' l2 q2 HP HT HT' H2 Hl2).
  assert (Hm := scaledDeviation_moved P T x x' pj HP HT ltac:(lia) ltac:(lia) Haway).
  rewrite <- HT'eq in Hm.
  replace (Z.abs (T' - T)) with (Z.abs (x' - x)) in Ho1, Ho2 by (f_equal; lia).
  nia.
Qed.

(** *** From the score to the integer deviation *)

Lemma Qdiv_le_cross (a b c d : Q) :
  (0 < b)%Q -> (0 < d)%Q -> (a * d <= c * b)%Q -> (a / b <= c / d)%Q.
Proof.
  intros Hb Hd Hcross.
  apply Qle_shift_div_r; [exact Hb|].
  setoid_replace (c / d * b)%Q with (c * b / d)%Q using relation Qeq
    by (field; lra).
  apply Qle_shift_div_l; assumption.
Qed.

Lemma inject_Z_pos (z : Z) : 0 < z -> (0 < inject_Z z)%Q.
Proof. intros Hz. change 0%Q with (inject_Z 0). now rewrite <- Zlt_Qlt. Qed.

Lemma deviationOf_scaled (P T c p : Z) :
  0 < P ->
  (FitScoring.deviationOf (inject_Z T / inject_Z P) c p
   == inject_Z (Z.abs (c * P - p * T)) / inject_Z P)%Q.
Proof.
  intros HP. assert (HPq := inject_Z_pos P HP).
  unfold FitScoring.deviationOf, FitScoring.expectedWidth.
  setoid_replace (inject_Z c - inject_Z p * (inject_Z T / inject_Z P))%Q
    with (inject_Z (c * P - p * T) * / inject_Z P)%Q using relation Qeq.
  2:{ unfold Z.sub. rewrite inject_Z_plus, inject_Z_opp, !inject_Z_mult. field. lra. }
  rewrite Qabs_Qmult, Qabs_Qinv, (Qabs_pos (inject_Z P)) by lra.
  reflexivity.
Qed.

Lemma totalDeviation_value (P T : Z) (v : Q) (cs ps : list Z) :
  0 < P ->
  forall (acc r : Q),
    FitScoring.totalDeviation (inject_Z T / inject_Z P) v cs ps acc = Some r ->
    (r == acc + inject_Z (scaledDeviation P T cs ps) / inject_Z P)%Q.
Proof.
  intros HP. assert (HPq := inject_Z_pos P HP).
  revert ps. induction cs as [|c cs IH]; intros [|p ps] acc r Hr;
    cbn [FitScoring.totalDeviation scaledDeviation] in *;
    try (injection Hr as <-; change (inject_Z 0) with 0%Q; field; lra).
  destruct (Qltb v _); [discriminate|].
  apply IH in Hr. rewrite Hr, deviationOf_scaled by assumption.
  rewrite inject_Z_plus. field. lra.
Qed.

(** The two outcomes of the scoring function: the sentinel, or the total
    deviation over the total. *)
Lemma PatternMatchVariance_cases (cs ps : list Z) (v : Q) :
  length cs = length ps -> 0 < sumZ ps ->
  FitScoring.PatternMatchVariance cs ps v = FitScoring.sentinel
  \/ ((exists r, FitScoring.totalDeviation
                   (inject_Z (sumZ cs) / inject_Z (sumZ ps)) v cs ps 0 = Some r)
      /\ (FitScoring.PatternMatchVariance cs ps v
          == inject_Z (scaledDeviation (sumZ ps) (sumZ cs) cs ps)
             / (inject_Z (sumZ ps) * inject_Z (sumZ cs)))%Q).
Proof.
  intros Hlen HP. assert (HPq := inject_Z_pos _ HP).
  unfold FitScoring.PatternMatchVariance, FitScoring.PatternMatchVariance_ptr.
  rewrite firstn_all. rewrite Hlen, firstn_all.
  destruct (FitScoring.totalDeviation _ v cs ps 0) as [r|] eqn:Hr; [right | now left].
  split; [now exists r|].
  apply totalDeviation_value in Hr; [|assumption]. rewrite Hr.
  destruct (Z.eq_dec (sumZ cs) 0) as [H0 | Hne].
  - rewrite H0. change (inject_Z 0) with 0%Q.
    unfold Qdiv. rewrite Qmult_0_r. change (/ 0)%Q with 0%Q. rewrite !Qmult_0_r.
    reflexivity.
  - assert (~ (inject_Z (sumZ cs) == 0)%Q).
    { change 0%Q with (inject_Z 0). now rewrite inject_Z_injective. }
    field. split; [assumption | lra].
Qed.

(** An accepted score is at most 2, far below the sentinel. *)
Lemma score_below_sentinel (cs ps : list Z) :
  0 < sumZ ps -> 0 < sumZ cs ->
  Forall (fun c => 0 <= c) cs -> Forall (fun p => 0 <= p) ps ->
  length cs = length ps ->
  (inject_Z (scaledDeviation (sumZ ps) (sumZ cs) cs ps)
   / (inject_Z (sumZ ps) * inject_Z (sumZ cs)) <= 2)%Q
  /\ (2 < FitScoring.sentinel)%Q.
Proof.
  intros HP HT Hcs Hps Hlen. split; [|reflexivity].
  assert (HPq := inject_Z_pos _ HP). assert (HTq := inject_Z_pos _ HT).
  apply Qle_shift_div_r; [apply Qmult_lt_0_compat; assumption|].
  change 2%Q with (inject_Z 2). rewrite <- !inject_Z_mult, <- Zle_Qle.
  assert (Hb := scaledDeviation_bound (sumZ ps) (sumZ cs) cs ps
                  ltac:(lia) ltac:(lia) Hcs Hps Hlen).
  lia.
Qed.

(** *** Exact multiples of the pattern *)

Lemma sumZ_map_mul (k : Z) (ps : list Z) : sumZ (map (Z.mul k) ps) = k * sumZ ps.
Proof.
  induction ps as [|p ps IH]; [unfold sumZ; simpl; lia|].
  change (sumZ (map (Z.mul k) (p :: ps))) with (k * p + sumZ (map (Z.mul k) ps)).
  change (sumZ (p :: ps)) with (p + sumZ ps). lia.
Qed.

Lemma scaledDeviation_multiple (P k : Z) (ps : list Z) :
  scaledDeviation P (k * P) (map (Z.mul k) ps) ps = 0.
Proof.
  induction ps as [|p ps IH]; [reflexivity|].
  cbn [map scaledDeviation]. rewrite IH.
  replace (k * p * P - p * (k * P)) with 0 by ring. reflexivity.
Qed.

(** On an exact multiple every deviation is zero and no position is
    rejected, whatever the non-negative tolerance. *)
Lemma totalDeviation_multiple (u v : Q) (k : Z) (ps : list Z) (acc : Q) :
  (u == inject_Z k)%Q -> (0 <= v)%Q ->
  exists r : Q,
    FitScoring.totalDeviation u v (map (Z.mul k) ps) ps acc = Some r.
Proof.
  intros Hu Hv. revert acc. induction ps as [|p ps IH]; intros acc.
  - now exists acc.
  - cbn [map FitScoring.totalDeviation].
    assert (Hdev : (FitScoring.deviationOf u (k * p) p == 0)%Q).
    { unfold FitScoring.deviationOf, FitScoring.expectedWidth.
      setoid_replace (inject_Z (k * p) - inject_Z p * u)%Q with 0%Q using relation Qeq.
      - reflexivity.
      - rewrite Hu, inject_Z_mult. ring. }
    assert (Hratio : (FitScoring.individualRatio (FitScoring.deviationOf u (k * p) p)
                        (FitScoring.expectedWidth u p) == 0)%Q).
    { unfold FitScoring.individualRatio.
      destruct (Qle_bool (FitScoring.expectedWidth u p) 0); [exact Hdev|].
      rewrite Hdev. unfold Qdiv. apply Qmult_0_l. }
    replace (Qltb v _) with false; [apply IH|].
    symmetry. apply Qltb_ge. rewrite Hratio. exact Hv.
Qed.

(** *** The expected width in integers *)

Lemma expected_le_iff (P T pj x : Z) :
  0 < P ->
  (FitScoring.expectedWidth (inject_Z T / inject_Z P) pj <= inject_Z x)%Q
  <-> pj * T <= x * P.
Proof.
  intros HP. assert (HPq := inject_Z_pos P HP). unfold FitScoring.expectedWidth.
  rewrite <- (Qmult_le_r _ _ (inject_Z P)) by assumption.
  setoid_replace (inject_Z pj * (inject_Z T / inject_Z P) * inject_Z P)%Q
    with (inject_Z (pj * T)) using relation Qeq
    by (rewrite inject_Z_mult; field; lra).
  rewrite <- inject_Z_mult, <- Zle_Qle. reflexivity.
Qed.

Lemma expected_ge_iff (P T pj x : Z) :
  0 < P ->
  (inject_Z x <= FitScoring.expectedWidth (inject_Z T / inject_Z P) pj)%Q
  <-> x * P <= pj * T.
Proof.
  intros HP. assert (HPq := inject_Z_pos P HP). unfold FitScoring.expectedWidth.
  rewrite <- (Qmult_le_r _ _ (inject_Z P)) by assumption.
  setoid_replace (inject_Z pj * (inject_Z T / inject_Z P) * inject_Z P)%Q
    with (inject_Z (pj * T)) using relation Qeq
    by (rewrite inject_Z_mult; field; lra).
  rewrite <- inject_Z_mult, <- Zle_Qle. reflexivity.
Qed.

(** *** Monotonicity of accepted scores *)

Lemma PatternMatchVariance_monotone_split (l1 l2 q1 q2 : list Z) (x x' pj : Z) (v : Q) :
  let counters := l1 ++ x :: l2 in
  let counters' := l1 ++ x' :: l2 in
  let pattern := q1 ++ pj :: q2 in
  Forall (fun p => 0 < p) pattern ->
  Forall (fun c => 0 <= c) l1 -> Forall (fun c => 0 <= c) l2 ->
  0 <= x -> 0 <= x' ->
  length l1 = length q1 -> length l2 = length q2 ->
  0 < sumZ counters -> 0 < sumZ counters' ->
  (pj * sumZ counters <= x * sumZ pattern /\ x <= x')
  \/ (x * sumZ pattern <= pj * sumZ counters /\ x' <= x) ->
  ~ (FitScoring.PatternMatchVariance counters pattern v == FitScoring.sentinel)%Q ->
  (FitScoring.PatternMatchVariance counters pattern v
   <= FitScoring.PatternMatchVariance counters' pattern v)%Q.
Proof.
  intros counters counters' pattern Hps H1 H2 Hx Hx' Hl1 Hl2 HT HT' Haway Hacc.
  assert (HP : 0 < sumZ pattern).
  { apply sumZ_pos; [exact Hps|]. unfold pattern. now destruct q1. }
  assert (Hps0 : Forall (fun p => 0 <= p) pattern).
  { eapply Forall_impl; [exact Hps|]. intros p Hp. simpl in Hp. lia. }
  assert (Hlen : length counters = length pattern).
  { unfold counters, pattern. rewrite !length_app. simpl. lia. }
  assert (Hlen' : length counters' = length pattern).
  { unfold counters', pattern. rewrite !length_app. simpl. lia. }
  assert (Hcs : Forall (fun c => 0 <= c) counters).
  { unfold counters. apply Forall_app. split; [assumption|]. now constructor. }
  assert (Hcs' : Forall (fun c => 0 <= c) counters').
  { unfold counters'. apply Forall_app. split; [assumption|]. now constructor. }
  assert (HPq := inject_Z_pos _ HP).
  assert (HTq := inject_Z_pos _ HT). assert (HTq' := inject_Z_pos _ HT').
  destruct (PatternMatchVariance_cases counters pattern v Hlen HP) as [Hs | [_ Hval]].
  { exfalso. apply Hacc. now rewrite Hs. }
  destruct (score_below_sentinel counters pattern HP HT Hcs Hps0 Hlen) as [Hle2 Hsent].
  destruct (PatternMatchVariance_cases counters' pattern v Hlen' HP) as [Hs' | [_ Hval']].
  { rewrite Hs', Hval. lra. }
  rewrite Hval, Hval'.
  apply Qdiv_le_cross; [apply Qmult_lt_0_compat; assumption
                       | apply Qmult_lt_0_compat; assumption |].
  rewrite <- !inject_Z_mult, <- Zle_Qle.
  assert (Hm := scaledDeviation_monotone (sumZ pattern) l1 l2 q1 q2 x x' pj
                  ltac:(lia) HT HT' H1 H2 Hl1 Hl2 Haway).
  cbn zeta in Hm. fold counters counters' pattern in Hm.
  assert (H0 := scaledDeviation_nonneg (sumZ pattern) (sumZ counters) counters pattern).
  assert (H0' := scaledDeviation_nonneg (sumZ pattern) (sumZ counters') counters' pattern).
  nia.
Qed.

Example PatternMatchVariance_ex_near :
  FitScoring.PatternMatchVariance [5; 8; 4; 4; 4; 4] [1; 1; 1; 1; 1; 1] (3 # 5)
  = FitScoring.sentinel.
Proof. vm_compute. reflexivity. Qed.

Example PatternMatchVariance_ex_far :
  Qeq (FitScoring.PatternMatchVariance [8; 8; 4; 4; 4; 4] [1; 1; 1; 1; 1; 1] (3 # 5))
    (1 # 3).
Proof. vm_compute. reflexivity. Qed.

(** C5, as the claim states it, fails twice.  With a negative tolerance an
    exact multiple of the pattern is rejected.  And against six equal
    pattern entries with tolerance 3/5, the counters [5; 8; 4; 4; 4; 4] are
    rejected because of the second one, while moving the first counter from
    5 to 8, away from its expected width 29/6, gives the accepted score
    1/3: the result went down from the sentinel. *)
Lemma PatternMatchVariance_counterexample :
  ~ Qeq (FitScoring.PatternMatchVariance [2; 2] [1; 1] (-1 # 1)) 0%Q
  /\ (let pattern := [1; 1; 1; 1; 1; 1] in
      let near := [5; 8; 4; 4; 4; 4] in
      let far := <[0%nat := 8]> near in
      (FitScoring.expectedWidth
         (inject_Z (sumZ near) / inject_Z (sumZ pattern)) 1 <= inject_Z 5)%Q
      /\ 5 <= 8
      /\ ~ (FitScoring.PatternMatchVariance near pattern (3 # 5)
            <= FitScoring.PatternMatchVariance far pattern (3 # 5))%Q).
Proof.
  split; [|split; [|split]].
  - intros H. vm_compute in H. discriminate H.
  - vm_compute. discriminate.
  - lia.
  - intros H. vm_compute in H. now apply H.
Qed.

(** C5 (amended).  For a pattern of positive entries and a tolerance
    [v >= 0]: PatternMatchVariance returns 0 when the counters are a
    positive integer multiple of the pattern; and for equal-length,
    non-negative counters that are not rejected (the result is not the
    sentinel), the result does not decrease when a single counter moves
    away from its expected proportional value
    [pattern[j] * sum(counters) / sum(pattern)] while the others stay
    fixed. *)
Theorem PatternMatchVariance_fit (pattern : list Z) (v : Q) :
  pattern <> [] ->
  Forall (fun p => 0 < p) pattern ->
  (0 <= v)%Q ->
  (forall k : Z,
      0 < k ->
      (FitScoring.PatternMatchVariance (map (Z.mul k) pattern) pattern v == 0)%Q)
  /\ (forall (counters : list Z) (j : nat) (x x' pj : Z),
        length counters = length pattern ->
        Forall (fun c => 0 <= c) counters ->
        0 <= x' ->
        counters !! j = Some x ->
        pattern !! j = Some pj ->
        0 < sumZ counters ->
        0 < sumZ (<[j := x']> counters) ->
        let expected :=
          FitScoring.expectedWidth
            (inject_Z (sumZ counters) / inject_Z (sumZ pattern)) pj in
        ((expected <= inject_Z x)%Q /\ x <= x')
        \/ ((inject_Z x <= expected)%Q /\ x' <= x) ->
        ~ (FitScoring.PatternMatchVariance counters pattern v == FitScoring.sentinel)%Q ->
        (FitScoring.PatternMatchVariance counters pattern v
         <= FitScoring.PatternMatchVariance (<[j := x']> counters) pattern v)%Q).
Proof.
  intros Hne Hps Hv.
  assert (HP : 0 < sumZ pattern) by (apply sumZ_pos; assumption).
  assert (HPq := inject_Z_pos _ HP).
  split.
  - intros k Hk.
    assert (Hlen : length (map (Z.mul k) pattern) = length pattern) by apply length_map.
    assert (Hu : (inject_Z (sumZ (map (Z.mul k) pattern)) / inject_Z (sumZ pattern)
                  == inject_Z k)%Q).
    { rewrite sumZ_map_mul, inject_Z_mult. field. lra. }
    destruct (PatternMatchVariance_cases (map (Z.mul k) pattern) pattern v Hlen HP)
      as [Hs | [_ Hval]].
    + exfalso.
      destruct (totalDeviation_multiple _ v k pattern 0 Hu Hv) as [r Hr].
      unfold FitScoring.PatternMatchVariance, FitScoring.PatternMatchVariance_ptr in Hs.
      rewrite firstn_all in Hs. rewrite Hlen, firstn_all in Hs.
      rewrite Hr in Hs.
      assert (Hr0 := totalDeviation_value (sumZ pattern) (sumZ (map (Z.mul k) pattern))
                       v _ _ HP _ _ Hr).
      rewrite sumZ_map_mul, scaledDeviation_multiple in Hr0.
      assert (Hq : (r / inject_Z (sumZ (map (Z.mul k) pattern)) == 0)%Q).
      { rewrite Hr0. change (inject_Z 0) with 0%Q. unfold Qdiv.
        rewrite Qplus_0_l, !Qmult_0_l. reflexivity. }
      rewrite Hs in Hq. vm_compute in Hq. discriminate Hq.
    + rewrite Hval, sumZ_map_mul, scaledDeviation_multiple.
      change (inject_Z 0) with 0%Q. unfold Qdiv. apply Qmult_0_l.
  - intros counters j x x' pj Hlen Hcs Hx' Hx Hpj HT HT' expected Haway Hacc.
    assert (Hj : (j < length counters)%nat) by (eapply lookup_lt_Some; exact Hx).
    assert (Haway' : (pj * sumZ counters <= x * sumZ pattern /\ x <= x')
                     \/ (x * sumZ pattern <= pj * sumZ counters /\ x' <= x)).
    { unfold expected in Haway. destruct Haway as [[He Hm] | [He Hm]].
      - left. split; [exact (proj1 (expected_le_iff _ _ _ _ HP) He) | exact Hm].
      - right. split; [exact (proj1 (expected_ge_iff _ _ _ _ HP) He) | exact Hm]. }
    assert (Hx0 : 0 <= x).
    { rewrite Forall_lookup in Hcs. exact (Hcs _ _ Hx). }
    assert (H1 : Forall (fun c => 0 <= c) (take j counters)) by now apply Forall_take.
    assert (H2 : Forall (fun c => 0 <= c) (drop (S j) counters)) by now apply Forall_drop.
    assert (Hl1 : length (take j counters) = length (take j pattern)).
    { rewrite !length_take. lia. }
    assert (Hl2 : length (drop (S j) counters) = length (drop (S j) pattern)).
    { rewrite !length_drop. lia. }
    rewrite insert_take_drop in HT' |- * by assumption.
    rewrite <- (take_drop_middle counters j x Hx) in HT, Haway', Hacc |- * at 1.
    rewrite <- (take_drop_middle pattern j pj Hpj) in Hps, Haway', Hacc |- *.
    apply PatternMatchVariance_monotone_split; assumption.
Qed.

Lemma PatternMatchVariance_fit_witness :
  Qeq (FitScoring.PatternMatchVariance [3; 3; 6] [1; 1; 2] (7 # 10)) 0%Q
  /\ Qle (FitScoring.PatternMatchVariance [3; 3; 7] [1; 1; 2] (7 # 10))
       (FitScoring.PatternMatchVariance [3; 3; 9] [1; 1; 2] (7 # 10)).
Proof.
  destruct (PatternMatchVariance_fit [1; 1; 2] (7 # 10)) as [Hmul Hmono].
  - discriminate.
  - repeat constructor.
  - vm_compute. discriminate.
  - split.
    + apply (Hmul 3). lia.
    + apply (Hmono [3; 3; 7] 2%nat 7 9 2).
      * reflexivity.
      * repeat constructor; lia.
      * lia.
      * reflexivity.
      * reflexivity.
      * vm_compute. reflexivity.
      * vm_compute. reflexivity.
      * left. split; [vm_compute; discriminate | lia].
      * intros H. vm_compute in H. discriminate H.
Defined.

(* ===================================================================== *)
(** * The sliding-window search as a whole                                 *)
(* ===================================================================== *)

Lemma windows_search_short (N : nat) (match_ : Z -> Z -> Counters -> bool)
    (pos : Z) (rs : list Z) :
  (length rs <= N)%nat -> windows_search N match_ pos rs = None.
Proof.
  intros Hlen. destruct rs as [|r0 rs1]; [reflexivity|].
  cbn [windows_search].
  replace (N <? length (r0 :: rs1))%nat with false
    by (symmetry; apply Nat.ltb_ge; exact Hlen).
  reflexivity.
Qed.

Lemma sumZ_cons (x : Z) (l : list Z) : sumZ (x :: l) = x + sumZ l.
Proof. reflexivity. Qed.

(** The scan from a state whose window holds the widths [ws] and whose
    cursor is at [i] is the search on [ws] followed by the run widths
    from [i] on, when the counter type can hold the widths still to be
    stored. *)
Lemma FindPattern_loop_search {CounterValue : CounterType} (row : Row) (e lo : Z)
    (match_ : Z -> Z -> Counters -> bool) (fuel : nat) :
  e - lo <= counter_max ->
  forall (b i : Z) (ws rest : Counters),
    lo <= i ->
    0 <= i < e -> e <= Z.of_nat (length row) ->
    rest <> [] -> (2 <= length (ws ++ rest))%nat ->
    sumZ ws = i - b ->
    (Z.to_nat (e - i) <= fuel)%nat ->
    exists (range : Range Z) (c : Counters),
      FindPattern_loop fuel row e match_ (mkScan b i i (length ws) (ws ++ rest))
      = Some (range, c)
      /\ length c = length (ws ++ rest)
      /\ match windows_search (length (ws ++ rest)) match_ b
                 (ws ++ runs (slice row i e)) with
         | Some (r, w) => range = r /\ c = w
         | None => range = NotFound e
         end.
Proof.
  intros Hmax.
  induction fuel as [|fuel IH]; intros b i ws rest Hlo Hi He Hrest HN Hsum Hfuel; [lia|].
  destruct rest as [|r0 rest]; [congruence|]. clear Hrest.
  destruct (runs_step row i e Hi He) as [Hi' Hruns]. cbn zeta in Hi', Hruns.
  cbn [FindPattern_loop]. unfold FindPattern_step.
  cbn [s_begin s_li s_i s_cur s_counters].
  set (i' := getNextSetTo row i e (negb (deref row i))) in *.
  cbn [diff it_eqb ForwardIterator].
  rewrite (static_cast_counter_exact (i' - i)) by lia.
  rewrite insert_middle. rewrite Hruns.
  set (N := length (ws ++ r0 :: rest)) in *.
  assert (HNeq : N = (length ws + S (length rest))%nat)
    by (unfold N; rewrite length_app; reflexivity).
  assert (Hlen1 : length (ws ++ (i' - i) :: rest) = N)
    by (rewrite length_app; simpl; lia).
  destruct (i' =? e) eqn:Hend.
  - (* the row is exhausted *)
    eexists _, _. split; [reflexivity|]. split; [exact Hlen1|].
    rewrite windows_search_short; [reflexivity|].
    rewrite length_app. simpl. lia.
  - apply Z.eqb_neq in Hend. rewrite Hlen1.
    assert (Hne : (0 < length (runs (slice row i' e)))%nat).
    { apply runs_nonempty. intros Hnil. apply (f_equal length) in Hnil.
      assert (Hl := slice_length row i' e ltac:(lia) He).
      rewrite Hnil in Hl. simpl in Hl. lia. }
    destruct (S (length ws) =? N)%nat eqn:Hfull.
    + (* a full window *)
      apply Nat.eqb_eq in Hfull.
      assert (rest = []) by (destruct rest; [reflexivity | simpl in HNeq; lia]).
      subst rest.
      assert (Hall : ws ++ (i' - i) :: runs (slice row i' e)
                     = (ws ++ [i' - i]) ++ runs (slice row i' e))
        by (now rewrite <- app_assoc).
      rewrite Hall.
      assert (Hsw : sumZ (ws ++ [i' - i]) = i' - b).
      { rewrite sumZ_app, sumZ_cons. unfold sumZ at 2. simpl. lia. }
      remember (ws ++ [i' - i]) as w eqn:Ew. clear Ew Hall.
      assert (Hw : length w = N) by exact Hlen1.
      assert (Htake : take N (w ++ runs (slice row i' e)) = w)
        by (rewrite take_app_le by lia; now rewrite take_ge by lia).
      destruct w as [|w0 [|w1 w2]]; [simpl in Hw; lia | simpl in Hw; lia|].
      assert (Hw2 : N = S (S (length w2))) by (simpl in Hw; lia).
      assert (Hsearch :
        windows_search N match_ b ((w0 :: w1 :: w2) ++ runs (slice row i' e))
        = if match_ b i' (w0 :: w1 :: w2) then Some (mkRange b i', w0 :: w1 :: w2)
          else windows_search N match_ (b + w0 + w1) (w2 ++ runs (slice row i' e))).
      { change (windows_search N match_ b ((w0 :: w1 :: w2) ++ runs (slice row i' e)))
          with (if (N <? length ((w0 :: w1 :: w2) ++ runs (slice row i' e)))%nat
                then
                  if match_ b (b + sumZ (take N ((w0 :: w1 :: w2) ++ runs (slice row i' e))))
                       (take N ((w0 :: w1 :: w2) ++ runs (slice row i' e)))
                  then Some (mkRange b
                               (b + sumZ (take N ((w0 :: w1 :: w2)
                                                    ++ runs (slice row i' e)))),
                             take N ((w0 :: w1 :: w2) ++ runs (slice row i' e)))
                  else windows_search N match_ (b + w0 + w1)
                         (w2 ++ runs (slice row i' e))
                else None).
        replace (N <? length ((w0 :: w1 :: w2) ++ runs (slice row i' e)))%nat with true
          by (symmetry; apply Nat.ltb_lt; rewrite length_app; lia).
        rewrite Htake, Hsw.
        replace (b + (i' - b)) with i' by lia. reflexivity. }
      rewrite Hsearch.
      destruct (match_ b i' (w0 :: w1 :: w2)) eqn:Hm.
      * eexists _, _. split; [reflexivity|]. split; [exact Hw|]. split; reflexivity.
      * (* rejected: slide by two runs *)
        change (at_ (w0 :: w1 :: w2) 0) with w0.
        change (at_ (w0 :: w1 :: w2) 1) with w1.
        cbn [advance ForwardIterator].
        replace (b + (w0 + w1)) with (b + w0 + w1) by lia.
        rewrite shift_left_2_spec by lia. rewrite Hw.
        change (drop 2 (w0 :: w1 :: w2)) with w2.
        replace (S (length ws) - 2)%nat with (length w2) by lia.
        assert (Hrest2 : drop (N - 2) (w0 :: w1 :: w2) <> []).
        { intros Hnil. apply (f_equal length) in Hnil.
          rewrite length_drop in Hnil. simpl in Hnil. lia. }
        assert (HN2 : length (w2 ++ drop (N - 2) (w0 :: w1 :: w2)) = N).
        { rewrite length_app, length_drop. simpl. lia. }
        destruct (IH (b + w0 + w1) i' w2 (drop (N - 2) (w0 :: w1 :: w2)))
          as (range & c & Hloop & Hc & Hs).
        -- lia.
        -- lia.
        -- assumption.
        -- assumption.
        -- rewrite HN2. lia.
        -- rewrite !sumZ_cons in Hsw. lia.
        -- lia.
        -- rewrite HN2 in Hc, Hs.
           exists range, c. split; [exact Hloop|]. split; [exact Hc | exact Hs].
    + (* the window is not full yet *)
      apply Nat.eqb_neq in Hfull.
      assert (Hrest : rest <> []) by (destruct rest; [simpl in HNeq; lia | congruence]).
      replace (ws ++ (i' - i) :: rest) with ((ws ++ [i' - i]) ++ rest)
        by (now rewrite <- app_assoc).
      replace (S (length ws)) with (length (ws ++ [i' - i]))
        by (rewrite length_app; simpl; lia).
      assert (HN1 : length ((ws ++ [i' - i]) ++ rest) = N)
        by (rewrite !length_app; simpl; lia).
      destruct (IH b i' (ws ++ [i' - i]) rest) as (range & c & Hloop & Hc & Hs).
      * lia.
      * lia.
      * assumption.
      * assumption.
      * rewrite HN1. lia.
      * rewrite sumZ_app, sumZ_cons. unfold sumZ at 2. simpl. lia.
      * lia.
      * rewrite HN1 in Hc, Hs. rewrite <- app_assoc in Hs. cbn [app] in Hs.
        exists range, c. split; [exact Hloop|]. split; [exact Hc | exact Hs].
Qed.

Lemma list_ind2 {A : Type} (P : list A -> Prop) :
  P [] -> (forall x, P [x]) -> (forall x y l, P l -> P (x :: y :: l)) ->
  forall l, P l.
Proof.
  intros H0 H1 H2 l.
  assert (H : P l /\ forall x, P (x :: l)); [|exact (proj1 H)].
  induction l as [|y l [IHa IHb]]; split; auto.
Qed.

Lemma window_start_0 (pos : Z) (rs : list Z) : window_start pos rs 0 = pos.
Proof. unfold window_start. cbn [Nat.mul take]. unfold sumZ. simpl. lia. Qed.

Lemma window_0 (N : nat) (rs : list Z) : window N rs 0 = take N rs.
Proof. reflexivity. Qed.

Lemma window_start_S (pos x y : Z) (l : list Z) (j : nat) :
  window_start pos (x :: y :: l) (S j) = window_start (pos + x + y) l j.
Proof.
  unfold window_start. replace (2 * S j)%nat with (S (S (2 * j))) by lia.
  cbn [take]. rewrite !sumZ_cons. lia.
Qed.

Lemma window_S (N : nat) (x y : Z) (l : list Z) (j : nat) :
  window N (x :: y :: l) (S j) = window N l j.
Proof.
  unfold window. replace (2 * S j)%nat with (S (S (2 * j))) by lia. reflexivity.
Qed.

Lemma accepts_0 (N : nat) (match_ : Z -> Z -> Counters -> bool) (pos : Z) (rs : list Z) :
  accepts N match_ pos rs 0 = match_ pos (pos + sumZ (take N rs)) (take N rs).
Proof. unfold accepts. now rewrite window_start_0, window_0. Qed.

Lemma accepts_S (N : nat) (match_ : Z -> Z -> Counters -> bool) (pos x y : Z)
    (l : list Z) (j : nat) :
  accepts N match_ pos (x :: y :: l) (S j) = accepts N match_ (pos + x + y) l j.
Proof. unfold accepts. now rewrite window_start_S, window_S. Qed.

(** The search returns the first candidate window that is followed by a
    further run and accepted, and nothing when there is none. *)
Lemma windows_search_spec (N : nat) (match_ : Z -> Z -> Counters -> bool) (rs : list Z) :
  forall pos : Z,
    match windows_search N match_ pos rs with
    | Some (r, w) =>
        exists j : nat,
          (2 * j + N < length rs)%nat
          /\ r = mkRange (window_start pos rs j)
                   (window_start pos rs j + sumZ (window N rs j))
          /\ w = window N rs j
          /\ accepts N match_ pos rs j = true
          /\ forall j' : nat, (j' < j)%nat -> accepts N match_ pos rs j' = false
    | None =>
        forall j : nat, (2 * j + N < length rs)%nat -> accepts N match_ pos rs j = false
    end.
Proof.
  induction rs as [|x|x y l IH] using list_ind2; intros pos.
  - cbn [windows_search]. intros j Hj. simpl in Hj. lia.
  - cbn [windows_search].
    destruct (N <? length [x])%nat eqn:HN.
    + apply Nat.ltb_lt in HN. rewrite <- accepts_0.
      destruct (accepts N match_ pos [x] 0) eqn:Hacc.
      * exists 0%nat. rewrite window_start_0, window_0.
        repeat split; [lia | assumption | intros j' Hj'; lia].
      * intros j Hj. simpl in Hj, HN.
        assert (j = 0%nat) by lia. now subst j.
    + apply Nat.ltb_ge in HN. intros j Hj. lia.
  - cbn [windows_search].
    destruct (N <? length (x :: y :: l))%nat eqn:HN.
    + apply Nat.ltb_lt in HN. rewrite <- accepts_0.
      destruct (accepts N match_ pos (x :: y :: l) 0) eqn:Hacc.
      * exists 0%nat. rewrite window_start_0, window_0.
        repeat split; [lia | assumption | intros j' Hj'; lia].
      * specialize (IH (pos + x + y)).
        destruct (windows_search N match_ (pos + x + y) l) as [[r w]|].
        -- destruct IH as (j & Hj & Hr & Hw & Ha & Hmin).
           exists (S j). rewrite window_start_S, window_S, accepts_S.
           repeat split; try assumption.
           ++ simpl. lia.
           ++ intros [|j'] Hj'; [exact Hacc|]. rewrite accepts_S. apply Hmin. lia.
        -- intros [|j] Hj; [exact Hacc|]. rewrite accepts_S. apply IH.
           simpl in Hj. lia.
    + apply Nat.ltb_ge in HN. intros j Hj. lia.
Qed.

Lemma FindPattern_search {CounterValue : CounterType}
    (row : Row) (begin e : Z) (counters : Counters)
    (match_ : Z -> Z -> Counters -> bool) :
  0 <= begin <= e -> e <= Z.of_nat (length row) -> (2 <= length counters)%nat ->
  e - begin <= counter_max ->
  exists (range : Range Z) (c : Counters),
    FindPattern row begin e counters match_ = Some (range, c)
    /\ length c = length counters
    /\ (begin = e -> c = counters)
    /\ match windows_search (length counters) match_ begin (runs (slice row begin e)) with
       | Some (r, w) => range = r /\ c = w
       | None => range = NotFound e
       end.
Proof.
  intros Hb He HN Hmax. unfold FindPattern. cbn [it_eqb diff ForwardIterator].
  destruct (begin =? e) eqn:Hbe.
  - apply Z.eqb_eq in Hbe. subst e. rewrite slice_empty. cbn [runs windows_search].
    eexists _, _. repeat split; reflexivity.
  - apply Z.eqb_neq in Hbe.
    destruct (FindPattern_loop_search row e begin match_ (Z.to_nat (e - begin)) Hmax
                begin begin [] counters) as (range & c & Hloop & Hc & Hs).
    + lia.
    + lia.
    + assumption.
    + intros Hnil. rewrite Hnil in HN. simpl in HN. lia.
    + exact HN.
    + unfold sumZ. simpl. lia.
    + lia.
    + cbn [app length] in Hloop, Hc, Hs.
      exists range, c. repeat split; try assumption. intros Heq. lia.
Qed.

Lemma sumZ_window_end (pos : Z) (N : nat) (rs : list Z) (j : nat) :
  window_start pos rs j + sumZ (window N rs j) = pos + sumZ (take (2 * j + N) rs).
Proof.
  unfold window_start, window. rewrite <- take_take_drop, sumZ_app. lia.
Qed.

Lemma pos_nonneg (l : list Z) :
  Forall (fun x => 0 < x) l -> Forall (fun x => 0 <= x) l.
Proof.
  intros H. eapply Forall_impl; [exact H|]. intros x Hx. simpl in Hx. lia.
Qed.

(** X1.  On a valid range and with at least two counters of a type that
    can hold the length of the range, FindPattern
    terminates, whatever the predicate, and returns the first window that
    the predicate accepts among the candidates: the windows of N
    consecutive runs that start an even number of runs after [begin] and
    are followed by at least one more run of the range.  With no such
    window it returns "not found". *)
Theorem FindPattern_first_accepted_window {CounterValue : CounterType}
    (row : Row) (begin e : Z)
    (counters : Counters) (match_ : Z -> Z -> Counters -> bool) :
  0 <= begin <= e -> e <= Z.of_nat (length row) -> (2 <= length counters)%nat ->
  e - begin <= counter_max ->
  let rs := runs (slice row begin e) in
  let N := length counters in
  exists (range : Range Z) (c : Counters),
    FindPattern row begin e counters match_ = Some (range, c)
    /\ length c = N
    /\ ((exists j : nat,
            (2 * j + N < length rs)%nat
            /\ range = mkRange (window_start begin rs j)
                         (window_start begin rs j + sumZ (window N rs j))
            /\ c = window N rs j
            /\ accepts N match_ begin rs j = true
            /\ forall j' : nat, (j' < j)%nat -> accepts N match_ begin rs j' = false)
        \/ (range = NotFound e
            /\ forall j : nat,
                 (2 * j + N < length rs)%nat -> accepts N match_ begin rs j = false)).
Proof.
  intros Hb He HN Hmax rs N.
  destruct (FindPattern_search row begin e counters match_ Hb He HN Hmax)
    as (range & c & Hfind & Hc & _ & Hs).
  exists range, c. split; [exact Hfind|]. split; [exact Hc|].
  fold rs N in Hs.
  assert (Hspec := windows_search_spec N match_ rs begin).
  destruct (windows_search N match_ begin rs) as [[r w]|].
  - left. destruct Hs as [-> ->]. exact Hspec.
  - right. split; [exact Hs | exact Hspec].
Qed.

Lemma FindPattern_first_accepted_window_witness :
  exists (range : Range Z) (c : Counters),
    FindPattern [true; false; false; true; false; false; false; true; false] 0 9
      [0; 0] (fun _ _ c => at_ c 0 <? at_ c 1)
    = Some (range, c)
    /\ length c = 2%nat.
Proof.
  destruct (FindPattern_first_accepted_window
              [true; false; false; true; false; false; false; true; false] 0 9
              [0; 0] (fun _ _ c => at_ c 0 <? at_ c 1))
    as (range & c & Hfind & Hc & _).
  - lia.
  - simpl. lia.
  - simpl. lia.
  - vm_compute. discriminate.
  - exists range, c. split; assumption.
Defined.

(** X2.  A window found by FindPattern, with counters of a type that can
    hold the length of the scanned range, satisfies the predicate, its
    counters are positive and add up to its length, and it lies inside the
    scanned range without reaching its end: [begin <= range.begin <
    range.end < end]. *)
Theorem FindPattern_window_invariant {CounterValue : CounterType}
    (row : Row) (begin e : Z)
    (counters : Counters) (match_ : Z -> Z -> Counters -> bool)
    (range : Range Z) (c : Counters) :
  0 <= begin <= e -> e <= Z.of_nat (length row) -> (2 <= length counters)%nat ->
  e - begin <= counter_max ->
  FindPattern row begin e counters match_ = Some (range, c) ->
  range <> NotFound e ->
  match_ (r_begin range) (r_end range) c = true
  /\ length c = length counters
  /\ Forall (fun x => 0 < x) c
  /\ sumZ c = r_end range - r_begin range
  /\ begin <= r_begin range < r_end range
  /\ r_end range < e.
Proof.
  intros Hb He HN Hmax Hfind Hfound.
  destruct (FindPattern_search row begin e counters match_ Hb He HN Hmax)
    as (range' & c' & Hfind' & Hc & _ & Hs).
  rewrite Hfind in Hfind'. injection Hfind' as <- <-.
  set (rs := runs (slice row begin e)) in *. set (N := length counters) in *.
  assert (Hspec := windows_search_spec N match_ rs begin).
  destruct (windows_search N match_ begin rs) as [[r w]|]; [|contradiction].
  destruct Hs as [-> ->]. destruct Hspec as (j & Hj & -> & -> & Hacc & _).
  assert (Hpos : Forall (fun x => 0 < x) rs) by apply runs_pos.
  assert (Hsum : sumZ rs = e - begin).
  { unfold rs. rewrite runs_sum. apply slice_length; lia. }
  assert (Hwpos : Forall (fun x => 0 < x) (window N rs j)).
  { unfold window. now apply Forall_take, Forall_drop. }
  assert (Hwlen : length (window N rs j) = N).
  { unfold window. rewrite length_take, length_drop. lia. }
  assert (Hw0 : 0 < sumZ (window N rs j)).
  { apply sumZ_pos; [exact Hwpos|]. intros Hnil. rewrite Hnil in Hwlen.
    simpl in Hwlen. lia. }
  assert (Hs0 : 0 <= sumZ (take (2 * j) rs)).
  { apply sumZ_nonneg, pos_nonneg. now apply Forall_take. }
  assert (Hend := sumZ_window_end begin N rs j).
  assert (Hlt := sumZ_take_lt (2 * j + N) rs Hpos Hj).
  cbn [r_begin r_end]. unfold accepts in Hacc.
  repeat split; try assumption; unfold window_start in *; lia.
Qed.

Lemma FindPattern_window_invariant_witness :
  (fun _ _ c => at_ c 0 + 1 <? at_ c 1) 3 7 [1; 3] = true
  /\ length [1; 3] = length [0; 0]
  /\ Forall (fun x => 0 < x) [1; 3]
  /\ sumZ [1; 3] = 7 - 3
  /\ 0 <= 3 < 7
  /\ 7 < 9.
Proof.
  apply (FindPattern_window_invariant
           [true; false; false; true; false; false; false; true; false] 0 9
           [0; 0] (fun _ _ c => at_ c 0 + 1 <? at_ c 1) (mkRange 3 7) [1; 3]).
  - lia.
  - simpl. lia.
  - simpl. lia.
  - vm_compute. discriminate.
  - reflexivity.
  - discriminate.
Defined.

(** X3.  FindPattern needs a run after the window: when the range has at
    most N runs (an empty range included) it returns "not found" whatever
    the predicate, even for a pattern that fills the range exactly; and on
    an empty range the counters come back untouched. *)
Theorem FindPattern_needs_following_run {CounterValue : CounterType}
    (row : Row) (begin e : Z)
    (counters : Counters) (match_ : Z -> Z -> Counters -> bool) :
  0 <= begin <= e -> e <= Z.of_nat (length row) -> (2 <= length counters)%nat ->
  (length (runs (slice row begin e)) <= length counters)%nat ->
  exists c : Counters,
    FindPattern row begin e counters match_ = Some (NotFound e, c)
    /\ (begin = e -> c = counters).
Proof.
  intros Hb He HN Hk. unfold FindPattern. cbn [it_eqb diff ForwardIterator].
  destruct (begin =? e) eqn:Hbe.
  - eexists. split; reflexivity.
  - apply Z.eqb_neq in Hbe.
    rewrite (FindPattern_loop_runs row e match_ _ begin begin [] counters).
    + cbn [app]. replace (length counters <? length (runs (slice row begin e)))%nat
        with false by (symmetry; apply Nat.ltb_ge; exact Hk).
      eexists. split; [reflexivity | lia].
    + lia.
    + assumption.
    + intros Hnil. rewrite Hnil in HN. simpl in HN. lia.
    + lia.
    + lia.
Qed.

Lemma FindPattern_needs_following_run_witness :
  exists c : Counters,
    FindPattern [true; false; false; true] 0 4 [0; 0; 0] (fun _ _ _ => true)
    = Some (NotFound 4, c)
    /\ (0 = 4 -> c = [0; 0; 0]).
Proof.
  apply (FindPattern_needs_following_run [true; false; false; true] 0 4 [0; 0; 0]
           (fun _ _ _ => true)).
  - lia.
  - simpl. lia.
  - simpl. lia.
  - simpl. lia.
Defined.

(** X4.  For every predicate, FindPattern on reverse iterators is
    FindPattern on the reversed row with plain iterators: each reverse
    iterator with base [p] corresponds to position [len - p], the counters
    are the same and the returned ranges correspond, when the predicate of
    the forward scan is the given predicate on the corresponding reverse
    iterators. *)
Theorem FindPattern_reverse_iterators {CounterValue : CounterType}
    (row : Row) (rbegin rend : reverse_iterator) (counters : Counters)
    (match_r : reverse_iterator -> reverse_iterator -> Counters -> bool) :
  let len := Z.of_nat (length row) in
  FindPattern (reverse row) (fwd_pos len rbegin) (fwd_pos len rend) counters
    (fun a z c => match_r (mkReverse (len - a)) (mkReverse (len - z)) c)
  = fwd_result len (FindPattern row rbegin rend counters match_r).
Proof.
  intros len. subst len. apply FindPattern_reverse.
  intros [a] [b] c. unfold fwd_pos. cbn [base].
  replace (Z.of_nat (length row) - (Z.of_nat (length row) - a)) with a by lia.
  replace (Z.of_nat (length row) - (Z.of_nat (length row) - b)) with b by lia.
  reflexivity.
Qed.

Example FindPattern_reverse_iterators_ex :
  FindPattern [false; true; false; false; true; true; true; false]
    (mkReverse 8) (mkReverse 0) [0; 0]
    (fun _ _ c => at_ c 1 <? at_ c 0)
  = Some (mkRange (mkReverse 4) (mkReverse 1), [2; 1]).
Proof. reflexivity. Qed.

(* ===================================================================== *)
(** * More on run extraction                                               *)
(* ===================================================================== *)

Lemma back_app (l1 l2 : Counters) : l2 <> [] -> back (l1 ++ l2) = back l2.
Proof.
  intros Hne. unfold back, at_. rewrite length_app.
  assert (0 < length l2)%nat by (destruct l2; [congruence | simpl; lia]).
  rewrite lookup_app_r by lia. do 2 f_equal. lia.
Qed.

Lemma fill_full (slots rs : list Z) :
  (length slots <= length rs)%nat -> fill slots rs = take (length slots) rs.
Proof. intros Hle. unfold fill. rewrite drop_ge by lia. apply app_nil_r. Qed.

Lemma fill_short (slots rs : list Z) :
  (length rs <= length slots)%nat -> fill slots rs = rs ++ drop (length rs) slots.
Proof. intros Hle. unfold fill. now rewrite take_ge by lia. Qed.

(** The runs after the first [n] runs of a range. *)
Lemma runs_slice_drop (row : Row) (b e : Z) :
  0 <= b <= e -> e <= Z.of_nat (length row) ->
  forall n : nat,
    (n < length (runs (slice row b e)))%nat ->
    b + sumZ (take n (runs (slice row b e))) < e
    /\ runs (slice row (b + sumZ (take n (runs (slice row b e)))) e)
       = drop n (runs (slice row b e)).
Proof.
  intros Hb He. set (rs := runs (slice row b e)).
  assert (Hpos : Forall (fun x => 0 < x) rs) by apply runs_pos.
  assert (Hsum : sumZ rs = e - b).
  { unfold rs. rewrite runs_sum. apply slice_length; lia. }
  induction n as [|n IH]; intros Hn.
  - cbn [take drop]. unfold sumZ at 1 2. cbn [foldr].
    rewrite Z.add_0_r. split; [|reflexivity].
    assert (0 < sumZ rs); [|lia].
    apply sumZ_pos; [exact Hpos|]. intros Hnil. rewrite Hnil in Hn. simpl in Hn. lia.
  - destruct IH as [Hlt Hruns]; [lia|].
    set (p := b + sumZ (take n rs)) in *.
    assert (Hs0 : 0 <= sumZ (take n rs)).
    { apply sumZ_nonneg, pos_nonneg. now apply Forall_take. }
    destruct (runs_step row p e ltac:(lia) He) as [Hp' Hstep]. cbn zeta in Hp', Hstep.
    set (p' := getNextSetTo row p e (negb (deref row p))) in *.
    destruct (rs !! n) as [x|] eqn:Hx; [|apply lookup_ge_None in Hx; lia].
    rewrite Hruns, (drop_S rs x n Hx) in Hstep.
    injection Hstep as Hx' Hrest.
    assert (Hpe : b + sumZ (take (S n) rs) = p').
    { rewrite (take_S_r rs n x Hx), sumZ_app. change (sumZ [x]) with (x + 0).
      unfold p in *. lia. }
    rewrite Hpe.
    assert (Hne : drop (S n) rs <> []).
    { intros Hnil. apply (f_equal length) in Hnil.
      rewrite length_drop in Hnil. simpl in Hnil. lia. }
    destruct (p' =? e) eqn:Hend; [congruence|].
    apply Z.eqb_neq in Hend. split; [lia | now symmetry].
Qed.

(** X5.  What RecordPattern records into counters of a type that can hold
    the length of the range, by the number k of runs of the range.
    With more than N runs: the first N run widths, and the range they
    cover, which ends before [end].  With fewer than N runs: "not found",
    the first k counters hold the k run widths, the last counter is 0 and
    the counters in between are left as they were. *)
Theorem RecordPattern_first_runs {CounterValue : CounterType}
    (row : Row) (begin e : Z) (counters : Counters) :
  0 <= begin <= e -> e <= Z.of_nat (length row) -> counters <> [] ->
  e - begin <= counter_max ->
  let rs := runs (slice row begin e) in
  let k := length rs in
  let N := length counters in
  exists (range : Range Z) (c : Counters),
    RecordPattern row begin e counters = Some (range, c)
    /\ ((N < k)%nat ->
        range = mkRange begin (begin + sumZ (take N rs))
        /\ c = take N rs
        /\ begin < r_end range < e)
    /\ ((k < N)%nat ->
        range = NotFound e
        /\ take k c = rs
        /\ c !! pred N = Some 0
        /\ forall i : nat, (k <= i < pred N)%nat -> c !! i = counters !! i).
Proof.
  intros Hb He Hne Hmax rs k N.
  eexists _, _. split; [now apply RecordPattern_runs|]. fold rs k N.
  assert (HN : (0 < N)%nat) by (unfold N; destruct counters; [congruence | simpl; lia]).
  assert (Hpos : Forall (fun x => 0 < x) rs) by apply runs_pos.
  assert (Hsum : sumZ rs = e - begin).
  { unfold rs. rewrite runs_sum. apply slice_length; lia. }
  assert (Hl0 : length (set_back counters 0) = N) by apply set_back_length.
  split.
  - intros Hlt.
    replace (N <? k)%nat with true by (symmetry; apply Nat.ltb_lt; lia).
    rewrite fill_full by (rewrite Hl0; fold k; lia). rewrite Hl0.
    repeat split. cbn [r_end].
    + assert (0 < sumZ (take N rs)); [|lia].
      apply sumZ_pos; [now apply Forall_take|].
      intros Hnil. apply (f_equal length) in Hnil.
      rewrite length_take in Hnil. simpl in Hnil. fold k in Hnil. lia.
    + cbn [r_end]. assert (Hs := sumZ_take_lt N rs Hpos Hlt). lia.
  - intros Hlt.
    replace (N <? k)%nat with false by (symmetry; apply Nat.ltb_ge; lia).
    replace (N =? k)%nat with false by (symmetry; apply Nat.eqb_neq; lia).
    rewrite fill_short by (rewrite Hl0; fold k; lia). fold k.
    split; [reflexivity|]. split; [|split].
    + apply take_app_length'. reflexivity.
    + rewrite lookup_app_r by (fold k; lia). fold k.
      rewrite lookup_drop. replace (k + (pred N - k))%nat with (pred N) by lia.
      unfold set_back. fold N. apply list_lookup_insert_eq. fold N. lia.
    + intros i Hi. rewrite lookup_app_r by (fold k; lia). fold k.
      rewrite lookup_drop. replace (k + (i - k))%nat with i by lia.
      unfold set_back. fold N. apply list_lookup_insert_ne. lia.
Qed.

Lemma RecordPattern_first_runs_witness :
  exists (range : Range Z) (c : Counters),
    RecordPattern [true; true; false; true; false; false] 0 6 [7; 7; 7; 7; 7; 7]
    = Some (range, c)
    /\ ((6 < 4)%nat ->
        range = mkRange 0 (0 + sumZ (take 6 [2; 1; 1; 2]))
        /\ c = take 6 [2; 1; 1; 2]
        /\ 0 < r_end range < 6)
    /\ ((4 < 6)%nat ->
        range = NotFound 6
        /\ take 4 c = [2; 1; 1; 2]
        /\ c !! pred 6 = Some 0
        /\ forall i : nat, (4 <= i < pred 6)%nat -> c !! i = [7; 7; 7; 7; 7; 7] !! i).
Proof.
  apply (RecordPattern_first_runs [true; true; false; true; false; false] 0 6
           [7; 7; 7; 7; 7; 7]).
  - lia.
  - simpl. lia.
  - discriminate.
  - vm_compute. discriminate.
Defined.

(** X6.  Consecutive calls compose: when RecordPattern fills [c1] from
    [begin] and a second call fills [c2] from where the first range ends,
    both successfully, then one call with the counters [c1 ++ c2] from
    [begin] returns the two ranges joined and the two counter arrays
    concatenated. *)
Theorem RecordPattern_compose {CounterValue : CounterType}
    (row : Row) (begin e : Z) (c1 c2 w1 w2 : Counters) (r1 r2 : Range Z) :
  0 <= begin <= e -> e <= Z.of_nat (length row) -> c1 <> [] -> c2 <> [] ->
  RecordPattern row begin e c1 = Some (r1, w1) -> r1 <> NotFound e ->
  RecordPattern row (r_end r1) e c2 = Some (r2, w2) -> r2 <> NotFound e ->
  RecordPattern row begin e (c1 ++ c2) = Some (mkRange begin (r_end r2), w1 ++ w2).
Proof.
  intros Hb He Hc1 Hc2 H1 Hr1 H2 Hr2.
  set (rs := runs (slice row begin e)) in *.
  assert (HN1 : (0 < length c1)%nat) by (destruct c1; [congruence | simpl; lia]).
  assert (HN2 : (0 < length c2)%nat) by (destruct c2; [congruence | simpl; lia]).
  assert (Hne : c1 ++ c2 <> []) by (destruct c1; [congruence | discriminate]).
  assert (Hpos : Forall (fun x => 0 < x) rs) by apply runs_pos.
  assert (E1 := RecordPattern_stored row begin e c1 Hb He Hc1). fold rs in E1.
  rewrite H1 in E1. injection E1 as Er1 Ew1.
  rewrite (RecordPattern_stored row begin e (c1 ++ c2) Hb He Hne). fold rs.
  rewrite length_app.
  destruct (length c1 <? length rs)%nat eqn:Hlt1.
  - apply Nat.ltb_lt in Hlt1.
    destruct (runs_slice_drop row begin e Hb He (length c1) Hlt1) as [Hmid Hdrop].
    fold rs in Hmid, Hdrop.
    assert (Hs0 : 0 <= sumZ (take (length c1) rs)).
    { apply sumZ_nonneg, pos_nonneg. now apply Forall_take. }
    subst r1. cbn [r_end] in H2.
    set (mid := begin + sumZ (take (length c1) rs)) in *.
    assert (E2 := RecordPattern_stored row mid e c2 ltac:(lia) He Hc2).
    rewrite Hdrop, H2, length_drop in E2. injection E2 as Er2 Ew2.
    rewrite fill_full in Ew1 by (rewrite set_back_length, length_map; lia).
    rewrite set_back_length in Ew1.
    assert (HN2k : (length c2 <= length rs - length c1)%nat).
    { destruct (Nat.le_gt_cases (length c2) (length rs - length c1)) as [Hle | Hgt];
        [assumption|].
      exfalso.
      replace (length c2 <? length rs - length c1)%nat with false in Er2
        by (symmetry; apply Nat.ltb_ge; lia).
      rewrite back_fill_map_short in Er2 by (rewrite set_back_length, length_drop; lia).
      rewrite back_set_back in Er2 by assumption.
      rewrite Z.eqb_refl in Er2. contradiction. }
    rewrite fill_full in Er2, Ew2 |- *
      by (rewrite set_back_length, length_map, ?length_drop, ?length_app; lia).
    rewrite set_back_length in Er2, Ew2 |- *. rewrite length_app.
    rewrite <- skipn_map in Er2, Ew2.
    rewrite <- (take_take_drop (map static_cast_counter rs) (length c1) (length c2)).
    rewrite <- Ew1, <- Ew2.
    destruct (length c2 <? length rs - length c1)%nat eqn:Hlt2.
    + apply Nat.ltb_lt in Hlt2.
      replace (length c1 + length c2 <? length rs)%nat with true
        by (symmetry; apply Nat.ltb_lt; lia).
      subst r2. cbn [r_end].
      rewrite <- (take_take_drop rs (length c1) (length c2)), sumZ_app.
      replace (begin + (sumZ (take (length c1) rs)
                        + sumZ (take (length c2) (drop (length c1) rs))))
        with (mid + sumZ (take (length c2) (drop (length c1) rs)))
        by (unfold mid; lia).
      reflexivity.
    + apply Nat.ltb_ge in Hlt2.
      replace (length c1 + length c2 <? length rs)%nat with false
        by (symmetry; apply Nat.ltb_ge; lia).
      assert (Hw2 : w2 <> []).
      { intros Hnil. apply (f_equal length) in Hnil.
        rewrite Ew2, length_take, length_drop, length_map in Hnil.
        simpl in Hnil. lia. }
      rewrite back_app by exact Hw2.
      rewrite <- Ew2 in Er2.
      destruct (back w2 =? 0); [contradiction|].
      subst r2. reflexivity.
  - exfalso.
    destruct (back (fill (set_back c1 0) (map static_cast_counter rs)) =? 0);
      [contradiction|].
    subst r1. cbn [r_end] in H2.
    assert (E2 := RecordPattern_stored row e e c2 ltac:(lia) He Hc2).
    rewrite H2, slice_empty in E2. cbn [runs length map] in E2.
    replace (length c2 <? 0)%nat with false in E2 by (symmetry; apply Nat.ltb_ge; lia).
    rewrite fill_nil_r, back_set_back, Z.eqb_refl in E2 by assumption.
    injection E2 as Er2 _. contradiction.
Qed.

Lemma RecordPattern_compose_witness :
  RecordPattern [true; true; false; true; false; false; true] 0 7 ([0; 0] ++ [0; 0])
  = Some (mkRange 0 (r_end (mkRange 3 6)), [2; 1] ++ [1; 2]).
Proof.
  apply (RecordPattern_compose [true; true; false; true; false; false; true] 0 7
           [0; 0] [0; 0] [2; 1] [1; 2] (mkRange 0 3) (mkRange 3 6)).
  - lia.
  - simpl. lia.
  - discriminate.
  - discriminate.
  - reflexivity.
  - discriminate.
  - reflexivity.
  - discriminate.
Defined.

(** *** Run widths of a reversed range *)

Lemma runs_from_shift (cur : bool) (w d : Z) (l : list bool) :
  runs_from cur (w + d) l = add_head d (runs_from cur w l).
Proof.
  revert w. induction l as [|b l IH]; intros w; cbn [runs_from].
  - reflexivity.
  - destruct (eqb b cur); [|reflexivity].
    replace (w + d + 1) with (w + 1 + d) by lia. apply IH.
Qed.

Lemma runs_cons_cons (a b : bool) (l : list bool) :
  runs (a :: b :: l)
  = if eqb b a then add_head 1 (runs (b :: l)) else 1 :: runs (b :: l).
Proof.
  cbn [runs runs_from]. destruct (eqb b a) eqn:E; [|reflexivity].
  apply eqb_prop in E. subst b. apply (runs_from_shift a 1 1 l).
Qed.

Lemma add_last_snoc (d x : Z) (rs : list Z) : add_last d (rs ++ [x]) = rs ++ [x + d].
Proof.
  induction rs as [|r rs IH]; [reflexivity|].
  cbn [app add_last]. rewrite IH. destruct rs; reflexivity.
Qed.

Lemma add_head_add_last (d d' : Z) (rs : list Z) :
  add_head d (add_last d' rs) = add_last d' (add_head d rs).
Proof.
  destruct rs as [|x [|y rs]]; cbn [add_head add_last]; [reflexivity | f_equal; lia |].
  reflexivity.
Qed.

Lemma add_head_app (d : Z) (rs rs' : list Z) :
  rs <> [] -> add_head d (rs ++ rs') = add_head d rs ++ rs'.
Proof. destruct rs; [congruence | reflexivity]. Qed.

Lemma add_last_cons (d x : Z) (rs : list Z) :
  rs <> [] -> add_last d (x :: rs) = x :: add_last d rs.
Proof. destruct rs; [congruence | reflexivity]. Qed.

Lemma reverse_add_head (d : Z) (rs : list Z) :
  reverse (add_head d rs) = add_last d (reverse rs).
Proof.
  destruct rs as [|x rs]; [reflexivity|].
  cbn [add_head]. rewrite !reverse_cons. now rewrite add_last_snoc.
Qed.

Lemma runs_cons_nonempty (b : bool) (l : list bool) : runs (b :: l) <> [].
Proof.
  intros Hnil. assert (H := runs_from_nonempty b 1 l).
  cbn [runs] in Hnil. rewrite Hnil in H. simpl in H. lia.
Qed.

(** Appending a pixel widens the last run or opens a new one. *)
Lemma runs_snoc (l : list bool) (a b : bool) :
  runs ((l ++ [a]) ++ [b])
  = if eqb a b then add_last 1 (runs (l ++ [a])) else runs (l ++ [a]) ++ [1].
Proof.
  induction l as [|x l IH].
  - cbn [app]. rewrite runs_cons_cons. cbn [runs runs_from add_head add_last].
    destruct a, b; reflexivity.
  - cbn [app].
    destruct (l ++ [a]) as [|y l'] eqn:El; [now destruct l|].
    cbn [app] in IH |- *.
    rewrite !runs_cons_cons, IH.
    assert (Hne := runs_cons_nonempty y l').
    destruct (eqb y x), (eqb a b).
    + apply add_head_add_last.
    + now apply add_head_app.
    + symmetry. now apply add_last_cons.
    + reflexivity.
Qed.

Lemma runs_reverse (l : list bool) : runs (reverse l) = reverse (runs l).
Proof.
  induction l as [|a l IH]; [reflexivity|].
  destruct l as [|b l].
  - reflexivity.
  - rewrite (reverse_cons (b :: l) a). rewrite (reverse_cons l b) in IH |- *.
    rewrite runs_snoc, IH, runs_cons_cons.
    destruct (eqb b a).
    + now rewrite reverse_add_head.
    + now rewrite reverse_cons.
Qed.

Lemma slice_reverse (row : Row) (b e : Z) :
  0 <= b <= e -> e <= Z.of_nat (length row) ->
  slice (reverse row) (Z.of_nat (length row) - e) (Z.of_nat (length row) - b)
  = reverse (slice row b e).
Proof.
  intros Hb He. unfold slice.
  replace (Z.of_nat (length row) - b - (Z.of_nat (length row) - e)) with (e - b) by lia.
  rewrite drop_reverse, take_reverse, length_take.
  replace (length row - Z.to_nat (Z.of_nat (length row) - e))%nat with (Z.to_nat e) by lia.
  replace (Z.to_nat e `min` length row - Z.to_nat (e - b))%nat with (Z.to_nat b) by lia.
  f_equal. rewrite take_drop_commute. do 2 f_equal. lia.
Qed.

Lemma sumZ_reverse (l : list Z) : sumZ (reverse l) = sumZ l.
Proof.
  induction l as [|x l IH]; [reflexivity|].
  rewrite reverse_cons, sumZ_app, IH, sumZ_cons. unfold sumZ at 2. simpl. lia.
Qed.

(** X7.  What RecordPatternInReverse records into counters of a type that
    can hold the length of the range, by the number k of runs of
    the range [[begin, end)].  With more than N runs: the last N run widths
    of the range, in row order, and the range they cover, which ends at
    [end].  With exactly N runs: all of them and the whole range.  With
    fewer: the empty range [{begin, begin}]; the run widths are in the last
    k counters and the first counter is 0. *)
Theorem RecordPatternInReverse_last_runs {CounterValue : CounterType}
    (row : Row) (begin e : Z) (counters : Counters) :
  0 <= begin <= e -> e <= Z.of_nat (length row) -> counters <> [] ->
  e - begin <= counter_max ->
  let rs := runs (slice row begin e) in
  let k := length rs in
  let N := length counters in
  exists (range : Range Z) (c : Counters),
    RecordPatternInReverse row begin e counters = Some (range, c)
    /\ length c = N
    /\ ((N < k)%nat ->
        range = mkRange (e - sumZ (drop (k - N) rs)) e /\ c = drop (k - N) rs)
    /\ (N = k -> range = mkRange begin e /\ c = rs)
    /\ ((k < N)%nat ->
        range = mkRange begin begin /\ drop (N - k) c = rs /\ c !! 0%nat = Some 0).
Proof.
  intros Hb He Hne Hmax. cbn zeta.
  assert (HN : (0 < length counters)%nat)
    by (destruct counters; [congruence | simpl; lia]).
  assert (Hl0 : length (set_back counters 0) = length counters)
    by apply set_back_length.
  rewrite RecordPatternInReverse_spec.
  rewrite (RecordPattern_runs (reverse row) (Z.of_nat (length row) - e)
             (Z.of_nat (length row) - begin) counters)
    by (rewrite ?length_reverse; (assumption || lia)).
  rewrite slice_reverse by assumption.
  rewrite runs_reverse. rewrite length_reverse.
  generalize (runs (slice row begin e)). intros rs.
  eexists _, _. split; [reflexivity|].
  split; [now rewrite length_reverse, fill_length|].
  split; [|split].
  - intros Hlt.
    replace (length counters <? length rs)%nat with true
      by (symmetry; apply Nat.ltb_lt; lia).
    rewrite fill_full by (rewrite Hl0, length_reverse; lia).
    rewrite Hl0, take_reverse, reverse_involutive.
    unfold mirror. cbn [r_begin r_end]. rewrite sumZ_reverse.
    split; [f_equal; lia | reflexivity].
  - intros Heq.
    replace (length counters <? length rs)%nat with false
      by (symmetry; apply Nat.ltb_ge; lia).
    replace (length counters =? length rs)%nat with true
      by (symmetry; apply Nat.eqb_eq; lia).
    rewrite fill_full by (rewrite Hl0, length_reverse; lia).
    rewrite Hl0, take_ge by (rewrite length_reverse; lia).
    rewrite reverse_involutive.
    unfold mirror. cbn [r_begin r_end].
    split; [f_equal; lia | reflexivity].
  - intros Hlt.
    replace (length counters <? length rs)%nat with false
      by (symmetry; apply Nat.ltb_ge; lia).
    replace (length counters =? length rs)%nat with false
      by (symmetry; apply Nat.eqb_neq; lia).
    rewrite fill_short by (rewrite Hl0, length_reverse; lia).
    rewrite length_reverse.
    rewrite reverse_app, reverse_involutive.
    unfold mirror, NotFound. cbn [r_begin r_end].
    split; [f_equal; lia|]. split.
    + apply drop_app_length'. rewrite length_reverse, length_drop, Hl0. reflexivity.
    + rewrite lookup_app_l by (rewrite length_reverse, length_drop, Hl0; lia).
      rewrite reverse_lookup by (rewrite length_drop, Hl0; lia).
      rewrite length_drop, Hl0, lookup_drop.
      replace (length rs + (length counters - length rs - 1))%nat
        with (pred (length counters)) by lia.
      unfold set_back. apply list_lookup_insert_eq. lia.
Qed.

Lemma RecordPatternInReverse_last_runs_witness :
  exists (range : Range Z) (c : Counters),
    RecordPatternInReverse [true; true; false; true; false; false; true] 1 7 [9; 9; 9]
    = Some (range, c)
    /\ length c = 3%nat
    /\ ((3 < 5)%nat ->
        range = mkRange (7 - sumZ (drop (5 - 3) [1; 1; 1; 2; 1])) 7
        /\ c = drop (5 - 3) [1; 1; 1; 2; 1])
    /\ (3%nat = 5%nat -> range = mkRange 1 7 /\ c = [1; 1; 1; 2; 1])
    /\ ((5 < 3)%nat ->
        range = mkRange 1 1 /\ drop (3 - 5) c = [1; 1; 1; 2; 1] /\ c !! 0%nat = Some 0).
Proof.
  apply (RecordPatternInReverse_last_runs
           [true; true; false; true; false; false; true] 1 7 [9; 9; 9]).
  - lia.
  - simpl. lia.
  - discriminate.
  - vm_compute. discriminate.
Defined.

(* ===================================================================== *)
(** * More on digit resolution                                             *)
(* ===================================================================== *)

Section DecodeDigitInvariant.
Variable pmv : Counters -> list Z -> Q -> Q.
Variable counters : Counters.
Variable maxAvg maxInd : Q.

Lemma digit_inv_init (req : bool) :
  digit_inv pmv counters maxAvg maxInd req [] (mkDigit maxAvg INVALID_MATCH).
Proof.
  unfold digit_inv. cbn [bestVariance bestMatch]. split; [|split].
  - intros p Hp. now apply elem_of_nil in Hp.
  - lra.
  - now left.
Qed.

Lemma digit_inv_step (req : bool) (seen : list (list Z)) (st : DigitState)
    (p : list Z) :
  Z.of_nat (length seen) < 2 ^ 31 ->
  digit_inv pmv counters maxAvg maxInd req seen st ->
  digit_inv pmv counters maxAvg maxInd req (seen ++ [p])
    (DecodeDigit_step pmv counters maxInd req st (length seen) p).
Proof.
  intros Hlen (Hall & Hmax & Hm). unfold digit_inv.
  assert (Hin : forall q, q ∈ seen ++ [p] -> q ∈ seen \/ q = p).
  { intros q Hq. apply elem_of_app in Hq as [Hq | Hq]; [now left|].
    apply elem_of_cons in Hq as [-> | Hq]; [now right|]. now apply elem_of_nil in Hq. }
  assert (Hlk : forall j pj, (seen ++ [p]) !! j = Some pj ->
                  ((j < length seen)%nat /\ seen !! j = Some pj)
                  \/ (j = length seen /\ pj = p)).
  { intros j pj Hj. destruct (decide (j < length seen)%nat) as [Hlt | Hge].
    - left. split; [exact Hlt|]. now rewrite lookup_app_l in Hj.
    - right. rewrite lookup_app_r in Hj by lia.
      destruct (j - length seen)%nat as [|n] eqn:En; simpl in Hj; [|discriminate].
      injection Hj as <-. split; [lia | reflexivity]. }
  destruct (step_cases pmv counters maxInd req st (length seen) p)
    as [[Hlt ->] | [(Hr & Heq & ->) | (Hge & Hne & ->)]]; cbn [bestVariance bestMatch].
  - (* a strictly better score *)
    split; [|split].
    + intros q Hq. destruct (Hin q Hq) as [Hs | ->]; [|lra].
      specialize (Hall q Hs). lra.
    + lra.
    + right. exists (length seen), p.
      rewrite static_cast_int_small by lia.
      split; [reflexivity|]. split; [|split; [reflexivity | split; [lra|]]].
      * rewrite lookup_app_r by lia. now rewrite Nat.sub_diag.
      * intros _ j pj Hj Hpj. destruct (Hlk j pj Hpj) as [[_ Hs] | [-> _]]; [|congruence].
        assert (Hq : pj ∈ seen) by (eapply list_elem_of_lookup_2; exact Hs).
        specialize (Hall pj Hq). lra.
  - (* a tie invalidates the match *)
    split; [|split; [exact Hmax | now left]].
    intros q Hq. destruct (Hin q Hq) as [Hs | ->]; [now apply Hall | lra].
  - (* nothing changes *)
    split; [|split; [exact Hmax|]].
    + intros q Hq. destruct (Hin q Hq) as [Hs | ->]; [now apply Hall | exact Hge].
    + destruct Hm as [Hinv | (a & pa & Ha & Hpa & Hsc & Hbelow & Hstrict)]; [now left|].
      right. exists a, pa. split; [exact Ha|]. split; [|split; [exact Hsc | split; [exact Hbelow|]]].
      * rewrite lookup_app_l; [exact Hpa|]. eapply lookup_lt_Some; exact Hpa.
      * intros Hreq j pj Hj Hpj.
        destruct (Hlk j pj Hpj) as [[_ Hs] | [_ ->]]; [now apply (Hstrict Hreq j)|].
        specialize (Hne Hreq).
        destruct (Qlt_le_dec (bestVariance st) (pmv counters p maxInd)) as [Hl | Hl];
          [exact Hl|].
        exfalso. apply Hne. lra.
Qed.

Lemma digit_inv_loop (req : bool) (ps : list (list Z)) :
  forall (seen : list (list Z)) (st : DigitState),
    Z.of_nat (length seen + length ps) <= 2 ^ 31 ->
    digit_inv pmv counters maxAvg maxInd req seen st ->
    digit_inv pmv counters maxAvg maxInd req (seen ++ ps)
      (DecodeDigit_loop pmv counters maxInd req (length seen) ps st).
Proof.
  induction ps as [|p ps IH]; intros seen st Hlen Hinv.
  - now rewrite app_nil_r.
  - cbn [DecodeDigit_loop]. cbn [length] in Hlen.
    replace (seen ++ p :: ps) with ((seen ++ [p]) ++ ps) by (now rewrite <- app_assoc).
    replace (S (length seen)) with (length (seen ++ [p]))
      by (rewrite length_app; simpl; lia).
    apply IH.
    + rewrite length_app. simpl. lia.
    + apply digit_inv_step; [lia | exact Hinv].
Qed.

(** The two modes run in step: same best variance, and the unambiguous
    mode either has invalidated its match or agrees. *)
Lemma DecodeDigit_loop_modes (ps : list (list Z)) :
  forall (i : nat) (st_t st_f : DigitState),
    bestVariance st_t = bestVariance st_f ->
    bestMatch st_t = INVALID_MATCH \/ bestMatch st_t = bestMatch st_f ->
    let st_t' := DecodeDigit_loop pmv counters maxInd true i ps st_t in
    let st_f' := DecodeDigit_loop pmv counters maxInd false i ps st_f in
    bestVariance st_t' = bestVariance st_f'
    /\ (bestMatch st_t' = INVALID_MATCH \/ bestMatch st_t' = bestMatch st_f').
Proof.
  induction ps as [|p ps IH]; intros i st_t st_f Hb Hm; cbn zeta.
  - split; assumption.
  - cbn [DecodeDigit_loop]. apply IH.
    + unfold DecodeDigit_step. rewrite Hb.
      destruct (Qltb _ (bestVariance st_f)); [reflexivity|].
      cbn [andb]. destruct (Qeq_bool _ _); [reflexivity | exact Hb].
    + unfold DecodeDigit_step. rewrite Hb.
      destruct (Qltb _ (bestVariance st_f)); [now right|].
      cbn [andb]. destruct (Qeq_bool _ _); [now left | exact Hm].
Qed.

End DecodeDigitInvariant.

(** X8.  In either mode, DecodeDigit returns -1 or the index of a pattern
    whose score is strictly below [maxAvgVariance] and minimal among the
    scores of all patterns. *)
Theorem DecodeDigit_returns_minimum (pmv : Counters -> list Z -> Q -> Q)
    (counters : Counters) (patterns : list (list Z)) (maxAvg maxInd : Q) (req : bool) :
  Z.of_nat (length patterns) <= 2 ^ 31 ->
  DecodeDigit pmv counters patterns maxAvg maxInd req = -1
  \/ exists (a : nat) (pa : list Z),
       DecodeDigit pmv counters patterns maxAvg maxInd req = Z.of_nat a
       /\ patterns !! a = Some pa
       /\ (pmv counters pa maxInd < maxAvg)%Q
       /\ forall p, p ∈ patterns -> (pmv counters pa maxInd <= pmv counters p maxInd)%Q.
Proof.
  intros Hlen.
  destruct (digit_inv_loop pmv counters maxAvg maxInd req patterns []
              (mkDigit maxAvg INVALID_MATCH) Hlen (digit_inv_init _ _ _ _ req))
    as (Hall & _ & Hm).
  cbn [app length] in Hall, Hm. unfold DecodeDigit.
  destruct Hm as [Hinv | (a & pa & Ha & Hpa & Hsc & Hbelow & _)]; [now left|].
  right. exists a, pa. split; [exact Ha|]. split; [exact Hpa|]. split; [lra|].
  intros p Hp. specialize (Hall p Hp). lra.
Qed.

Lemma DecodeDigit_returns_minimum_witness :
  DecodeDigit FitScoring.PatternMatchVariance [2; 2; 4]
    [[2; 1; 1]; [1; 1; 2]; [1; 1; 1]] (1 # 2) (7 # 10) false = -1
  \/ exists (a : nat) (pa : list Z),
       DecodeDigit FitScoring.PatternMatchVariance [2; 2; 4]
         [[2; 1; 1]; [1; 1; 2]; [1; 1; 1]] (1 # 2) (7 # 10) false = Z.of_nat a
       /\ [[2; 1; 1]; [1; 1; 2]; [1; 1; 1]] !! a = Some pa
       /\ Qlt (FitScoring.PatternMatchVariance [2; 2; 4] pa (7 # 10)) (1 # 2)
       /\ forall p, p ∈ [[2; 1; 1]; [1; 1; 2]; [1; 1; 1]] ->
            Qle (FitScoring.PatternMatchVariance [2; 2; 4] pa (7 # 10))
              (FitScoring.PatternMatchVariance [2; 2; 4] p (7 # 10)).
Proof.
  apply (DecodeDigit_returns_minimum FitScoring.PatternMatchVariance [2; 2; 4]
           [[2; 1; 1]; [1; 1; 2]; [1; 1; 1]] (1 # 2) (7 # 10) false).
  simpl. lia.
Defined.

(** X9.  With [requireUnambiguousMatch = true], an index returned by
    DecodeDigit is that of a pattern whose score is strictly better than
    the score of every other pattern: the best match is better than all
    other matches. *)
Theorem DecodeDigit_unambiguous_is_strict (pmv : Counters -> list Z -> Q -> Q)
    (counters : Counters) (patterns : list (list Z)) (maxAvg maxInd : Q)
    (a : nat) (pa : list Z) :
  Z.of_nat (length patterns) <= 2 ^ 31 ->
  DecodeDigit pmv counters patterns maxAvg maxInd true = Z.of_nat a ->
  patterns !! a = Some pa ->
  forall (j : nat) (pj : list Z),
    j <> a -> patterns !! j = Some pj ->
    (pmv counters pa maxInd < pmv counters pj maxInd)%Q.
Proof.
  intros Hlen Hres Hpa j pj Hj Hpj.
  destruct (digit_inv_loop pmv counters maxAvg maxInd true patterns []
              (mkDigit maxAvg INVALID_MATCH) Hlen (digit_inv_init _ _ _ _ true))
    as (_ & _ & Hm).
  cbn [app length] in Hm. unfold DecodeDigit in Hres. rewrite Hres in Hm.
  destruct Hm as [Hinv | (a' & pa' & Ha' & Hpa' & Hsc & _ & Hstrict)].
  - unfold INVALID_MATCH in Hinv. lia.
  - assert (a' = a) by lia. subst a'.
    rewrite Hpa in Hpa'. injection Hpa' as <-.
    specialize (Hstrict eq_refl j pj Hj Hpj). lra.
Qed.

Lemma DecodeDigit_unambiguous_is_strict_witness :
  Qlt (FitScoring.PatternMatchVariance [2; 2; 4] [1; 1; 2] (7 # 10))
    (FitScoring.PatternMatchVariance [2; 2; 4] [1; 1; 1] (7 # 10)).
Proof.
  apply (DecodeDigit_unambiguous_is_strict FitScoring.PatternMatchVariance [2; 2; 4]
           [[2; 1; 1]; [1; 1; 2]; [1; 1; 1]] (1 # 2) (7 # 10) 1%nat [1; 1; 2]
           ltac:(simpl; lia) ltac:(vm_compute; reflexivity) eq_refl 2%nat [1; 1; 1]).
  - lia.
  - reflexivity.
Defined.

(** X10.  The two modes differ only by invalidation: with
    [requireUnambiguousMatch = true] DecodeDigit returns either -1 or
    exactly what it returns with [requireUnambiguousMatch = false]. *)
Theorem DecodeDigit_modes_agree (pmv : Counters -> list Z -> Q -> Q)
    (counters : Counters) (patterns : list (list Z)) (maxAvg maxInd : Q) :
  DecodeDigit pmv counters patterns maxAvg maxInd true = -1
  \/ DecodeDigit pmv counters patterns maxAvg maxInd true
     = DecodeDigit pmv counters patterns maxAvg maxInd false.
Proof.
  unfold DecodeDigit.
  apply (DecodeDigit_loop_modes pmv counters maxInd patterns 0
           (mkDigit maxAvg INVALID_MATCH) (mkDigit maxAvg INVALID_MATCH)).
  - reflexivity.
  - now left.
Qed.

(* ===================================================================== *)
(** * More on the narrow/wide classification                               *)
(* ===================================================================== *)

Lemma bs_get_side (x : BarAndSpaceI) (i : nat) : bs_get x i = side x (Nat.even i).
Proof. reflexivity. Qed.

Lemma side_bs_set (x : BarAndSpaceI) (i : nat) (v : Z) (b : bool) :
  side (bs_set x i v) b = if eqb (Nat.even i) b then v else side x b.
Proof. unfold bs_set, side. destruct (Nat.even i), b; reflexivity. Qed.

(** The first loop: per kind, the results bound every element of that
    kind, and are bounded by the initial values and any bounds on the
    elements. *)
Lemma minmax_loop_spec (view : list Z) :
  forall (i : nat) (m M m' M' : BarAndSpaceI),
    minmax_loop i view m M = (m', M') ->
    forall b : bool,
      (forall (j : nat) (w : Z),
          view !! j = Some w -> Nat.even (i + j) = b -> side m' b <= w <= side M' b)
      /\ (side m' b <= side m b /\ side M b <= side M' b)
      /\ (forall lo hi : Z,
            (forall (j : nat) (w : Z),
                view !! j = Some w -> Nat.even (i + j) = b -> lo <= w <= hi) ->
            Z.min (side m b) lo <= side m' b /\ side M' b <= Z.max (side M b) hi).
Proof.
  induction view as [|w view IH]; intros i m M m' M' Hmm b.
  - cbn [minmax_loop] in Hmm. injection Hmm as <- <-.
    split; [|split].
    + intros j x Hj. rewrite lookup_nil in Hj. discriminate.
    + lia.
    + intros lo hi _. lia.
  - cbn [minmax_loop] in Hmm.
    destruct (IH _ _ _ _ _ Hmm b) as (HA & HB & HC).
    rewrite !side_bs_set, !bs_get_side in HB, HC.
    split; [|split].
    + intros [|j] x Hj Hpar.
      * cbn in Hj. injection Hj as <-. rewrite Nat.add_0_r in Hpar.
        rewrite Hpar, eqb_reflx in HB. lia.
      * cbn in Hj. apply (HA j x Hj). rewrite <- Hpar. f_equal. lia.
    + destruct (eqb (Nat.even i) b) eqn:E; [|lia].
      apply eqb_prop in E. rewrite E in HB. lia.
    + intros lo hi Hbnd.
      assert (Hrest : forall (j : nat) (x : Z),
                view !! j = Some x -> Nat.even (S i + j) = b -> lo <= x <= hi).
      { intros j x Hj Hpar. apply (Hbnd (S j) x Hj). rewrite <- Hpar. f_equal. lia. }
      specialize (HC lo hi Hrest).
      destruct (eqb (Nat.even i) b) eqn:E; [|lia].
      apply eqb_prop in E. rewrite E in HC.
      assert (lo <= w <= hi) by (apply (Hbnd 0%nat w eq_refl); now rewrite Nat.add_0_r).
      lia.
Qed.

Lemma view_fits_lookup (value_max : Z) (view : list Z) (j : nat) (w : Z) :
  view_fits value_max view -> view !! j = Some w -> 0 < w /\ 3 * w <= 2 * value_max.
Proof.
  intros [_ Hall] Hj. apply Hall. eapply list_elem_of_lookup_2. exact Hj.
Qed.

(** On a fitting view the minimum and maximum of each kind are widths of
    the view's range: [1 <= min <= max] and [3 * max <= 2 * value_max]. *)
Lemma minmax_fits (value_max : Z) (view : list Z) (m M : BarAndSpaceI) (b : bool) :
  view_fits value_max view ->
  minmax_loop 0 view (mkBarAndSpace value_max value_max) (mkBarAndSpace 0 0) = (m, M) ->
  1 <= side m b <= side M b /\ 3 * side M b <= 2 * value_max.
Proof.
  intros Hfit Hmm.
  destruct (minmax_loop_spec view 0 _ _ _ _ Hmm b) as (HA & _ & HC).
  destruct Hfit as [Hlen Hall].
  assert (Hv : 0 < value_max).
  { destruct view as [|w view]; [simpl in Hlen; lia|].
    destruct (Hall w) as [H1 H2]; [apply elem_of_cons; now left | lia]. }
  set (hi := 2 * value_max / 3).
  assert (Hbnd : forall (j : nat) (w : Z),
            view !! j = Some w -> Nat.even (0 + j) = b -> 1 <= w <= hi).
  { intros j w Hj _. destruct (Hall w) as [H1 H2].
    - eapply list_elem_of_lookup_2. exact Hj.
    - unfold hi. split; [lia|]. apply Z.div_le_lower_bound; lia. }
  destruct (HC 1 hi Hbnd) as [Hlo Hhi].
  
  assert (Hm1 : 1 <= side m b) by (destruct b; cbn [side bar space] in *; lia).
  assert (HM1 : side M b <= hi).
  { assert (0 <= hi) by (unfold hi; apply Z.div_pos; lia).
    destruct b; cbn [side bar space] in *; lia. }
  assert (HM2 : 3 * side M b <= 2 * value_max).
  { assert (3 * hi <= 2 * value_max) by (unfold hi; apply Z.mul_div_le; lia). lia. }
  (* an element of kind [b] lies between the two *)
  destruct view as [|w0 [|w1 view]]; [simpl in Hlen; lia | simpl in Hlen; lia|].
  destruct b.
  - destruct (HA 0%nat w0 eq_refl eq_refl). lia.
  - destruct (HA 1%nat w1 eq_refl eq_refl). lia.
Qed.

Lemma threshold_of_bounds (value_max m M : Z) :
  1 <= m <= M -> 3 * M <= 2 * value_max ->
  to_value value_max (threshold_of m M) = threshold_of m M
  /\ 1 <= threshold_of m M
  /\ m <= threshold_of m M
  /\ M <= 2 * threshold_of m M.
Proof.
  intros Hm HM. unfold threshold_of, to_value.
  rewrite !Z.quot_div_nonneg by lia.
  assert (H1 : m <= m * 3 / 2) by (apply Z.div_le_lower_bound; lia).
  assert (H2 : m * 3 / 2 <= value_max) by (apply Z.div_le_upper_bound; lia).
  assert (H3 : (m + M) / 2 <= value_max) by (apply Z.div_le_upper_bound; lia).
  assert (H4 : m + M <= 2 * ((m + M) / 2) + 1).
  { assert (Hmod := Z.div_mod (m + M) 2 ltac:(lia)).
    assert (Hr := Z.mod_pos_bound (m + M) 2 ltac:(lia)). lia. }
  assert (H5 : 0 <= (m + M) / 2) by (apply Z.div_pos; lia).
  split; [apply Z.mod_small; lia | lia].
Qed.

(** The two outcomes of NarrowWideThreshold on a fitting view. *)
Lemma NarrowWideThreshold_cases (value_max : Z) (view : list Z) (m M : BarAndSpaceI) :
  view_fits value_max view ->
  minmax_loop 0 view (mkBarAndSpace value_max value_max) (mkBarAndSpace 0 0) = (m, M) ->
  NarrowWideThreshold value_max view
  = if rejects m M 0 || rejects m M 1 then mkBarAndSpace 0 0
    else mkBarAndSpace (threshold_of (bar m) (bar M)) (threshold_of (space m) (space M)).
Proof.
  intros Hfit Hmm. unfold NarrowWideThreshold. rewrite Hmm.
  destruct (minmax_fits value_max view m M true Hfit Hmm) as [Hb1 Hb2].
  destruct (minmax_fits value_max view m M false Hfit Hmm) as [Hs1 Hs2].
  cbn [side] in Hb1, Hb2, Hs1, Hs2.
  destruct (threshold_of_bounds value_max _ _ Hb1 Hb2) as (Hb & _).
  destruct (threshold_of_bounds value_max _ _ Hs1 Hs2) as (Hs & _).
  cbn [threshold_loop]. destruct (rejects m M 0); [reflexivity|].
  destruct (rejects m M 1); [reflexivity|].
  cbn [orb bs_set bs_get Nat.even bar space].
  fold (threshold_of (bar m) (bar M)). fold (threshold_of (space m) (space M)).
  now rewrite Hb, Hs.
Qed.

(** X11.  On a view with at least one bar and one space and positive
    widths that fit the value type, NarrowWideThreshold is valid exactly
    when none of the sanity checks fires: for bars and for spaces alike,
    [max <= 4 * (min + 1)], the maximum is at most three times the other
    kind's maximum and the minimum at most twice the other kind's minimum
    plus one.  The valid threshold of a kind is then
    [max ((min + max) / 2, min * 3 / 2)], which is at least 1: a computed
    threshold is never mistaken for the invalid one. *)
Theorem NarrowWideThreshold_valid_iff (value_max : Z) (view : list Z) (m M : BarAndSpaceI) :
  view_fits value_max view ->
  minmax_loop 0 view (mkBarAndSpace value_max value_max) (mkBarAndSpace 0 0) = (m, M) ->
  (isValid (NarrowWideThreshold value_max view) = true
   <-> (bar M <= 4 * (bar m + 1) /\ bar M <= 3 * space M /\ bar m <= 2 * (space m + 1))
       /\ (space M <= 4 * (space m + 1) /\ space M <= 3 * bar M
           /\ space m <= 2 * (bar m + 1)))
  /\ (isValid (NarrowWideThreshold value_max view) = true ->
      NarrowWideThreshold value_max view
      = mkBarAndSpace (threshold_of (bar m) (bar M)) (threshold_of (space m) (space M)))
  /\ (isValid (NarrowWideThreshold value_max view) = false ->
      NarrowWideThreshold value_max view = mkBarAndSpace 0 0).
Proof.
  intros Hfit Hmm.
  rewrite (NarrowWideThreshold_cases value_max view m M Hfit Hmm).
  destruct (minmax_fits value_max view m M true Hfit Hmm) as [Hb1 Hb2].
  destruct (minmax_fits value_max view m M false Hfit Hmm) as [Hs1 Hs2].
  cbn [side] in Hb1, Hb2, Hs1, Hs2.
  destruct (threshold_of_bounds value_max _ _ Hb1 Hb2) as (_ & Hb & _).
  destruct (threshold_of_bounds value_max _ _ Hs1 Hs2) as (_ & Hs & _).
  assert (Hr0 : rejects m M 0 = false
                <-> bar M <= 4 * (bar m + 1) /\ bar M <= 3 * space M
                    /\ bar m <= 2 * (space m + 1)).
  { unfold rejects. cbn [bs_get Nat.even Nat.add].
    rewrite !orb_false_iff, !Z.gtb_ltb, !Z.ltb_ge. tauto. }
  assert (Hr1 : rejects m M 1 = false
                <-> space M <= 4 * (space m + 1) /\ space M <= 3 * bar M
                    /\ space m <= 2 * (bar m + 1)).
  { unfold rejects. cbn [bs_get Nat.even Nat.add].
    rewrite !orb_false_iff, !Z.gtb_ltb, !Z.ltb_ge. tauto. }
  rewrite <- Hr0, <- Hr1.
  assert (Hvalid : isValid (mkBarAndSpace (threshold_of (bar m) (bar M))
                              (threshold_of (space m) (space M))) = true).
  { unfold isValid. cbn [bar space].
    replace (threshold_of (bar m) (bar M) =? 0) with false
      by (symmetry; apply Z.eqb_neq; lia).
    replace (threshold_of (space m) (space M) =? 0) with false
      by (symmetry; apply Z.eqb_neq; lia).
    reflexivity. }
  destruct (rejects m M 0), (rejects m M 1); cbn [orb];
    repeat split; try reflexivity; try (intros [? ?]; discriminate);
    try discriminate; try (rewrite Hvalid; discriminate); try (intros _; exact Hvalid).
Qed.

Lemma NarrowWideThreshold_valid_iff_witness :
  (isValid (NarrowWideThreshold 65535 [2; 3; 5; 6; 2; 3]) = true
   <-> (5 <= 4 * (2 + 1) /\ 5 <= 3 * 6 /\ 2 <= 2 * (3 + 1))
       /\ (6 <= 4 * (3 + 1) /\ 6 <= 3 * 5 /\ 3 <= 2 * (2 + 1)))
  /\ (isValid (NarrowWideThreshold 65535 [2; 3; 5; 6; 2; 3]) = true ->
      NarrowWideThreshold 65535 [2; 3; 5; 6; 2; 3]
      = mkBarAndSpace (threshold_of 2 5) (threshold_of 3 6))
  /\ (isValid (NarrowWideThreshold 65535 [2; 3; 5; 6; 2; 3]) = false ->
      NarrowWideThreshold 65535 [2; 3; 5; 6; 2; 3] = mkBarAndSpace 0 0).
Proof.
  apply (NarrowWideThreshold_valid_iff 65535 [2; 3; 5; 6; 2; 3]
           (mkBarAndSpace 2 3) (mkBarAndSpace 5 6)).
  - split; [simpl; lia|]. intros w Hw.
    repeat (apply elem_of_cons in Hw as [-> | Hw]); try lia.
    now apply elem_of_nil in Hw.
  - reflexivity.
Defined.

(** Shifting in one bit. *)
Lemma lor_shiftl_bit (p : Z) (b : bool) :
  0 <= p ->
  Z.lor (Z.shiftl p 1) (if b then 1 else 0) = 2 * p + (if b then 1 else 0).
Proof.
  intros Hp. rewrite Z.shiftl_mul_pow2 by lia. change (2 ^ 1) with 2.
  destruct b.
  - assert (Hland : Z.land (p * 2) 1 = 0).
    { change 1 with (Z.ones 1) at 1. rewrite Z.land_ones by lia.
      change (2 ^ 1) with 2. rewrite Z.mul_comm, Z.mul_comm. apply Z_mod_mult. }
    rewrite <- Z.lxor_lor by exact Hland.
    rewrite <- Z.add_nocarry_lxor by exact Hland. lia.
  - rewrite Z.lor_0_r. lia.
Qed.

(** The second loop on a view without spikes, as long as the [int]
    pattern has room for one more bit per element: the result is the
    pattern so far followed by one bit per element, most significant
    first. *)
Lemma pattern_loop_bits (t : BarAndSpaceI) (view : list Z) :
  forall (i : nat) (p : Z),
    0 <= p ->
    (p + 1) * 2 ^ Z.of_nat (length view) <= 2 ^ 31 ->
    (forall (j : nat) (w : Z), view !! j = Some w -> w <= bs_get t (i + j) * 2) ->
    0 <= pattern_loop i view t p < (p + 1) * 2 ^ Z.of_nat (length view)
    /\ (forall (j : nat) (w : Z),
          view !! j = Some w ->
          Z.testbit (pattern_loop i view t p) (Z.of_nat (length view - 1 - j))
          = (w >? bs_get t (i + j)))
    /\ (forall n : Z,
          0 <= n ->
          Z.testbit (pattern_loop i view t p) (Z.of_nat (length view) + n)
          = Z.testbit p n).
Proof.
  induction view as [|w view IH]; intros i p Hp Hroom Hspike.
  - cbn [pattern_loop length]. change (2 ^ Z.of_nat 0) with 1.
    split; [lia|]. split.
    + intros j x Hj. rewrite lookup_nil in Hj. discriminate.
    + intros n Hn. f_equal; lia.
  - cbn [pattern_loop].
    assert (Hw := Hspike 0%nat w eq_refl). rewrite Nat.add_0_r in Hw.
    replace (w >? bs_get t i * 2) with false
      by (symmetry; rewrite Z.gtb_ltb; apply Z.ltb_ge; lia).
    set (b := w >? bs_get t i).
    rewrite (lor_shiftl_bit p b Hp).
    set (p' := 2 * p + (if b then 1 else 0)).
    assert (Hp' : 0 <= p') by (unfold p'; destruct b; lia).
    assert (Hpow : 2 ^ Z.of_nat (length (w :: view)) = 2 * 2 ^ Z.of_nat (length view)).
    { cbn [length]. rewrite Nat2Z.inj_succ, Z.pow_succ_r by lia. reflexivity. }
    assert (H2 : 0 < 2 ^ Z.of_nat (length view)) by (apply Z.pow_pos_nonneg; lia).
    assert (Hp'1 : p' + 1 <= 2 * (p + 1)) by (unfold p'; destruct b; lia).
    rewrite Hpow in Hroom.
    assert (Hroom' : (p' + 1) * 2 ^ Z.of_nat (length view) <= 2 ^ 31) by nia.
    rewrite (static_cast_int_small p') by nia.
    assert (Hrest : forall (j : nat) (x : Z),
              view !! j = Some x -> x <= bs_get t (S i + j) * 2).
    { intros j x Hj. replace (S i + j)%nat with (i + S j)%nat by lia.
      now apply (Hspike (S j) x). }
    destruct (IH (S i) p' Hp' Hroom' Hrest) as (Hrange & Hbits & Hhigh).
    split; [|split].
    + rewrite Hpow. split; [lia|]. nia.
    + intros [|j] x Hj.
      * cbn in Hj. injection Hj as <-. rewrite Nat.add_0_r.
        cbn [length]. replace (Z.of_nat (S (length view) - 1 - 0))
          with (Z.of_nat (length view) + 0) by lia.
        rewrite Hhigh by lia. unfold p'. fold b.
        destruct b; [apply Z.testbit_odd_0 | rewrite Z.add_0_r; apply Z.testbit_even_0].
      * cbn in Hj. cbn [length].
        replace (S (length view) - 1 - S j)%nat with (length view - 1 - j)%nat by lia.
        replace (i + S j)%nat with (S i + j)%nat by lia.
        now apply Hbits.
    + intros n Hn. cbn [length].
      replace (Z.of_nat (S (length view)) + n)
        with (Z.of_nat (length view) + Z.succ n) by lia.
      rewrite Hhigh by lia. unfold p'.
      destruct b; [apply Z.testbit_odd_succ; lia|].
      rewrite Z.add_0_r. apply Z.testbit_even_succ. lia.
Qed.

(** On a fitting view with a valid threshold no element is wider than
    twice its threshold, and an element that is minimal for its kind is not
    wider than its threshold. *)
Lemma valid_threshold_elements (value_max : Z) (view : list Z) :
  view_fits value_max view ->
  isValid (NarrowWideThreshold value_max view) = true ->
  forall (j : nat) (w : Z),
    view !! j = Some w ->
    w <= bs_get (NarrowWideThreshold value_max view) j * 2
    /\ ((forall (j' : nat) (u : Z),
            view !! j' = Some u -> Nat.even j' = Nat.even j -> w <= u) ->
        w <= bs_get (NarrowWideThreshold value_max view) j).
Proof.
  intros Hfit Hvalid j w Hj.
  destruct (minmax_loop 0 view (mkBarAndSpace value_max value_max) (mkBarAndSpace 0 0))
    as [m M] eqn:Hmm.
  rewrite (NarrowWideThreshold_cases value_max view m M Hfit Hmm) in Hvalid |- *.
  destruct (rejects m M 0 || rejects m M 1); [discriminate Hvalid|].
  destruct (minmax_fits value_max view m M (Nat.even j) Hfit Hmm) as [H1 H2].
  destruct (threshold_of_bounds value_max _ _ H1 H2) as (_ & _ & Hm & HM).
  destruct (minmax_loop_spec view 0 _ _ _ _ Hmm (Nat.even j)) as (HA & _ & HC).
  destruct (HA j w Hj eq_refl) as [_ HwM].
  assert (Ht : bs_get (mkBarAndSpace (threshold_of (bar m) (bar M))
                         (threshold_of (space m) (space M))) j
               = threshold_of (side m (Nat.even j)) (side M (Nat.even j))).
  { unfold bs_get, side. destruct (Nat.even j); reflexivity. }
  rewrite Ht. split; [lia|].
  intros Hmin.
  destruct (view_fits_lookup value_max view j w Hfit Hj) as [Hw0 Hw1].
  destruct (HC w value_max) as [Hlo _].
  { intros j' u Hj' Hpar. cbn [Nat.add] in Hpar.
    destruct (view_fits_lookup value_max view j' u Hfit Hj') as [Hu0 Hu1].
    split; [now apply (Hmin j' u) | lia]. }
  cbn [side bar space] in Hlo.
  assert (Hinit : side (mkBarAndSpace value_max value_max) (Nat.even j) = value_max)
    by (unfold side; destruct (Nat.even j); reflexivity).
  rewrite Hinit in Hlo.
  lia.
Qed.

(** A view of at most 31 elements leaves the sign bit of the [int]
    pattern alone. *)
Lemma pattern_room (view : list Z) :
  (length view <= 31)%nat -> (0 + 1) * 2 ^ Z.of_nat (length view) <= 2 ^ 31.
Proof.
  intros Hlen. rewrite Z.mul_1_l. apply Z.pow_le_mono_r; lia.
Qed.

(** With a valid threshold on a fitting view, the pattern is the result of
    the classification loop, which meets no spike. *)
Lemma ToNarrowWidePattern_valid (value_max : Z) (view : list Z) :
  view_fits value_max view ->
  isValid (NarrowWideThreshold value_max view) = true ->
  ToNarrowWidePattern value_max view
  = pattern_loop 0 view (NarrowWideThreshold value_max view) 0
  /\ (forall (j : nat) (w : Z),
        view !! j = Some w ->
        w <= bs_get (NarrowWideThreshold value_max view) (0 + j) * 2).
Proof.
  intros Hfit Hvalid. split.
  - unfold ToNarrowWidePattern. cbn zeta. rewrite Hvalid. reflexivity.
  - intros j w Hj. cbn [Nat.add].
    exact (proj1 (valid_threshold_elements value_max view Hfit Hvalid j w Hj)).
Qed.

(** X12. On a view of at most 31 positive widths that fit the value type,
    ToNarrowWidePattern returns -1 exactly when NarrowWideThreshold returns
    the invalid threshold: the spike test of line 254 never fires there.
    Any other result is a pattern of as many bits as the view has
    elements. *)
Theorem ToNarrowWidePattern_fails_iff (value_max : Z) (view : list Z) :
  view_fits value_max view ->
  (length view <= 31)%nat ->
  (ToNarrowWidePattern value_max view = -1
   <-> isValid (NarrowWideThreshold value_max view) = false)
  /\ (isValid (NarrowWideThreshold value_max view) = true ->
      0 <= ToNarrowWidePattern value_max view < 2 ^ Z.of_nat (length view)).
Proof.
  intros Hfit Hlen.
  assert (Hok : isValid (NarrowWideThreshold value_max view) = true ->
                0 <= ToNarrowWidePattern value_max view < 2 ^ Z.of_nat (length view)).
  { intros Hvalid.
    destruct (ToNarrowWidePattern_valid value_max view Hfit Hvalid) as [-> Hspike].
    destruct (pattern_loop_bits (NarrowWideThreshold value_max view) view 0%nat 0
                ltac:(lia) (pattern_room view Hlen) Hspike) as [Hrange _].
    lia. }
  split; [|exact Hok].
  split.
  - intros Hres.
    destruct (isValid (NarrowWideThreshold value_max view)) eqn:Hvalid; [|reflexivity].
    specialize (Hok eq_refl). lia.
  - intros Hinvalid. unfold ToNarrowWidePattern. cbn zeta.
    rewrite Hinvalid. reflexivity.
Qed.

Lemma ToNarrowWidePattern_fails_iff_witness :
  (ToNarrowWidePattern 65535 [2; 3; 5; 6; 2; 3] = -1
   <-> isValid (NarrowWideThreshold 65535 [2; 3; 5; 6; 2; 3]) = false)
  /\ (isValid (NarrowWideThreshold 65535 [2; 3; 5; 6; 2; 3]) = true ->
      0 <= ToNarrowWidePattern 65535 [2; 3; 5; 6; 2; 3] < 2 ^ Z.of_nat 6).
Proof.
  apply (ToNarrowWidePattern_fails_iff 65535 [2; 3; 5; 6; 2; 3]).
  - split; [simpl; lia|].
    intros w Hw. repeat (apply elem_of_cons in Hw; destruct Hw as [-> | Hw]; [lia|]).
    apply elem_of_nil in Hw. destruct Hw.
  - simpl. lia.
Defined.

(** X13. When the threshold is valid and the view has at most 31 elements,
    the pattern holds one bit per
    element of the view, the first element in the most significant of the
    [view.size()] bits: the bit of element [j] is set exactly when the
    element is wider than the threshold of its kind (bars at even [j],
    spaces at odd [j]). *)
Theorem ToNarrowWidePattern_bits (value_max : Z) (view : list Z) (j : nat) (w : Z) :
  view_fits value_max view ->
  (length view <= 31)%nat ->
  isValid (NarrowWideThreshold value_max view) = true ->
  view !! j = Some w ->
  Z.testbit (ToNarrowWidePattern value_max view) (Z.of_nat (length view - 1 - j))
  = (w >? bs_get (NarrowWideThreshold value_max view) j).
Proof.
  intros Hfit Hlen Hvalid Hj.
  destruct (ToNarrowWidePattern_valid value_max view Hfit Hvalid) as [-> Hspike].
  destruct (pattern_loop_bits (NarrowWideThreshold value_max view) view 0%nat 0
              ltac:(lia) (pattern_room view Hlen) Hspike) as (_ & Hbits & _).
  exact (Hbits j w Hj).
Qed.

Lemma ToNarrowWidePattern_bits_witness :
  Z.testbit (ToNarrowWidePattern 65535 [2; 3; 5; 6; 2; 3]) (Z.of_nat (6 - 1 - 2))
  = (5 >? bs_get (NarrowWideThreshold 65535 [2; 3; 5; 6; 2; 3]) 2).
Proof.
  apply (ToNarrowWidePattern_bits 65535 [2; 3; 5; 6; 2; 3] 2 5).
  - split; [simpl; lia|].
    intros w Hw. repeat (apply elem_of_cons in Hw; destruct Hw as [-> | Hw]; [lia|]).
    apply elem_of_nil in Hw. destruct Hw.
  - simpl. lia.
  - reflexivity.
  - reflexivity.
Defined.

(** X14. When the threshold is valid and the view has at most 31
    elements, an element that is the narrowest of
    its kind (no bar is narrower if it is a bar, no space if it is a space)
    is classified narrow: its bit in the pattern is 0. *)
Theorem ToNarrowWidePattern_narrowest_is_narrow
    (value_max : Z) (view : list Z) (j : nat) (w : Z) :
  view_fits value_max view ->
  (length view <= 31)%nat ->
  isValid (NarrowWideThreshold value_max view) = true ->
  view !! j = Some w ->
  (forall (j' : nat) (u : Z),
      view !! j' = Some u -> Nat.even j' = Nat.even j -> w <= u) ->
  Z.testbit (ToNarrowWidePattern value_max view) (Z.of_nat (length view - 1 - j))
  = false.
Proof.
  intros Hfit Hlen Hvalid Hj Hmin.
  destruct (ToNarrowWidePattern_valid value_max view Hfit Hvalid) as [-> Hspike].
  destruct (pattern_loop_bits (NarrowWideThreshold value_max view) view 0%nat 0
              ltac:(lia) (pattern_room view Hlen) Hspike) as (_ & Hbits & _).
  rewrite (Hbits j w Hj). cbn [Nat.add].
  pose proof (proj2 (valid_threshold_elements value_max view Hfit Hvalid j w Hj) Hmin).
  rewrite Z.gtb_ltb. apply Z.ltb_ge. lia.
Qed.

Lemma ToNarrowWidePattern_narrowest_is_narrow_witness :
  Z.testbit (ToNarrowWidePattern 65535 [2; 3; 5; 6; 2; 3]) (Z.of_nat (6 - 1 - 4))
  = false.
Proof.
  apply (ToNarrowWidePattern_narrowest_is_narrow 65535 [2; 3; 5; 6; 2; 3] 4 2).
  - split; [simpl; lia|].
    intros w Hw. repeat (apply elem_of_cons in Hw; destruct Hw as [-> | Hw]; [lia|]).
    apply elem_of_nil in Hw. destruct Hw.
  - simpl. lia.
  - reflexivity.
  - reflexivity.
  - intros j' u Hj' _.
    do 6 (destruct j' as [|j']; [cbn in Hj'; injection Hj' as <-; lia|]).
    cbn in Hj'. discriminate.
Defined.

(** A valid threshold in terms of the view: for each kind it is
    [threshold_of] of the narrowest and the widest width of that kind. *)
Lemma valid_threshold_extremes (value_max : Z) (view : list Z)
    (j0 j1 : nat) (u v : Z) :
  view_fits value_max view ->
  isValid (NarrowWideThreshold value_max view) = true ->
  view !! j0 = Some u -> view !! j1 = Some v ->
  Nat.even j0 = Nat.even j1 ->
  (forall (j' : nat) (x : Z),
      view !! j' = Some x -> Nat.even j' = Nat.even j1 -> u <= x <= v) ->
  bs_get (NarrowWideThreshold value_max view) j1 = threshold_of u v.
Proof.
  intros Hfit Hvalid Hj0 Hj1 Hpar Hext.
  destruct (minmax_loop 0 view (mkBarAndSpace value_max value_max) (mkBarAndSpace 0 0))
    as [m M] eqn:Hmm.
  rewrite (NarrowWideThreshold_cases value_max view m M Hfit Hmm) in Hvalid |- *.
  destruct (rejects m M 0 || rejects m M 1); [discriminate Hvalid|].
  destruct (minmax_loop_spec view 0 _ _ _ _ Hmm (Nat.even j1)) as (HA & _ & HC).
  destruct (HA j0 u Hj0 Hpar) as [Hmu _].
  destruct (HA j1 v Hj1 eq_refl) as [_ HvM].
  destruct (HC u v Hext) as [Hlo Hhi].
  destruct (view_fits_lookup value_max view j0 u Hfit Hj0) as [Hu0 Hu1].
  destruct (view_fits_lookup value_max view j1 v Hfit Hj1) as [Hv0 Hv1].
  assert (Hinit : side (mkBarAndSpace value_max value_max) (Nat.even j1) = value_max
                  /\ side (mkBarAndSpace 0 0) (Nat.even j1) = 0)
    by (unfold side; destruct (Nat.even j1); split; reflexivity).
  destruct Hinit as [Hi1 Hi2]. rewrite Hi1 in Hlo. rewrite Hi2 in Hhi.
  assert (Hm : side m (Nat.even j1) = u) by lia.
  assert (HM : side M (Nat.even j1) = v) by lia.
  rewrite <- Hm, <- HM. unfold bs_get, side. destruct (Nat.even j1); reflexivity.
Qed.

(** X15. When the threshold is valid and the view has at most 31
    elements, the widest element of a kind is
    classified wide exactly when it is more than one and a half times as
    wide as the narrowest element of that kind. *)
Theorem ToNarrowWidePattern_widest_is_wide_iff
    (value_max : Z) (view : list Z) (j0 j1 : nat) (u v : Z) :
  view_fits value_max view ->
  (length view <= 31)%nat ->
  isValid (NarrowWideThreshold value_max view) = true ->
  view !! j0 = Some u -> view !! j1 = Some v ->
  Nat.even j0 = Nat.even j1 ->
  (forall (j' : nat) (x : Z),
      view !! j' = Some x -> Nat.even j' = Nat.even j1 -> u <= x <= v) ->
  Z.testbit (ToNarrowWidePattern value_max view) (Z.of_nat (length view - 1 - j1))
  = (3 * u <? 2 * v).
Proof.
  intros Hfit Hlen Hvalid Hj0 Hj1 Hpar Hext.
  destruct (ToNarrowWidePattern_valid value_max view Hfit Hvalid) as [-> Hspike].
  destruct (pattern_loop_bits (NarrowWideThreshold value_max view) view 0%nat 0
              ltac:(lia) (pattern_room view Hlen) Hspike) as (_ & Hbits & _).
  rewrite (Hbits j1 v Hj1). cbn [Nat.add].
  rewrite (valid_threshold_extremes value_max view j0 j1 u v Hfit Hvalid Hj0 Hj1 Hpar Hext).
  destruct (view_fits_lookup value_max view j0 u Hfit Hj0) as [Hu0 _].
  destruct (Hext j1 v Hj1 eq_refl) as [Huv _].
  unfold threshold_of.
  rewrite !Z.quot_div_nonneg by lia.
  rewrite Z.gtb_ltb.
  destruct (Z.ltb_spec (3 * u) (2 * v)) as [H|H].
  - apply Z.ltb_lt. apply Z.max_lub_lt.
    + apply Z.div_lt_upper_bound; lia.
    + apply Z.div_lt_upper_bound; lia.
  - apply Z.ltb_ge. etransitivity; [|apply Z.le_max_r].
    apply Z.div_le_lower_bound; lia.
Qed.

Lemma ToNarrowWidePattern_widest_is_wide_iff_witness :
  Z.testbit (ToNarrowWidePattern 65535 [2; 3; 5; 6; 2; 3]) (Z.of_nat (6 - 1 - 2))
  = (3 * 2 <? 2 * 5).
Proof.
  apply (ToNarrowWidePattern_widest_is_wide_iff 65535 [2; 3; 5; 6; 2; 3] 0 2 2 5).
  - split; [simpl; lia|].
    intros w Hw. repeat (apply elem_of_cons in Hw; destruct Hw as [-> | Hw]; [lia|]).
    apply elem_of_nil in Hw. destruct Hw.
  - simpl. lia.
  - reflexivity.
  - reflexivity.
  - reflexivity.
  - reflexivity.
  - intros j' x Hj' Hev.
    do 6 (destruct j' as [|j'];
          [cbn in Hj'; injection Hj' as <-; first [lia | discriminate Hev]|]).
    cbn in Hj'. discriminate.
Defined.

(* ===================================================================== *)
(** * Narrow counter types and long views                                  *)
(* ===================================================================== *)

(** With 8-bit counters a run of 300 pixels is stored as 44. *)
Example RecordPattern_uint8_truncates :
  RecordPattern (CounterValue := uint8_counter) (repeat true 300 ++ [false]) 0 301 [0; 0]
  = Some (mkRange 0 301, [44; 1]).
Proof. vm_compute. reflexivity. Qed.

(** With 8-bit counters a last run of 256 pixels that is flush with the
    end of the range is stored as 0, and the range is not accepted. *)
Example RecordPattern_uint8_flush_rejected :
  RecordPattern (CounterValue := uint8_counter) (true :: repeat false 256) 0 257 [0; 0]
  = Some (NotFound 257, [1; 0]).
Proof. vm_compute. reflexivity. Qed.

(** With 8-bit counters a found range can come with a last counter of 0. *)
Example RecordPattern_uint8_found_back_zero :
  RecordPattern (CounterValue := uint8_counter)
    (true :: repeat false 256 ++ [true]) 0 258 [0; 0]
  = Some (mkRange 0 257, [1; 0]).
Proof. vm_compute. reflexivity. Qed.

(** On 32 elements the first bit of the pattern lands in the sign bit. *)
Example ToNarrowWidePattern_32_elements :
  ToNarrowWidePattern 65535 (6 :: repeat 2 31) = - 2 ^ 31.
Proof. vm_compute. reflexivity. Qed.

(** On 34 elements a valid threshold can come with the result -1. *)
Example ToNarrowWidePattern_34_elements :
  isValid (NarrowWideThreshold 65535 (2 :: 2 :: repeat 6 32)) = true
  /\ ToNarrowWidePattern 65535 (2 :: 2 :: repeat 6 32) = -1.
Proof. split; vm_compute; reflexivity. Qed.

(** X16.  For every counter type, RecordPattern stores each run width
    through the cast and returns a range that does not depend on the
    counter type as long as the range has more runs than counters: the
    range of the first N runs.  With exactly N runs the last slot decides:
    the whole range is returned unless the stored width of the last run is
    0, which gives "not found".  With fewer runs it is "not found". *)
Theorem RecordPattern_any_counter_type {CounterValue : CounterType}
    (row : Row) (begin e : Z) (counters : Counters) :
  0 <= begin <= e -> e <= Z.of_nat (length row) -> counters <> [] ->
  let rs := runs (slice row begin e) in
  let k := length rs in
  let N := length counters in
  exists (range : Range Z) (c : Counters),
    RecordPattern row begin e counters = Some (range, c)
    /\ c = fill (set_back counters 0) (map static_cast_counter rs)
    /\ ((N < k)%nat ->
        range = mkRange begin (begin + sumZ (take N rs))
        /\ c = map static_cast_counter (take N rs))
    /\ (N = k ->
        c = map static_cast_counter rs
        /\ range = if back c =? 0 then NotFound e else mkRange begin e)
    /\ ((k < N)%nat -> range = NotFound e).
Proof.
  intros Hb He Hne rs k N.
  eexists _, _. split; [now apply RecordPattern_stored|]. fold rs k N.
  assert (HN : (0 < N)%nat) by (unfold N; destruct counters; [congruence | simpl; lia]).
  assert (Hl0 : length (set_back counters 0) = N) by apply set_back_length.
  assert (Hlm : length (map static_cast_counter rs) = k) by apply length_map.
  split; [reflexivity|]. split; [|split].
  - intros Hlt.
    replace (N <? k)%nat with true by (symmetry; apply Nat.ltb_lt; lia).
    split; [reflexivity|].
    rewrite fill_full by lia. rewrite Hl0. apply firstn_map.
  - intros Heq.
    replace (N <? k)%nat with false by (symmetry; apply Nat.ltb_ge; lia).
    rewrite fill_full by lia. rewrite Hl0, take_ge by lia.
    split; reflexivity.
  - intros Hlt.
    replace (N <? k)%nat with false by (symmetry; apply Nat.ltb_ge; lia).
    rewrite back_fill_map_short by (fold k; lia).
    rewrite back_set_back by assumption. reflexivity.
Qed.

Lemma RecordPattern_any_counter_type_witness :
  let rs := runs (slice (true :: repeat false 256) 0 257) in
  let k := length rs in
  let N := length [0; 0] in
  exists (range : Range Z) (c : Counters),
    RecordPattern (CounterValue := uint8_counter) (true :: repeat false 256) 0 257 [0; 0]
    = Some (range, c)
    /\ c = fill (set_back [0; 0] 0) (map (static_cast_counter (CounterValue := uint8_counter)) rs)
    /\ ((N < k)%nat ->
        range = mkRange 0 (0 + sumZ (take N rs))
        /\ c = map (static_cast_counter (CounterValue := uint8_counter)) (take N rs))
    /\ (N = k ->
        c = map (static_cast_counter (CounterValue := uint8_counter)) rs
        /\ range = if back c =? 0 then NotFound 257 else mkRange 0 257)
    /\ ((k < N)%nat -> range = NotFound 257).
Proof.
  apply (RecordPattern_any_counter_type (CounterValue := uint8_counter)
           (true :: repeat false 256) 0 257 [0; 0]).
  - lia.
  - simpl. lia.
  - discriminate.
Defined.
